(** * openApiBuilder: the OpenAPI-to-route compiler of [src/index.js]

    A shallow embedding of the compiler and the properties its specification
    states about it.

    Conventions of the embedding.
    - A JavaScript string is a [string]: a sequence of code units below 256.
    - A document is a [json] tree.  Numbers are integers of the safe range
      (the ones a double holds exactly); an object is the list of its own
      properties in the order [Object.keys] lists them.
    - A call either returns, throws, or ends the process after
      [console.error] ([process.exit(1)]): an [outcome].  [console.info]
      lines are not modelled.
    - [JSON.stringify], [JSON.parse], [String.prototype.replaceAll] and the
      regular expression of [getRefsInsideSpec] are modelled on texts, the
      way the source uses them.
    - Where a function writes to an object it was given, the objects are
      the cells of a store ([Store]) and the write is to a cell.
    - Only own properties are modelled: a document whose keys reach
      [Object.prototype] ([__proto__]) is outside the embedding.
    - Where a text or a value leaves these conventions (a fraction, a code
      unit above 255, a property set on an array) the outcome is
      [Unmodelled]: the embedding says nothing about it. *)

From Stdlib Require Import String Ascii List ZArith NArith Lia Bool.
From Stdlib Require Import DecimalString DecimalN DecimalZ.
Import ListNotations.
Local Open Scope list_scope.
Local Open Scope string_scope.

(** ** Texts *)

Definition code (c : ascii) : N := N_of_ascii c.

Definition str1 (c : ascii) : string := String c EmptyString.

Definition is_digit (c : ascii) : bool :=
  ((48 <=? code c) && (code c <=? 57))%N.

Definition digit_val (c : ascii) : N := (code c - 48)%N.

(** [String(n)] for a non-negative integer, [String(z)] for an integer. *)
Definition string_of_N (n : N) : string :=
  NilZero.string_of_uint (N.to_uint n).

Definition string_of_Z (z : Z) : string :=
  match z with
  | Zneg p => "-" ++ string_of_N (Npos p)
  | _ => string_of_N (Z.to_N z)
  end.

(** The number a run of decimal digits adds to the digits [a] read before
    it. *)
Fixpoint digits_value (d : Decimal.uint) (a : N) : N :=
  match d with
  | Decimal.Nil => a
  | Decimal.D0 l => digits_value l (10 * a + 0)
  | Decimal.D1 l => digits_value l (10 * a + 1)
  | Decimal.D2 l => digits_value l (10 * a + 2)
  | Decimal.D3 l => digits_value l (10 * a + 3)
  | Decimal.D4 l => digits_value l (10 * a + 4)
  | Decimal.D5 l => digits_value l (10 * a + 5)
  | Decimal.D6 l => digits_value l (10 * a + 6)
  | Decimal.D7 l => digits_value l (10 * a + 7)
  | Decimal.D8 l => digits_value l (10 * a + 8)
  | Decimal.D9 l => digits_value l (10 * a + 9)
  end%N.

(** [s.substr(1)] and [s.slice(0, -1)]. *)
Definition substr1 (s : string) : string :=
  match s with
  | EmptyString => EmptyString
  | String _ t => t
  end.

Fixpoint slice_0_m1 (s : string) : string :=
  match s with
  | EmptyString => EmptyString
  | String c t =>
      match t with
      | EmptyString => EmptyString
      | String _ _ => String c (slice_0_m1 t)
      end
  end.

Fixpoint rev_append_string (r : list ascii) (s : string) : string :=
  match r with
  | [] => s
  | c :: r' => rev_append_string r' (String c s)
  end.

(** The characters collected so far, latest first, as a text. *)
Definition string_of_rev (r : list ascii) : string :=
  rev_append_string r EmptyString.

(** The characters of a text, latest first. *)
Fixpoint rev_chars (s : string) (acc : list ascii) : list ascii :=
  match s with
  | EmptyString => acc
  | String c t => rev_chars t (c :: acc)
  end.

(** [c.toLowerCase()] and [c.toUpperCase()] on one code unit of the
    embedding (below 256, where the result is one code unit again): the
    letters of ASCII and, for the lower case, those of Latin-1. *)
Definition lower_char (c : ascii) : ascii :=
  let n := code c in
  if ((65 <=? n) && (n <=? 90))%N then ascii_of_N (n + 32)
  else if ((192 <=? n) && (n <=? 222) && negb (n =? 215))%N
       then ascii_of_N (n + 32)
       else c.

Definition upper_char (c : ascii) : ascii :=
  let n := code c in
  if ((97 <=? n) && (n <=? 122))%N then ascii_of_N (n - 32) else c.

Fixpoint toUpperCase (s : string) : string :=
  match s with
  | EmptyString => EmptyString
  | String c t => String (upper_char c) (toUpperCase t)
  end.

(** ** Documents *)

Unset Elimination Schemes.

Inductive json : Type :=
| JNull
| JBool (b : bool)
| JNum (n : Z)
| JStr (s : string)
| JArr (xs : list json)
| JObj (ms : list (string * json)).

Set Elimination Schemes.

(** The own properties of an object, in [Object.keys] order. *)
Definition obj : Type := list (string * json).

(** A key that is an array index: the canonical decimal text of an integer
    below [2^32 - 1].  [Object.keys] lists such keys first, in ascending
    order, and the other keys after them in creation order. *)
Definition array_index (k : string) : option N :=
  match NilEmpty.uint_of_string k with
  | Some d =>
      let n := N.of_uint d in
      if (string_of_N n =? k) && (n <? 4294967295)%N then Some n else None
  | None => None
  end.

Fixpoint obj_get (o : obj) (k : string) : option json :=
  match o with
  | [] => None
  | (k', v) :: o' => if k' =? k then Some v else obj_get o' k
  end.

Definition obj_has (o : obj) (k : string) : bool :=
  match obj_get o k with Some _ => true | None => false end.

Fixpoint obj_replace (o : obj) (k : string) (v : json) : obj :=
  match o with
  | [] => []
  | (k', v') :: o' =>
      if k' =? k then (k', v) :: o' else (k', v') :: obj_replace o' k v
  end.

Fixpoint obj_insert_index (n : N) (k : string) (v : json) (o : obj) : obj :=
  match o with
  | [] => [(k, v)]
  | (k', v') :: o' =>
      match array_index k' with
      | Some n' =>
          if (n' <? n)%N then (k', v') :: obj_insert_index n k v o'
          else (k, v) :: o
      | None => (k, v) :: o
      end
  end.

(** [o[k] = v] on an ordinary object: an existing property keeps its place,
    a new one goes where [Object.keys] will list it. *)
Definition obj_set (o : obj) (k : string) (v : json) : obj :=
  if obj_has o k then obj_replace o k v
  else match array_index k with
       | Some n => obj_insert_index n k v o
       | None => (o ++ [(k, v)])%list
       end.

(** [{...a, ...b}]. *)
Definition obj_merge (a b : obj) : obj :=
  fold_left (fun acc kv => obj_set acc (fst kv) (snd kv)) b a.

Definition index_keys (n : nat) : list string :=
  map (fun i => string_of_N (N.of_nat i)) (seq 0 n).

Fixpoint chars (s : string) : list json :=
  match s with
  | EmptyString => []
  | String c t => JStr (str1 c) :: chars t
  end.

(** [v[k]] on a value that is neither [null] nor [undefined]; [None] is
    [undefined]. *)
Definition js_get (v : json) (k : string) : option json :=
  match v with
  | JObj ms => obj_get ms k
  | JArr xs =>
      match array_index k with
      | Some n => nth_error xs (N.to_nat n)
      | None =>
          if k =? "length" then Some (JNum (Z.of_nat (List.length xs)))
          else None
      end
  | JStr s =>
      match array_index k with
      | Some n => nth_error (chars s) (N.to_nat n)
      | None =>
          if k =? "length" then Some (JNum (Z.of_nat (String.length s)))
          else None
      end
  | _ => None
  end.

(** The own enumerable properties of a value, as [{...v}] copies them
    ([undefined] and [null] have none). *)
Definition own_props (v : option json) : obj :=
  match v with
  | Some (JObj ms) => ms
  | Some (JArr xs) => combine (index_keys (List.length xs)) xs
  | Some (JStr s) => combine (index_keys (String.length s)) (chars s)
  | _ => []
  end.

(** [!!v]. *)
Definition truthy (v : option json) : bool :=
  match v with
  | None | Some JNull => false
  | Some (JBool b) => b
  | Some (JNum n) => negb (n =? 0)%Z
  | Some (JStr s) => negb (s =? EmptyString)
  | Some (JArr _) | Some (JObj _) => true
  end.

(** [String(v)], which turns a computed property key into its name. *)
Fixpoint to_string (v : json) : string :=
  match v with
  | JNull => "null"
  | JBool true => "true"
  | JBool false => "false"
  | JNum n => string_of_Z n
  | JStr s => s
  | JArr xs =>
      String.concat ","
        (map (fun x => match x with JNull => EmptyString | _ => to_string x end) xs)
  | JObj _ => "[object Object]"
  end.

Definition property_key (v : option json) : string :=
  match v with
  | None => "undefined"
  | Some x => to_string x
  end.

(** ** Outcomes *)

Inductive js_error : Type := TypeError | SyntaxError.

(** What [console.error] reports before [process.exit(1)]. *)
Inductive diagnostic : Type :=
| OrphanRefs (refs : list string)
| AbsentHandler (operationId : string).

Inductive outcome (A : Type) : Type :=
| Returned (a : A)
| Thrown (e : js_error)
| Exited (d : diagnostic)
| Unmodelled.

Arguments Returned {A} a.
Arguments Thrown {A} e.
Arguments Exited {A} d.
Arguments Unmodelled {A}.

Definition bind {A B : Type} (m : outcome A) (f : A -> outcome B) : outcome B :=
  match m with
  | Returned a => f a
  | Thrown e => Thrown e
  | Exited d => Exited d
  | Unmodelled => Unmodelled
  end.

Notation "x <- m ;; k" := (bind m (fun x => k))
  (at level 61, m at next level, right associativity).

(** [xs.map(f)] and [xs.reduce(f, acc)] with a callback that may fail. *)
Fixpoint mapM {A B : Type} (f : A -> outcome B) (xs : list A)
  : outcome (list B) :=
  match xs with
  | [] => Returned []
  | x :: xs' => y <- f x ;; ys <- mapM f xs' ;; Returned (y :: ys)
  end.

Fixpoint foldM {A B : Type} (f : B -> A -> outcome B) (xs : list A) (acc : B)
  : outcome B :=
  match xs with
  | [] => Returned acc
  | x :: xs' => acc' <- f acc x ;; foldM f xs' acc'
  end.

(** [v.k] where [v] may be [undefined] or [null]: reading a property of
    either throws. *)
Definition get_prop (v : option json) (k : string) : outcome (option json) :=
  match v with
  | None | Some JNull => Thrown TypeError
  | Some x => Returned (js_get x k)
  end.

(** [Object.keys(v)]. *)
Definition Object_keys (v : option json) : outcome (list string) :=
  match v with
  | None | Some JNull => Thrown TypeError
  | Some x => Returned (map fst (own_props (Some x)))
  end.

(** ** [JSON.stringify] *)

Definition dquote : ascii := "034"%char.
Definition backslash : ascii := "092"%char.

Definition hex_digit (n : N) : ascii :=
  if (n <? 10)%N then ascii_of_N (48 + n) else ascii_of_N (87 + n).

(** One code unit inside a quoted text: the quote, the backslash and the
    control characters are escaped, nothing else is. *)
Definition escape_char (c : ascii) : string :=
  let n := code c in
  if (n =? 34)%N then String backslash (str1 dquote)
  else if (n =? 92)%N then String backslash (str1 backslash)
  else if (n =? 8)%N then String backslash "b"
  else if (n =? 9)%N then String backslash "t"
  else if (n =? 10)%N then String backslash "n"
  else if (n =? 12)%N then String backslash "f"
  else if (n =? 13)%N then String backslash "r"
  else if (n <? 32)%N
       then String backslash
              ("u00" ++ String (hex_digit (n / 16)) (str1 (hex_digit (n mod 16))))
       else str1 c.

Fixpoint escape (s : string) : string :=
  match s with
  | EmptyString => EmptyString
  | String c t => escape_char c ++ escape t
  end.

Definition quote (s : string) : string :=
  String dquote (escape s ++ str1 dquote).

Definition member_text (text : json -> string) (kv : string * json) : string :=
  quote (fst kv) ++ ":" ++ text (snd kv).

Fixpoint JSON_stringify (v : json) : string :=
  match v with
  | JNull => "null"
  | JBool true => "true"
  | JBool false => "false"
  | JNum n => string_of_Z n
  | JStr s => quote s
  | JArr xs => "[" ++ String.concat "," (map JSON_stringify xs) ++ "]"
  | JObj ms =>
      "{" ++ String.concat "," (map (member_text JSON_stringify) ms) ++ "}"
  end.

(** [JSON.stringify(v)] where [v] may be [undefined]: the result is then
    [undefined] too. *)
Definition stringify_opt (v : option json) : option string :=
  option_map JSON_stringify v.

(** ** [JSON.parse]

    A machine that reads the text one code unit at a time, with the stack of
    the arrays and objects it is inside.  A repeated key keeps its first
    place and takes its last value, as [obj_set] does.  A number with a
    fraction or an exponent, an integer outside the safe range and an escape
    above code unit 255 have no [json] value: the text is then
    [Unmodelled]. *)

Inductive frame : Type :=
| FArr (done : list json)
| FObj (done : obj) (key : string).

Inductive sctx : Type :=
| SKey (done : obj)
| SVal.

Inductive pmode : Type :=
| MValue
| MArrNext (done : list json)
| MObjKey (done : obj)
| MColon (done : obj) (key : string)
| MObjNext (done : obj)
| MString (ctx : sctx) (acc : list ascii)
| MEscape (ctx : sctx) (acc : list ascii)
| MHex (ctx : sctx) (acc : list ascii) (k : nat) (n : N)
| MMinus
| MZero
| MInt (neg : bool) (n : N)
| MWord (rest : string) (v : json)
| MDone (v : json).

Inductive pstate : Type :=
| PS (stack : list frame) (m : pmode)
| Rejected
| Unsupported.

Definition is_ws (c : ascii) : bool :=
  let n := code c in ((n =? 32) || (n =? 9) || (n =? 10) || (n =? 13))%N.

Definition is_char (c : ascii) (n : N) : bool := (code c =? n)%N.

(** A finished value goes to the array or object that waits for it. *)
Definition deliver (v : json) (st : list frame) : pstate :=
  match st with
  | [] => PS [] (MDone v)
  | FArr done :: st' => PS st' (MArrNext (v :: done))
  | FObj done k :: st' => PS st' (MObjNext (obj_set done k v))
  end.

Definition max_safe : N := 9007199254740991.

Definition number_value (neg : bool) (n : N) : Z :=
  if neg then (- Z.of_N n)%Z else Z.of_N n.

(** A number ends at the first code unit that cannot continue it. *)
Definition settle (s : pstate) : pstate :=
  match s with
  | PS st MZero => deliver (JNum 0) st
  | PS st (MInt neg n) =>
      if (n <=? max_safe)%N then deliver (JNum (number_value neg n)) st
      else Unsupported
  | _ => s
  end.

Definition step_after (s : pstate) (c : ascii) : pstate :=
  match s with
  | PS st (MArrNext done) =>
      if is_ws c then s
      else if is_char c 44 then PS (FArr done :: st) MValue
      else if is_char c 93 then deliver (JArr (rev done)) st
      else Rejected
  | PS st (MObjNext done) =>
      if is_ws c then s
      else if is_char c 44 then PS st (MObjKey done)
      else if is_char c 125 then deliver (JObj done) st
      else Rejected
  | PS st (MDone v) => if is_ws c then s else Rejected
  | PS _ _ => Rejected
  | Rejected => Rejected
  | Unsupported => Unsupported
  end.

Definition hex_val (c : ascii) : option N :=
  let n := code c in
  if ((48 <=? n) && (n <=? 57))%N then Some (n - 48)%N
  else if ((97 <=? n) && (n <=? 102))%N then Some (n - 87)%N
  else if ((65 <=? n) && (n <=? 70))%N then Some (n - 55)%N
  else None.

Definition end_string (ctx : sctx) (acc : list ascii) (st : list frame)
  : pstate :=
  match ctx with
  | SKey done => PS st (MColon done (string_of_rev acc))
  | SVal => deliver (JStr (string_of_rev acc)) st
  end.

Definition step_value (st : list frame) (c : ascii) : pstate :=
  if is_ws c then PS st MValue
  else if is_char c 34 then PS st (MString SVal [])
  else if is_char c 91 then PS (FArr [] :: st) MValue
  else if is_char c 123 then PS st (MObjKey [])
  else if is_char c 45 then PS st MMinus
  else if is_char c 48 then PS st MZero
  else if is_digit c then PS st (MInt false (digit_val c))
  else if is_char c 116 then PS st (MWord "rue" (JBool true))
  else if is_char c 102 then PS st (MWord "alse" (JBool false))
  else if is_char c 110 then PS st (MWord "ull" JNull)
  else if is_char c 93
       then match st with
            | FArr [] :: st' => deliver (JArr []) st'
            | _ => Rejected
            end
       else Rejected.

Definition step_escape (ctx : sctx) (acc : list ascii) (st : list frame)
  (c : ascii) : pstate :=
  let n := code c in
  if ((n =? 34) || (n =? 92) || (n =? 47))%N then PS st (MString ctx (c :: acc))
  else if (n =? 98)%N then PS st (MString ctx (ascii_of_N 8 :: acc))
  else if (n =? 102)%N then PS st (MString ctx (ascii_of_N 12 :: acc))
  else if (n =? 110)%N then PS st (MString ctx (ascii_of_N 10 :: acc))
  else if (n =? 114)%N then PS st (MString ctx (ascii_of_N 13 :: acc))
  else if (n =? 116)%N then PS st (MString ctx (ascii_of_N 9 :: acc))
  else if (n =? 117)%N then PS st (MHex ctx acc 0 0)
  else Rejected.

Definition is_frac_or_exp (c : ascii) : bool :=
  is_char c 46 || is_char c 101 || is_char c 69.

Definition step (s : pstate) (c : ascii) : pstate :=
  match s with
  | PS st MValue => step_value st c
  | PS st (MObjKey done) =>
      if is_ws c then s
      else if is_char c 34 then PS st (MString (SKey done) [])
      else if is_char c 125
           then match done with
                | [] => deliver (JObj []) st
                | _ => Rejected
                end
           else Rejected
  | PS st (MColon done k) =>
      if is_ws c then s
      else if is_char c 58 then PS (FObj done k :: st) MValue
      else Rejected
  | PS st (MString ctx acc) =>
      if is_char c 34 then end_string ctx acc st
      else if is_char c 92 then PS st (MEscape ctx acc)
      else if (code c <? 32)%N then Rejected
      else PS st (MString ctx (c :: acc))
  | PS st (MEscape ctx acc) => step_escape ctx acc st c
  | PS st (MHex ctx acc k n) =>
      match hex_val c with
      | Some h =>
          let n' := (16 * n + h)%N in
          match k with
          | 3%nat =>
              if (n' <? 256)%N then PS st (MString ctx (ascii_of_N n' :: acc))
              else Unsupported
          | _ => PS st (MHex ctx acc (S k) n')
          end
      | None => Rejected
      end
  | PS st MMinus =>
      if is_char c 48 then PS st MZero
      else if is_digit c then PS st (MInt true (digit_val c))
      else Rejected
  | PS st MZero =>
      if is_digit c then Rejected
      else if is_frac_or_exp c then Unsupported
      else step_after (settle s) c
  | PS st (MInt neg n) =>
      if is_digit c then PS st (MInt neg (10 * n + digit_val c))
      else if is_frac_or_exp c then Unsupported
      else step_after (settle s) c
  | PS st (MWord rest v) =>
      match rest with
      | String r rest' =>
          if Ascii.eqb c r
          then match rest' with
               | EmptyString => deliver v st
               | _ => PS st (MWord rest' v)
               end
          else Rejected
      | EmptyString => Rejected
      end
  | _ => step_after s c
  end.

Fixpoint run (s : pstate) (t : string) : pstate :=
  match t with
  | EmptyString => s
  | String c t' => run (step s c) t'
  end.

Definition finish (s : pstate) : outcome json :=
  match settle s with
  | PS [] (MDone v) => Returned v
  | Unsupported => Unmodelled
  | _ => Thrown SyntaxError
  end.

Definition JSON_parse (t : string) : outcome json :=
  finish (run (PS [] MValue) t).

(** [JSON.parse(t)] where [t] may be [undefined], which is read as the text
    [undefined]. *)
Definition parse_opt (t : option string) : outcome json :=
  JSON_parse (match t with Some s => s | None => "undefined" end).

(** ** [String.prototype.replaceAll] with a text pattern *)

(** [strip_prefix p s] is what follows [p] at the front of [s]. *)
Fixpoint strip_prefix (p s : string) : option string :=
  match p with
  | EmptyString => Some s
  | String a p' =>
      match s with
      | String b s' => if Ascii.eqb a b then strip_prefix p' s' else None
      | EmptyString => None
      end
  end.

(** The replacement text is a template: [$$] stands for a dollar, [$&] for
    the matched text, [$`] for the text before the match and [$'] for the
    text after it.  A text pattern has no groups, so any other dollar
    stands for itself. *)
Fixpoint GetSubstitution (matched before after template : string) : string :=
  match template with
  | EmptyString => EmptyString
  | String c t =>
      if is_char c 36
      then match t with
           | String d t' =>
               if is_char d 36
               then String d (GetSubstitution matched before after t')
               else if is_char d 38
               then matched ++ GetSubstitution matched before after t'
               else if is_char d 96
               then before ++ GetSubstitution matched before after t'
               else if is_char d 39
               then after ++ GetSubstitution matched before after t'
               else String c (GetSubstitution matched before after t)
           | EmptyString => str1 c
           end
      else String c (GetSubstitution matched before after t)
  end.

(** The scan goes left to right; [before] holds the code units already
    passed, latest first, and [skip] counts the ones of the current match
    still to pass.  An empty pattern matches before every code unit and at
    the end. *)
Fixpoint replaceAll_from (pat repl : string) (before : list ascii)
  (skip : nat) (s : string) : string :=
  match s with
  | EmptyString =>
      match skip, pat with
      | O, EmptyString =>
          GetSubstitution pat (string_of_rev before) EmptyString repl
      | _, _ => EmptyString
      end
  | String c t =>
      match skip with
      | S k => replaceAll_from pat repl (c :: before) k t
      | O =>
          match strip_prefix pat s with
          | Some after =>
              GetSubstitution pat (string_of_rev before) after repl ++
              match pat with
              | EmptyString =>
                  String c (replaceAll_from pat repl (c :: before) 0 t)
              | String _ pat' =>
                  replaceAll_from pat repl (c :: before) (String.length pat') t
              end
          | None => String c (replaceAll_from pat repl (c :: before) 0 t)
          end
      end
  end.

Definition replaceAll (s pat repl : string) : string :=
  replaceAll_from pat repl [] 0 s.

(** ** [getRefsInsideSpec] *)

(** The regular expression, read left to right: the quoted key [$ref], a
    colon, at most one space, a quote, one or more code units that are not
    a quote, a quote; flags [g] and [i].  With the [i] flag a letter
    matches in either case. *)
Fixpoint match_ci (p s : string) : option string :=
  match p with
  | EmptyString => Some s
  | String a p' =>
      match s with
      | String b s' =>
          if Ascii.eqb (upper_char a) (upper_char b) then match_ci p' s'
          else None
      | EmptyString => None
      end
  end.

(** The number of code units of the body and its closing quote at the front
    of [s], if they match there; [n] counts the code units of the body
    already read. *)
Fixpoint match_body (n : nat) (s : string) : option nat :=
  match s with
  | EmptyString => None
  | String c t =>
      if is_char c 34
      then match n with O => None | S _ => Some (S n) end
      else match_body (S n) t
  end.

(** The opening quote, then the body. *)
Definition match_value (s : string) : option nat :=
  match s with
  | String c t => if is_char c 34 then option_map S (match_body 0 t) else None
  | EmptyString => None
  end.

Definition ref_key : string := quote "$ref" ++ ":".

(** The length of the match that starts at the front of [s], if there is
    one.  The optional space is tried first. *)
Definition match_ref (s : string) : option nat :=
  match match_ci ref_key s with
  | Some r =>
      let with_space :=
        match r with
        | String c r' =>
            if is_char c 32
            then option_map (fun n => (String.length ref_key + 1 + n)%nat)
                   (match_value r')
            else None
        | EmptyString => None
        end in
      match with_space with
      | Some n => Some n
      | None =>
          option_map (fun n => (String.length ref_key + n)%nat) (match_value r)
      end
  | None => None
  end.

(** The [exec] loop: every match, leftmost first, the search resuming where
    the last match ended. *)
Fixpoint scan_refs (skip : nat) (s : string) : list string :=
  match s with
  | EmptyString => []
  | String c t =>
      match skip with
      | S k => scan_refs k t
      | O =>
          match match_ref s with
          | Some n => substring 0 n s :: scan_refs (Nat.pred n) t
          | None => scan_refs 0 t
          end
      end
  end.

Definition getRefsInsideSpec (specsStr : string) : list string :=
  scan_refs 0 specsStr.

(** ** [resolveInternalReferences] *)

(** The searched text: the quoted key [$ref], a colon and the quoted pointer
    [${rootPath}/${componentKey}]. *)
Definition ref_pattern (componentGroupKey componentKey : string) : string :=
  let rootPath := "#/components/" ++ componentGroupKey in
  ref_key ++ str1 dquote ++ rootPath ++ "/" ++ componentKey ++ str1 dquote.

(** The body of the inner [forEach]: one component is injected at every
    place its pointer is written. *)
Definition resolve_component (componentGroupKey : string) (specs : json)
  (componentKey : string) : outcome json :=
  components <- get_prop (Some specs) "components" ;;
  group <- get_prop components componentGroupKey ;;
  component <- get_prop group componentKey ;;
  match stringify_opt component with
  | None => Thrown TypeError
  | Some text =>
      let componentStr := slice_0_m1 (substr1 text) in
      JSON_parse
        (replaceAll (JSON_stringify specs)
           (ref_pattern componentGroupKey componentKey) componentStr)
  end.

(** The body of the outer [forEach]. *)
Definition resolve_group (specs : json) (componentGroupKey : string)
  : outcome json :=
  components <- get_prop (Some specs) "components" ;;
  group <- get_prop components componentGroupKey ;;
  componentKeyArray <- Object_keys group ;;
  match componentKeyArray with
  | [] => Returned specs
  | _ => foldM (resolve_component componentGroupKey) componentKeyArray specs
  end.

Definition resolveInternalReferences (openApiSpec : json) : outcome json :=
  specs <- parse_opt (stringify_opt (Some openApiSpec)) ;;
  components <- get_prop (Some specs) "components" ;;
  groups <- Object_keys components ;;
  specs <- foldM resolve_group groups specs ;;
  match getRefsInsideSpec (JSON_stringify specs) with
  | [] => Returned specs
  | remainingRefsList => Exited (OrphanRefs remainingRefsList)
  end.

(** The text [console.error] prints for a diagnostic. *)
Definition nl : string := str1 (ascii_of_N 10).

Definition message (d : diagnostic) : string :=
  match d with
  | OrphanRefs refs =>
      "Unresolved references remained in the specs (orphan refs)." ++ nl ++
      " Orphan refs found:" ++ nl ++
      String.concat nl (map (fun str => "  => " ++ str) refs)
  | AbsentHandler operationId =>
      "!!! The handler " ++ operationId ++
      " is absent. Implement the handler before trying to start the service"
  end.

(** ** Paths, names and parameters *)

Definition transformPath (path : string) : string :=
  replaceAll (replaceAll path "}" EmptyString) "{" ":".

(** [str.charAt(0).toLowerCase() + str.slice(1)]; a value that is not a
    string has no [charAt]. *)
Definition createCamelCaseFromStr (str : option json) : outcome string :=
  match str with
  | Some (JStr s) =>
      Returned match s with
               | EmptyString => EmptyString
               | String c t => String (lower_char c) t
               end
  | _ => Thrown TypeError
  end.

Definition parseParameterKey (paramKey : option json) : option json :=
  match paramKey with
  | Some (JStr s) =>
      if s =? "path" then Some (JStr "params")
      else if s =? "query" then Some (JStr "querystring")
      else paramKey
  | _ => paramKey
  end.

Definition wrapEmptyObjects (properties : option json) : json :=
  JObj [("type", JStr "object"); ("properties", JObj (own_props properties))].

(** The callback of [reduce] in [parseParameters]. *)
Definition add_parameter (acc : obj) (param : json) : outcome obj :=
  location <- get_prop (Some param) "in" ;;
  let key := property_key (parseParameterKey location) in
  name <- get_prop (Some param) "name" ;;
  schema <- get_prop (Some param) "schema" ;;
  let paramTransformed := [(property_key name, JObj (own_props schema))] in
  let acc := if truthy (obj_get acc key) then acc else obj_set acc key (JObj []) in
  Returned
    (obj_set acc key
       (JObj (obj_merge (own_props (obj_get acc key)) paramTransformed))).

Definition parseParameters (parameterArray : option json) : outcome obj :=
  if negb (truthy parameterArray) then Returned []
  else match parameterArray with
       | Some (JArr params) =>
           outputParameters <- foldM add_parameter params [] ;;
           Returned
             (map (fun kv => (fst kv, wrapEmptyObjects (Some (snd kv))))
                outputParameters)
       | _ => Thrown TypeError
       end.

(** ** Read-only and write-only properties *)

(** [xs.filter(f)] with a callback that may throw. *)
Fixpoint filterM {A : Type} (f : A -> outcome bool) (xs : list A)
  : outcome (list A) :=
  match xs with
  | [] => Returned []
  | x :: xs' =>
      keep <- f x ;;
      rest <- filterM f xs' ;;
      Returned (if keep then x :: rest else rest)
  end.

(** [v === s] for a text [s]. *)
Definition is_text (v : option json) (s : string) : bool :=
  match v with
  | Some (JStr t) => t =? s
  | _ => false
  end.

(** [names.includes(v)] for a list of texts. *)
Definition includes (names : list string) (v : json) : bool :=
  match v with
  | JStr s => existsb (String.eqb s) names
  | _ => false
  end.

(** [required.filter(...)]: only an array has a [filter] method. *)
Definition filter_required (required : option json) (kept : list string)
  : outcome json :=
  match required with
  | Some (JArr names) => Returned (JArr (filter (includes kept) names))
  | _ => Thrown TypeError
  end.

(** The properties and the required list the filters work on: those of
    [schema.items] when the schema is an array, those of the schema
    otherwise. *)
Definition filter_target (schema : option json)
  : outcome (option json * option json) :=
  schemaProperties <- get_prop schema "properties" ;;
  filteredRequiredProperties <- get_prop schema "required" ;;
  type <- get_prop schema "type" ;;
  if is_text type "array"
  then items <- get_prop schema "items" ;;
       itemsProperties <- get_prop items "properties" ;;
       itemsRequired <- get_prop items "required" ;;
       Returned (itemsProperties, itemsRequired)
  else Returned (schemaProperties, filteredRequiredProperties).

(** [Object.keys(JSON.parse(JSON.stringify(schemaProperties))).filter(...)]:
    the names of the properties whose [flag] is not truthy. *)
Definition unflagged_keys (flag : string) (schemaProperties : option json)
  : outcome (list string) :=
  copy <- parse_opt (stringify_opt schemaProperties) ;;
  keys <- Object_keys (Some copy) ;;
  filterM (fun propertyKey =>
             property <- get_prop schemaProperties propertyKey ;;
             flagged <- get_prop property flag ;;
             Returned (negb (truthy flagged)))
          keys.

(** The [reduce] that builds the object of the kept properties.  A property
    that holds [undefined] has no [json] value. *)
Definition pick_properties (schemaProperties : option json)
  (filteredPropertiesArray : list string) : outcome obj :=
  foldM (fun acc propertyKey =>
           property <- get_prop schemaProperties propertyKey ;;
           match property with
           | Some v => Returned (obj_set acc propertyKey v)
           | None => Unmodelled
           end)
        filteredPropertiesArray [].

(** [schema.items.k = v]: [schema.items] is the object the caller's schema
    holds too, so the assignment also shows there; [{...schema}] copies one
    level only. *)
Definition set_in_items (filteredSchema : obj) (k : string) (v : json)
  : outcome obj :=
  match obj_get filteredSchema "items" with
  | Some (JObj items) =>
      Returned (obj_set filteredSchema "items" (JObj (obj_set items k v)))
  | Some (JArr _) => Unmodelled
  | _ => Thrown TypeError
  end.

Definition filterReadOnlyProperties (schema : option json) : outcome json :=
  schemaKeys <- Object_keys schema ;;
  if (List.length schemaKeys =? 0)%nat then Returned (JObj [])
  else
    target <- filter_target schema ;;
    let schemaProperties := fst target in
    filteredPropertiesArray <- unflagged_keys "readOnly" schemaProperties ;;
    filteredProperties <- pick_properties schemaProperties filteredPropertiesArray ;;
    filteredRequiredProperties <- filter_required (snd target) filteredPropertiesArray ;;
    let filteredSchema := own_props schema in
    type <- get_prop schema "type" ;;
    if is_text type "array"
    then filteredSchema <- set_in_items filteredSchema "properties" (JObj filteredProperties) ;;
         filteredSchema <- set_in_items filteredSchema "required" filteredRequiredProperties ;;
         Returned (JObj filteredSchema)
    else Returned
           (JObj (obj_set (obj_set filteredSchema "properties" (JObj filteredProperties))
                    "required" filteredRequiredProperties)).

Definition filterWriteOnlyProperties (schema : option json) : outcome json :=
  schemaKeys <- Object_keys schema ;;
  if (List.length schemaKeys =? 0)%nat then Returned (JObj [])
  else
    target <- filter_target schema ;;
    let schemaProperties := fst target in
    filteredPropertiesArray <- unflagged_keys "writeOnly" schemaProperties ;;
    filteredProperties <- pick_properties schemaProperties filteredPropertiesArray ;;
    filteredRequiredProperties <-
      (if truthy (snd target)
       then r <- filter_required (snd target) filteredPropertiesArray ;; Returned (Some r)
       else Returned (snd target)) ;;
    let filteredSchema := own_props schema in
    type <- get_prop schema "type" ;;
    if is_text type "array"
    then filteredSchema <- set_in_items filteredSchema "properties" (JObj filteredProperties) ;;
         if truthy filteredRequiredProperties
         then match filteredRequiredProperties with
              | Some r => filteredSchema <- set_in_items filteredSchema "required" r ;;
                          Returned (JObj filteredSchema)
              | None => Returned (JObj filteredSchema)
              end
         else Returned (JObj filteredSchema)
    else
      let filteredSchema := obj_set filteredSchema "properties" (JObj filteredProperties) in
      if truthy filteredRequiredProperties
      then match filteredRequiredProperties with
           | Some r => Returned (JObj (obj_set filteredSchema "required" r))
           | None => Returned (JObj filteredSchema)
           end
      else Returned (JObj filteredSchema).

(** ** Request bodies and responses *)

(** [v?.k], and [v && v[k]] read as a condition: the property when [v] is
    truthy, nothing otherwise (a falsy value has no property of these
    names). *)
Definition get_if_truthy (v : option json) (k : string) : option json :=
  match v with
  | Some x => if truthy v then js_get x k else None
  | None => None
  end.

Definition parseRequestBody (requestBody : option json) : outcome obj :=
  let content := get_if_truthy requestBody "content" in
  let json_content := get_if_truthy content "application/json" in
  if truthy json_content
  then schema <- get_prop json_content "schema" ;;
       body <- filterReadOnlyProperties schema ;;
       Returned [("body", body)]
  else Returned [].

(** The callback of [reduce] in [parseResponses]. *)
Definition add_response (responseSpecList : option json) (acc : obj)
  (responseCode : string) : outcome obj :=
  typesOfResponse <- get_prop responseSpecList responseCode ;;
  content <- get_prop typesOfResponse "content" ;;
  let json_content := get_if_truthy content "application/json" in
  if truthy json_content
  then schema <- get_prop json_content "schema" ;;
       let responseSchema := if truthy schema then schema else Some (JObj []) in
       filtered <- filterWriteOnlyProperties responseSchema ;;
       Returned (obj_set acc responseCode filtered)
  else Returned acc.

Definition parseResponses (responseSpecList : option json) : outcome obj :=
  codes <- Object_keys responseSpecList ;;
  reponseSchema <- foldM (add_response responseSpecList) codes [] ;;
  Returned match reponseSchema with
           | [] => []
           | _ => [("response", JObj reponseSchema)]
           end.

(** ** Methods and routes *)

(** What [handlers[operationId]] holds: nothing, a function, or a value
    that is not a function. *)
Inductive hvalue : Type :=
| HUndefined
| HFunction (f : nat)
| HOther.

Definition registry : Type := string -> hvalue.

(** What [parseMethods] builds for one method, and the route
    [routesFromOpenApiSpecs] makes of it. *)
Record protoRoute : Type := ProtoRoute {
  method : string;
  schema : obj;
  handler : nat
}.

Record route : Type := Route {
  routeSpec : protoRoute;
  url : string
}.

Definition methodsArray : list string :=
  ["get"; "put"; "post"; "delete"; "options"; "head"; "patch"; "trace"].

(** [v || []]. *)
Definition or_empty_array (v : option json) : json :=
  match v with
  | Some x => if truthy v then x else JArr []
  | None => JArr []
  end.

(** [localParameters.concat(globalParameters)]: an array takes the elements
    of an array and any other value as one element; a text appends the
    argument as text; nothing else has a [concat] method. *)
Definition concat (localParameters globalParameters : json)
  : outcome (option json) :=
  match localParameters with
  | JArr xs =>
      Returned (Some (JArr (xs ++ match globalParameters with
                                  | JArr ys => ys
                                  | y => [y]
                                  end)%list))
  | JStr s => Returned (Some (JStr (s ++ to_string globalParameters)))
  | _ => Thrown TypeError
  end.

(** The callback of [map] in [parseMethods]. *)
Definition parse_method (openAPIMethodSpecList : option json)
  (handlers : registry) (globalParameters : json) (method : string)
  : outcome protoRoute :=
  operation <- get_prop openAPIMethodSpecList method ;;
  id <- get_prop operation "operationId" ;;
  operationId <- createCamelCaseFromStr id ;;
  match handlers operationId with
  | HFunction f =>
      parameters <- get_prop operation "parameters" ;;
      let localParameters := or_empty_array parameters in
      allParameters <- concat localParameters globalParameters ;;
      finalParams <- parseParameters allParameters ;;
      allParameters <- concat localParameters globalParameters ;;
      params <- parseParameters allParameters ;;
      requestBody <- get_prop operation "requestBody" ;;
      body <- parseRequestBody requestBody ;;
      responses <- get_prop operation "responses" ;;
      response <- parseResponses responses ;;
      Returned {| method := toUpperCase method;
                  schema := obj_merge (obj_merge params body) response;
                  handler := f |}
  | _ => Exited (AbsentHandler operationId)
  end.

Definition parseMethods (openAPIMethodSpecList : option json)
  (handlers : registry) : outcome (list protoRoute) :=
  parameters <- get_prop openAPIMethodSpecList "parameters" ;;
  let globalParameters := or_empty_array parameters in
  keys <- Object_keys openAPIMethodSpecList ;;
  mapM (parse_method openAPIMethodSpecList handlers globalParameters)
    (filter (fun method => existsb (String.eqb method) methodsArray) keys).

(** The body of [forEach] in [routesFromOpenApiSpecs]: the routes of one
    path, each with the transformed path. *)
Definition routes_of_path (specs : json) (handlers : registry) (path : string)
  : outcome (list route) :=
  let url := transformPath path in
  paths <- get_prop (Some specs) "paths" ;;
  pathItem <- get_prop paths path ;;
  routeSpecs <- parseMethods pathItem handlers ;;
  Returned (map (fun routeSpec => {| routeSpec := routeSpec; url := url |})
              routeSpecs).

(** [openAPiRawSpecs.components = openAPiRawSpecs.components || {}]. *)
Definition default_components (openAPiRawSpecs : obj) : obj :=
  let components := obj_get openAPiRawSpecs "components" in
  obj_set openAPiRawSpecs "components"
    (match components with
     | Some c => if truthy components then c else JObj []
     | None => JObj []
     end).

(** The value the call returns, worked out on the document as the caller
    holds it at the call; what the call writes is in [Store]. *)
Definition routesFromOpenApiSpecs (openAPiRawSpecs : obj) (handlers : registry)
  : outcome (list route) :=
  let openAPiRawSpecs := default_components openAPiRawSpecs in
  specs <- resolveInternalReferences (JObj openAPiRawSpecs) ;;
  paths <- get_prop (Some specs) "paths" ;;
  pathKeys <- Object_keys paths ;;
  routes <- mapM (routes_of_path specs handlers) pathKeys ;;
  Returned (List.concat routes).

(** ** The store

    The objects and arrays a caller holds are cells of a store, and a
    property holds a primitive or the address of a cell, so that two
    properties may hold one object.  [Store] has the functions of the
    source that write to objects they did not create, or call such a
    function, with the store passed along; what a function works out
    without writing it works out as above, on the document it reads from
    the store at that time. *)

Module Store.

Definition loc : Type := nat.

Inductive value : Type :=
| VNull
| VBool (b : bool)
| VNum (n : Z)
| VStr (s : string)
| VRef (l : loc).

(** An array with its elements, or an object with its own properties in
    [Object.keys] order. *)
Inductive cell : Type :=
| CArr (xs : list value)
| CObj (ms : list (string * value)).

(** The cell of address [l] is the one at place [l]. *)
Definition store : Type := list cell.

Definition primitive (t : json) : value :=
  match t with
  | JBool b => VBool b
  | JNum n => VNum n
  | JStr s => VStr s
  | _ => VNull
  end.

Fixpoint all {A : Type} (l : list (option A)) : option (list A) :=
  match l with
  | [] => Some []
  | Some x :: l' => option_map (cons x) (all l')
  | None :: _ => None
  end.

(** The document [JSON.stringify] walks from [v], to the depth [fuel]. *)
Fixpoint tree_of (fuel : nat) (h : store) (v : value) : option json :=
  match v with
  | VNull => Some JNull
  | VBool b => Some (JBool b)
  | VNum n => Some (JNum n)
  | VStr s => Some (JStr s)
  | VRef l =>
      match fuel with
      | O => None
      | S fuel' =>
          match nth_error h l with
          | Some (CArr xs) => option_map JArr (all (map (tree_of fuel' h) xs))
          | Some (CObj ms) =>
              option_map JObj
                (all (map (fun kv => option_map (pair (fst kv))
                                       (tree_of fuel' h (snd kv))) ms))
          | None => None
          end
      end
  end.

(** On a structure without a cycle no path of the walk goes through a cell
    twice, so the walk is no deeper than the number of the cells; [None] is
    a cyclic structure, which [JSON.stringify] refuses. *)
Definition read (h : store) (v : value) : option json :=
  tree_of (S (List.length h)) h v.

(** The objects [JSON.parse] creates for a document: new cells, the ones
    of the parts before the one of the whole. *)
Fixpoint thread {A B : Type} (f : A -> store -> B * store) (l : list A)
  (h : store) : list B * store :=
  match l with
  | [] => ([], h)
  | x :: l' =>
      let '(y, h1) := f x h in
      let '(ys, h2) := thread f l' h1 in
      (y :: ys, h2)
  end.

Fixpoint alloc_tree (t : json) (h : store) : value * store :=
  match t with
  | JNull => (VNull, h)
  | JBool b => (VBool b, h)
  | JNum n => (VNum n, h)
  | JStr s => (VStr s, h)
  | JArr xs =>
      let '(vs, h') := thread alloc_tree xs h in
      (VRef (List.length h'), (h' ++ [CArr vs])%list)
  | JObj ms =>
      let '(vs, h') :=
        thread (fun kv h => let '(v, h1) := alloc_tree (snd kv) h in
                            ((fst kv, v), h1)) ms h in
      (VRef (List.length h'), (h' ++ [CObj vs])%list)
  end.

(** The cell at [l] replaced. *)
Fixpoint update (h : store) (l : loc) (c : cell) : store :=
  match h, l with
  | [], _ => []
  | _ :: h', O => c :: h'
  | c0 :: h', S l' => c0 :: update h' l' c
  end.

(** Own properties, as [obj_get] and [obj_set] have them. *)
Fixpoint members_get (ms : list (string * value)) (k : string) : option value :=
  match ms with
  | [] => None
  | (k', v) :: ms' => if k' =? k then Some v else members_get ms' k
  end.

Fixpoint members_replace (ms : list (string * value)) (k : string) (v : value)
  : list (string * value) :=
  match ms with
  | [] => []
  | (k', v') :: ms' =>
      if k' =? k then (k', v) :: ms' else (k', v') :: members_replace ms' k v
  end.

Fixpoint members_insert_index (n : N) (k : string) (v : value)
  (ms : list (string * value)) : list (string * value) :=
  match ms with
  | [] => [(k, v)]
  | (k', v') :: ms' =>
      match array_index k' with
      | Some n' =>
          if (n' <? n)%N then (k', v') :: members_insert_index n k v ms'
          else (k, v) :: ms
      | None => (k, v) :: ms
      end
  end.

Definition members_set (ms : list (string * value)) (k : string) (v : value)
  : list (string * value) :=
  match members_get ms k with
  | Some _ => members_replace ms k v
  | None =>
      match array_index k with
      | Some n => members_insert_index n k v ms
      | None => (ms ++ [(k, v)])%list
      end
  end.

(** [v[k]] on a value that is neither [null] nor [undefined]. *)
Definition get (h : store) (v : value) (k : string) : option value :=
  match v with
  | VRef l =>
      match nth_error h l with
      | Some (CObj ms) => members_get ms k
      | Some (CArr xs) =>
          match array_index k with
          | Some n => nth_error xs (N.to_nat n)
          | None =>
              if k =? "length" then Some (VNum (Z.of_nat (List.length xs)))
              else None
          end
      | None => None
      end
  | VStr s => option_map primitive (js_get (JStr s) k)
  | _ => None
  end.

(** [!!v]: an object or an array is truthy. *)
Definition truthy (v : option value) : bool :=
  match v with
  | None | Some VNull => false
  | Some (VBool b) => b
  | Some (VNum n) => negb (n =? 0)%Z
  | Some (VStr s) => negb (s =? EmptyString)
  | Some (VRef _) => true
  end.

Definition is_text (v : option value) (s : string) : bool :=
  match v with
  | Some (VStr t) => t =? s
  | _ => false
  end.

(** A call with the store: its outcome and the store it leaves, also when
    it throws. *)
Definition M (A : Type) : Type := store -> outcome A * store.

Definition pure {A : Type} (m : outcome A) : M A := fun h => (m, h).

Definition run {A B : Type} (m : M A) (k : A -> M B) : M B :=
  fun h =>
    match m h with
    | (Returned a, h') => k a h'
    | (Thrown e, h') => (Thrown e, h')
    | (Exited d, h') => (Exited d, h')
    | (Unmodelled, h') => (Unmodelled, h')
    end.

Notation "x <~ m ;; k" := (run m (fun x => k))
  (at level 61, m at next level, right associativity).

Fixpoint mapM {A B : Type} (f : A -> M B) (xs : list A) : M (list B) :=
  match xs with
  | [] => pure (Returned [])
  | x :: xs' => y <~ f x ;; ys <~ mapM f xs' ;; pure (Returned (y :: ys))
  end.

Fixpoint foldM {A B : Type} (f : B -> A -> M B) (xs : list A) (acc : B) : M B :=
  match xs with
  | [] => pure (Returned acc)
  | x :: xs' => acc' <~ f acc x ;; foldM f xs' acc'
  end.

(** [v.k] where [v] may be [undefined] or [null]. *)
Definition look (v : option value) (k : string) : M (option value) :=
  fun h =>
    match v with
    | None | Some VNull => (Thrown TypeError, h)
    | Some x => (Returned (get h x k), h)
    end.

(** [v && v[k]] read as a condition, and [v?.k]. *)
Definition look_if_truthy (v : option value) (k : string) : M (option value) :=
  fun h =>
    match v with
    | Some x => (Returned (if truthy v then get h x k else None), h)
    | None => (Returned None, h)
    end.

(** [Object.keys(v)]. *)
Definition Object_keys (v : option value) : M (list string) :=
  fun h =>
    match v with
    | None | Some VNull => (Thrown TypeError, h)
    | Some (VRef l) =>
        (Returned match nth_error h l with
                  | Some (CObj ms) => map fst ms
                  | Some (CArr xs) => index_keys (List.length xs)
                  | None => []
                  end, h)
    | Some (VStr s) => (Returned (index_keys (String.length s)), h)
    | Some _ => (Returned [], h)
    end.

(** The document under [v] as it is in the store now.  A cyclic structure
    is not a document. *)
Definition snapshot (v : option value) : M (option json) :=
  fun h =>
    match v with
    | None => (Returned None, h)
    | Some x =>
        match read h x with
        | Some t => (Returned (Some t), h)
        | None => (Unmodelled, h)
        end
    end.

(** A new object and a new array. *)
Definition new_object (ms : list (string * value)) : M value :=
  fun h => (Returned (VRef (List.length h)), (h ++ [CObj ms])%list).

Definition new_array (xs : list value) : M value :=
  fun h => (Returned (VRef (List.length h)), (h ++ [CArr xs])%list).

(** [JSON.parse] of the text of [t]. *)
Definition parsed (t : json) : M value :=
  fun h => let '(v, h') := alloc_tree t h in (Returned v, h').

(** [target.k = v] in a module, which is strict code: assigning to a
    property of a primitive throws, as on [undefined] and [null]. *)
Definition assign (target : option value) (k : string) (v : value) : M unit :=
  fun h =>
    match target with
    | Some (VRef l) =>
        match nth_error h l with
        | Some (CObj ms) => (Returned tt, update h l (CObj (members_set ms k v)))
        | _ => (Unmodelled, h)
        end
    | _ => (Thrown TypeError, h)
    end.

(** The properties of [source] under the names [names], with the values
    [source] holds: objects are not copied. *)
Definition pick (source : option value) (names : list string)
  : M (list (string * value)) :=
  fun h =>
    (Returned
       (flat_map (fun k =>
                    match source with
                    | Some x =>
                        match get h x k with
                        | Some v => [(k, v)]
                        | None => []
                        end
                    | None => []
                    end) names), h).

(** The names and the elements of what a filter has built. *)
Definition names_of (properties : option json) : list string :=
  map fst (own_props properties).

Definition elements_of (required : option json) : list value :=
  match required with
  | Some (JArr names) => map primitive names
  | _ => []
  end.

(** [filterReadOnlyProperties]: the schema it returns is worked out on the
    schema as it is in the store.  [{...schema}] copies one level, so
    [filteredSchema.items] is the object [schema.items] of the caller: the
    two assignments of an array schema are to that object. *)
Definition filterReadOnlyProperties (schema : option value) : M json :=
  before <~ snapshot schema ;;
  filteredSchema <~ pure (filterReadOnlyProperties before) ;;
  type <~ look schema "type" ;;
  if is_text type "array"
  then items <~ look schema "items" ;;
       schemaProperties <~ look items "properties" ;;
       let filteredItems :=
         match js_get filteredSchema "items" with
         | Some (JObj ms) => ms
         | _ => []
         end in
       kept <~ pick schemaProperties (names_of (obj_get filteredItems "properties")) ;;
       filteredProperties <~ new_object kept ;;
       filteredRequiredProperties <~
         new_array (elements_of (obj_get filteredItems "required")) ;;
       _ <~ assign items "properties" filteredProperties ;;
       _ <~ assign items "required" filteredRequiredProperties ;;
       pure (Returned filteredSchema)
  else pure (Returned filteredSchema).

(** [filterWriteOnlyProperties]: as above, with the list of required names
    filtered and assigned only when there is one. *)
Definition filterWriteOnlyProperties (schema : option value) : M json :=
  before <~ snapshot schema ;;
  filteredSchema <~ pure (filterWriteOnlyProperties before) ;;
  type <~ look schema "type" ;;
  if is_text type "array"
  then items <~ look schema "items" ;;
       schemaProperties <~ look items "properties" ;;
       required <~ look items "required" ;;
       let filteredItems :=
         match js_get filteredSchema "items" with
         | Some (JObj ms) => ms
         | _ => []
         end in
       kept <~ pick schemaProperties (names_of (obj_get filteredItems "properties")) ;;
       filteredProperties <~ new_object kept ;;
       filteredRequiredProperties <~
         (if truthy required
          then filtered <~ new_array (elements_of (obj_get filteredItems "required")) ;;
               pure (Returned (Some filtered))
          else pure (Returned required)) ;;
       _ <~ assign items "properties" filteredProperties ;;
       match filteredRequiredProperties with
       | Some filtered =>
           if truthy filteredRequiredProperties
           then _ <~ assign items "required" filtered ;;
                pure (Returned filteredSchema)
           else pure (Returned filteredSchema)
       | None => pure (Returned filteredSchema)
       end
  else pure (Returned filteredSchema).

Definition parseRequestBody (requestBody : option value) : M obj :=
  content <~ look_if_truthy requestBody "content" ;;
  json_content <~ look_if_truthy content "application/json" ;;
  if truthy json_content
  then schema <~ look json_content "schema" ;;
       body <~ filterReadOnlyProperties schema ;;
       pure (Returned [("body", body)])
  else pure (Returned []).

Definition add_response (responseSpecList : option value) (acc : obj)
  (responseCode : string) : M obj :=
  typesOfResponse <~ look responseSpecList responseCode ;;
  content <~ look typesOfResponse "content" ;;
  json_content <~ look_if_truthy content "application/json" ;;
  if truthy json_content
  then schema <~ look json_content "schema" ;;
       responseSchema <~
         (if truthy schema then pure (Returned schema)
          else empty <~ new_object [] ;; pure (Returned (Some empty))) ;;
       filtered <~ filterWriteOnlyProperties responseSchema ;;
       pure (Returned (obj_set acc responseCode filtered))
  else pure (Returned acc).

Definition parseResponses (responseSpecList : option value) : M obj :=
  codes <~ Object_keys responseSpecList ;;
  reponseSchema <~ foldM (add_response responseSpecList) codes [] ;;
  pure (Returned match reponseSchema with
                 | [] => []
                 | _ => [("response", JObj reponseSchema)]
                 end).

(** The callback of [map] in [parseMethods].  The parameters are read when
    they are parsed. *)
Definition parse_method (openAPIMethodSpecList : option value)
  (handlers : registry) (globalParameters : option value) (method : string)
  : M protoRoute :=
  operation <~ look openAPIMethodSpecList method ;;
  id <~ look operation "operationId" ;;
  id <~ snapshot id ;;
  operationId <~ pure (createCamelCaseFromStr id) ;;
  match handlers operationId with
  | HFunction f =>
      parameters <~ look operation "parameters" ;;
      parameters <~ snapshot parameters ;;
      globalParameters <~ snapshot globalParameters ;;
      let localParameters := or_empty_array parameters in
      let globalParameters := or_empty_array globalParameters in
      allParameters <~ pure (concat localParameters globalParameters) ;;
      finalParams <~ pure (parseParameters allParameters) ;;
      allParameters <~ pure (concat localParameters globalParameters) ;;
      params <~ pure (parseParameters allParameters) ;;
      requestBody <~ look operation "requestBody" ;;
      body <~ parseRequestBody requestBody ;;
      responses <~ look operation "responses" ;;
      response <~ parseResponses responses ;;
      pure (Returned {| method := toUpperCase method;
                        schema := obj_merge (obj_merge params body) response;
                        handler := f |})
  | _ => pure (Exited (AbsentHandler operationId))
  end.

Definition parseMethods (openAPIMethodSpecList : option value)
  (handlers : registry) : M (list protoRoute) :=
  globalParameters <~ look openAPIMethodSpecList "parameters" ;;
  keys <~ Object_keys openAPIMethodSpecList ;;
  mapM (parse_method openAPIMethodSpecList handlers globalParameters)
    (filter (fun method => existsb (String.eqb method) methodsArray) keys).

(** [resolveInternalReferences] reads the document of the caller once, for
    [JSON.stringify]; every document after that comes from [JSON.parse].
    The copies it replaces are out of reach, the last one stays. *)
Definition resolveInternalReferences (openApiSpec : value) : M value :=
  fun h =>
    match read h openApiSpec with
    | Some document =>
        (specs <~ pure (resolveInternalReferences document) ;; parsed specs) h
    | None => (Thrown TypeError, h)
    end.

Definition routes_of_path (specs : value) (handlers : registry) (path : string)
  : M (list route) :=
  let url := transformPath path in
  paths <~ look (Some specs) "paths" ;;
  pathItem <~ look paths path ;;
  routeSpecs <~ parseMethods pathItem handlers ;;
  pure (Returned (map (fun routeSpec => {| routeSpec := routeSpec; url := url |})
                    routeSpecs)).

(** The call, on the document the caller holds at [openAPiRawSpecs]. *)
Definition routesFromOpenApiSpecs (openAPiRawSpecs : value) (handlers : registry)
  : M (list route) :=
  components <~ look (Some openAPiRawSpecs) "components" ;;
  components <~
    match components with
    | Some c => if truthy components then pure (Returned c) else new_object []
    | None => new_object []
    end ;;
  _ <~ assign (Some openAPiRawSpecs) "components" components ;;
  specs <~ resolveInternalReferences openAPiRawSpecs ;;
  paths <~ look (Some specs) "paths" ;;
  pathKeys <~ Object_keys paths ;;
  routes <~ mapM (routes_of_path specs handlers) pathKeys ;;
  pure (Returned (List.concat routes)).

(** The number of the values of a document. *)
Fixpoint json_size (t : json) : nat :=
  match t with
  | JArr xs => S (list_sum (map json_size xs))
  | JObj ms => S (list_sum (map (fun kv => json_size (snd kv)) ms))
  | _ => 1
  end.

(** A property of the store and a member of a document with the same name
    and related values. *)
Definition same_member (R : value -> json -> Prop) (kv : string * value)
  (d : string * json) : Prop :=
  fst d = fst kv /\ R (snd kv) (snd d).

(** A value made by the call: a primitive, or a cell from [n] on. *)
Definition fresh (n : nat) (v : value) : Prop :=
  match v with
  | VRef l => n <= l
  | _ => True
  end.

Definition fresh_opt (n : nat) (v : option value) : Prop :=
  match v with
  | Some x => fresh n x
  | None => True
  end.

Definition fresh_cell (n : nat) (c : cell) : Prop :=
  match c with
  | CArr xs => Forall (fresh n) xs
  | CObj ms => Forall (fun kv => fresh n (snd kv)) ms
  end.

(** The cells from [n] on hold no address below [n]. *)
Definition closed (n : nat) (h : store) : Prop :=
  forall l c, n <= l -> nth_error h l = Some c -> fresh_cell n c.

(** A call that leaves the cells below [n] as they are, keeps the others
    closed, and returns a value that satisfies [Q]. *)
Definition keeps (n : nat) {A : Type} (Q : A -> Prop) (m : M A) : Prop :=
  forall h,
    n <= List.length h -> closed n h ->
    n <= List.length (snd (m h)) /\
    closed n (snd (m h)) /\
    (forall l, l < n -> nth_error (snd (m h)) l = nth_error h l) /\
    (forall a, fst (m h) = Returned a -> Q a).

End Store.

(** A document with an array schema in a request body, the handlers for it,
    and the store of a caller who holds it. *)
Definition listing_doc : obj :=
  [("paths",
    JObj [("/documents",
           JObj [("post",
                  JObj [("operationId", JStr "AddDocuments");
                        ("requestBody",
                         JObj [("content",
                                JObj [("application/json",
                                       JObj [("schema",
                                              JObj [("type", JStr "array");
                                                    ("items",
                                                     JObj [("properties",
                                                            JObj [("id", JObj [("readOnly", JBool true)]);
                                                                  ("name", JObj [])]);
                                                           ("required",
                                                            JArr [JStr "id"; JStr "name"])])])])])]);
                        ("responses", JObj [])])])])].

Definition listing_handlers : registry :=
  fun name => if name =? "addDocuments" then HFunction 1 else HUndefined.

Definition listing_store : Store.store :=
  snd (Store.alloc_tree (JObj listing_doc) []).

Definition listing_root : Store.loc := 13.

(** ** Documents as JavaScript holds them *)

(** What [JSON.parse] makes of the text of a value: properties are created
    one by one, so a repeated key keeps its last value and array indices
    come first. *)
Fixpoint normalize (v : json) : json :=
  match v with
  | JArr xs => JArr (map normalize xs)
  | JObj ms =>
      JObj (fold_left (fun o kv => obj_set o (fst kv) (normalize (snd kv))) ms [])
  | _ => v
  end.

(** [k] may be listed before [k']. *)
Definition key_before (k k' : string) : bool :=
  match array_index k, array_index k' with
  | Some n, Some n' => (n <? n')%N
  | None, Some _ => false
  | _, _ => true
  end.

(** Keys the way [Object.keys] lists them: no key twice, array indices
    first and ascending. *)
Fixpoint keys_canonical (ks : list string) : bool :=
  match ks with
  | [] => true
  | k :: ks' =>
      forallb (key_before k) ks' && negb (existsb (String.eqb k) ks') &&
      keys_canonical ks'
  end.

(** A value a JavaScript program can hold: safe integers, and objects with
    their keys in order. *)
Fixpoint well_formed (v : json) : bool :=
  match v with
  | JNum n => (Z.abs n <=? Z.of_N max_safe)%Z
  | JArr xs => forallb well_formed xs
  | JObj ms =>
      keys_canonical (map fst ms) && forallb (fun kv => well_formed (snd kv)) ms
  | _ => true
  end.

(** Numbers in the safe range, whatever the keys. *)
Fixpoint safe (v : json) : bool :=
  match v with
  | JNum n => (Z.abs n <=? Z.of_N max_safe)%Z
  | JArr xs => forallb safe xs
  | JObj ms => forallb (fun kv => safe (snd kv)) ms
  | _ => true
  end.

(** ** The failures the specification names *)

Inductive spec_error : Type :=
| UnresolvedReferenceError
| CyclicReferenceError
| MissingHandlerError
| MalformedSchemaError.

(** The failure of the specification an outcome stands for: the source
    reports two of them, each with its own text, before it ends the
    process; an exception it throws names none. *)
Definition reported {A : Type} (o : outcome A) : option spec_error :=
  match o with
  | Exited (OrphanRefs _) => Some UnresolvedReferenceError
  | Exited (AbsentHandler _) => Some MissingHandlerError
  | _ => None
  end.

(** [v.k1.k2...]. *)
Fixpoint at_path (v : json) (path : list string) : option json :=
  match path with
  | [] => Some v
  | k :: path' =>
      match js_get v k with
      | Some x => at_path x path'
      | None => None
      end
  end.

(** The object [{$ref: pointer}], and the text the final scan reports for
    it. *)
Definition ref (pointer : string) : json := JObj [("$ref", JStr pointer)].

Definition ref_text (pointer : string) : string := ref_key ++ quote pointer.

(** ** Documents of the examples *)

(** A response component whose description holds two dollars, used once. *)
Definition formula_doc : json :=
  JObj [("paths",
         JObj [("/area",
                JObj [("get",
                       JObj [("operationId", JStr "getArea");
                             ("responses",
                              JObj [("200", ref "#/components/responses/area")])])])]);
        ("components",
         JObj [("responses",
                JObj [("area", JObj [("description", JStr "$$x^2$$")])])])].

(** A response component whose description holds a dollar between two
    backquotes, used once; the same with a reference to a response that is
    not there. *)
Definition backquote : string := str1 (ascii_of_N 96).

Definition prefix_response : json :=
  JObj [("description", JStr ("Use " ++ backquote ++ "$" ++ backquote ++ " as prefix"))].

Definition prefix_doc (responses : obj) : json :=
  JObj [("paths",
         JObj [("/a",
                JObj [("get",
                       JObj [("operationId", JStr "getA");
                             ("responses", JObj responses)])])]);
        ("components", JObj [("responses", JObj [("ok", prefix_response)])])].

Definition prefix_used_doc : json :=
  prefix_doc [("200", ref "#/components/responses/ok")].

Definition prefix_orphan_doc : json :=
  prefix_doc [("200", ref "#/components/responses/ok");
              ("404", ref "#/components/responses/Missing")].

(** A reference whose pointer is the empty text. *)
Definition empty_pointer_doc : json :=
  JObj [("paths", JObj [("/a", JObj [("get", ref EmptyString)])]);
        ("components", JObj [])].

(** A reference to a schema that is not there, and one whose pointer holds
    a quote. *)
Definition missing_doc : json :=
  JObj [("paths", JObj [("/a", JObj [("get", ref "#/components/schemas/Missing")])]);
        ("components", JObj [("schemas", JObj [])])].

Definition quoted_pointer : string := "#/x" ++ str1 dquote ++ "y".

Definition quoted_pointer_doc : json :=
  JObj [("paths", JObj [("/a", JObj [("get", ref quoted_pointer)])]);
        ("components", JObj [])].

(** Two schemas that refer to each other, and one use of the first. *)
Definition cyclic_doc : json :=
  JObj [("paths", JObj [("/a", ref "#/components/schemas/A")]);
        ("components",
         JObj [("schemas",
                JObj [("A", ref "#/components/schemas/B");
                      ("B", ref "#/components/schemas/A")])])].

(** The schema of the specification's filtering example, with and without
    its [required] list. *)
Definition flagged_schema (flag : string) : obj :=
  [("properties",
    JObj [("a", JObj [(flag, JBool true)]); ("b", JObj [])])].

Definition example_schema (flag : string) : json :=
  JObj (flagged_schema flag ++ [("required", JArr [JStr "a"; JStr "b"])])%list.

(** A request body whose JSON content is a text. *)
Definition text_body : json :=
  JObj [("content",
         JObj [("application/json",
                JObj [("schema", JObj [("type", JStr "string")])])])].

(** A non-empty schema without the properties the filters read: its own
    when it is not array-typed, those of its items when it is. *)
Definition lacks_properties (schema : json) : bool :=
  if is_text (js_get schema "type") "array"
  then match js_get schema "items" with
       | None | Some JNull => true
       | Some items =>
           match js_get items "properties" with
           | None => true
           | Some _ => false
           end
       end
  else match js_get schema "properties" with
       | None => true
       | Some _ => false
       end.

(** The exception filtering such a schema ends in: reading a property of a
    missing [items] throws first, parsing the text [undefined] otherwise. *)
Definition filter_failure (schema : json) : js_error :=
  if is_text (js_get schema "type") "array"
  then match js_get schema "items" with
       | None | Some JNull => TypeError
       | Some _ => SyntaxError
       end
  else SyntaxError.

(** ** Parameters by location *)

(** Where a parameter goes, the name it has there and the copy of its
    schema [parseParameters] stores. *)
Definition location_of (param : json) : string :=
  property_key (parseParameterKey (js_get param "in")).

Definition name_of (param : json) : string :=
  property_key (js_get param "name").

Definition schema_copy (param : json) : json :=
  JObj (own_props (js_get param "schema")).

Definition declares (loc name : string) (param : json) : bool :=
  (location_of param =? loc) && (name_of param =? name).

(** The schema of the last parameter of the list that has this location and
    this name. *)
Definition last_schema (params : list json) (loc name : string) : option json :=
  option_map schema_copy (find (declares loc name) (rev params)).

(** The schema stored under a location and a name. *)
Definition stored (acc : obj) (loc name : string) : option json :=
  match obj_get acc loc with
  | Some group => obj_get (own_props (Some group)) name
  | None => None
  end.

(** ** Path items of the examples *)

(** The methods of a path item, in the order [parseMethods] compiles
    them. *)
Definition verbs_of (item : json) : list string :=
  filter (fun method => existsb (String.eqb method) methodsArray)
    (map fst (own_props (Some item))).

(** [str] with its first code unit in lower case. *)
Definition lower_first (str : string) : string :=
  match str with
  | EmptyString => EmptyString
  | String c t => String (lower_char c) t
  end.

Definition id_parameter (location type : string) : json :=
  JObj [("in", JStr location); ("name", JStr "id");
        ("schema", JObj [("type", JStr type)])].

(** A path item that declares [id] in the path as an integer, with one
    operation that declares it as a text. *)
Definition document_item : json :=
  JObj [("parameters", JArr [id_parameter "path" "integer"]);
        ("get",
         JObj [("operationId", JStr "GetDocument");
               ("parameters", JArr [id_parameter "path" "string"]);
               ("responses", JObj [])])].

Definition document_handlers : registry :=
  fun name => if name =? "getDocument" then HFunction 7 else HUndefined.

Definition no_handlers : registry := fun _ => HUndefined.

(** What [parseMethods] returns for [document_item] with
    [document_handlers]. *)
Definition document_routes : list protoRoute :=
  [ {| method := "GET";
       schema :=
         [("params",
           JObj [("type", JStr "object");
                 ("properties", JObj [("id", JObj [("type", JStr "integer")])])])];
       handler := 7 |} ].

(** ** Filtered schemas *)

(** The properties without those whose [flag] is truthy, and the required
    names that are still properties. *)
Definition without_flagged (flag : string) (props : obj) : obj :=
  filter (fun kv => negb (truthy (js_get (snd kv) flag))) props.

Definition required_among (kept : obj) (required : list json) : list json :=
  filter (includes (map fst kept)) required.

(** The array schema of the specification's example. *)
Definition secret_items : obj :=
  [("properties", JObj [("secret", JObj [("writeOnly", JBool true)])]);
   ("required", JArr [JStr "secret"])].

Definition secret_array : obj :=
  [("type", JStr "array"); ("items", JObj secret_items)].

(** A code unit that closes or separates values. *)
Definition delim (c : ascii) : bool :=
  is_char c 44 || is_char c 93 || is_char c 125.

(** The machine reads the text of [v] as [normalize v], whether the text is
    followed by a delimiter or ends the input. *)
Definition reads (v : json) : Prop :=
  forall st,
    (forall c rest, delim c = true ->
       run (PS st MValue) (JSON_stringify v ++ String c rest) =
       run (step_after (deliver (normalize v) st) c) rest) /\
    finish (run (PS st MValue) (JSON_stringify v)) = finish (deliver (normalize v) st).

(** ** Definitions for further properties *)

(** ** Texts and their parts *)

(** [pat] is found somewhere in [s]. *)
Fixpoint occurs (pat s : string) : bool :=
  match strip_prefix pat s with
  | Some _ => true
  | None =>
      match s with
      | EmptyString => false
      | String _ t => occurs pat t
      end
  end.

(** [s] with every [c] replaced by [repl]. *)
Fixpoint subst_char (c : ascii) (repl s : string) : string :=
  match s with
  | EmptyString => EmptyString
  | String x t =>
      if Ascii.eqb c x then repl ++ subst_char c repl t
      else String x (subst_char c repl t)
  end.

(** A path with its closing braces dropped and a colon for each opening
    brace. *)
Fixpoint colons (path : string) : string :=
  match path with
  | EmptyString => EmptyString
  | String c t =>
      if is_char c 125 then colons t
      else if is_char c 123 then String ":" (colons t)
      else String c (colons t)
  end.


(** The final scan finds a reference somewhere in [s]. *)
Fixpoint matches_somewhere (s : string) : bool :=
  match match_ref s with
  | Some _ => true
  | None =>
      match s with
      | EmptyString => false
      | String _ t => matches_somewhere t
      end
  end.

(** Every component group of the object [components] is an object. *)
Definition groups_are_objects (components : obj) : bool :=
  forallb (fun kv => match snd kv with JObj _ => true | _ => false end) components.

(** The text of [doc] holds the pointer of none of the components. *)
Definition uses_no_component (doc : json) (components : obj) : Prop :=
  forall g group k,
    In (g, JObj group) components -> In k (map fst group) ->
    occurs (ref_pattern g k) (JSON_stringify doc) = false.

(** A response declares JSON content. *)
Definition has_json_content (response : json) : bool :=
  truthy (get_if_truthy (js_get response "content") "application/json").

(** The schema [parseResponses] filters for a response with JSON content:
    the one it declares, or the empty object. *)
Definition response_schema (response : json) : option json :=
  match get_if_truthy (js_get response "content") "application/json" with
  | Some media =>
      let schema := js_get media "schema" in
      if truthy schema then schema else Some (JObj [])
  | None => None
  end.

(** The status codes of the responses that declare JSON content. *)
Definition json_codes (responses : obj) : list string :=
  map fst (filter (fun kv => has_json_content (snd kv)) responses).

(** A call that does not end the process. *)
Definition never_exits {A : Type} (m : outcome A) : Prop :=
  forall d, m <> Exited d.

(** ** Induction on documents *)

Section JsonInduction.

Variable P : json -> Prop.
Hypothesis P_null : P JNull.
Hypothesis P_bool : forall b, P (JBool b).
Hypothesis P_num : forall n, P (JNum n).
Hypothesis P_str : forall s, P (JStr s).
Hypothesis P_arr : forall xs, Forall P xs -> P (JArr xs).
Hypothesis P_obj : forall ms, Forall (fun kv => P (snd kv)) ms -> P (JObj ms).

Fixpoint json_ind (v : json) : P v :=
  match v with
  | JNull => P_null
  | JBool b => P_bool b
  | JNum n => P_num n
  | JStr s => P_str s
  | JArr xs =>
      P_arr xs
        ((fix all (l : list json) : Forall P l :=
            match l with
            | [] => Forall_nil _
            | x :: l' => Forall_cons x (json_ind x) (all l')
            end) xs)
  | JObj ms =>
      P_obj ms
        ((fix all (l : list (string * json)) : Forall (fun kv => P (snd kv)) l :=
            match l with
            | [] => Forall_nil _
            | kv :: l' =>
                Forall_cons (P := fun kv => P (snd kv)) kv (json_ind (snd kv)) (all l')
            end) ms)
  end.

End JsonInduction.

(** * Properties *)

(** ** Texts *)

Lemma append_assoc (a b c : string) : (a ++ b) ++ c = a ++ (b ++ c).
Proof. induction a as [|x a IH]; simpl; [reflexivity | now rewrite IH]. Qed.

Lemma append_nil_r (a : string) : a ++ EmptyString = a.
Proof. induction a as [|x a IH]; simpl; [reflexivity | now rewrite IH]. Qed.

Lemma run_app (a b : string) (s : pstate) : run s (a ++ b) = run (run s a) b.
Proof. revert s; induction a as [|x a IH]; intros s; simpl; [reflexivity | apply IH]. Qed.

Lemma rev_append_string_app (r : list ascii) (s t : string) :
  rev_append_string r s ++ t = rev_append_string r (s ++ t).
Proof. revert s; induction r as [|c r IH]; intros s; simpl; [reflexivity | apply IH]. Qed.

Lemma rev_append_rev_chars (s : string) (acc : list ascii) (t : string) :
  rev_append_string (rev_chars s acc) t = rev_append_string acc (s ++ t).
Proof.
  revert acc t; induction s as [|c s IH]; intros acc t; simpl; [reflexivity|].
  now rewrite IH.
Qed.

Lemma string_of_rev_chars (s : string) : string_of_rev (rev_chars s []) = s.
Proof.
  unfold string_of_rev. rewrite rev_append_rev_chars. simpl. apply append_nil_r.
Qed.

(** ** [JSON.parse] reads what [JSON.stringify] writes *)

Lemma run_escape_char (c : ascii) (st : list frame) (ctx : sctx) (acc : list ascii) :
  run (PS st (MString ctx acc)) (escape_char c) = PS st (MString ctx (c :: acc)).
Proof.
  destruct c as [[] [] [] [] [] [] [] []]; reflexivity.
Qed.

Lemma run_escape (s : string) (st : list frame) (ctx : sctx) (acc : list ascii) :
  run (PS st (MString ctx acc)) (escape s) = PS st (MString ctx (rev_chars s acc)).
Proof.
  revert acc; induction s as [|c s IH]; intros acc; simpl; [reflexivity|].
  now rewrite run_app, run_escape_char, IH.
Qed.

Lemma run_string_body (s : string) (st : list frame) (ctx : sctx) :
  run (PS st (MString ctx [])) (escape s ++ str1 dquote) = end_string ctx (rev_chars s []) st.
Proof. now rewrite run_app, run_escape. Qed.

Lemma run_digits (d : Decimal.uint) (st : list frame) (neg : bool) (a : N) :
  run (PS st (MInt neg a)) (NilEmpty.string_of_uint d) = PS st (MInt neg (digits_value d a)).
Proof.
  revert a; induction d; intros a; cbn [NilEmpty.string_of_uint run digits_value];
    try reflexivity; rewrite <- IHd; reflexivity.
Qed.

Lemma digits_value_pos (d : Decimal.uint) (p : positive) :
  digits_value d (Npos p) = Npos (Pos.of_uint_acc d p).
Proof.
  revert p; induction d; intros p; cbn [digits_value Pos.of_uint_acc];
    try reflexivity; rewrite <- IHd; f_equal; lia.
Qed.

Lemma unorm_D0 (d l : Decimal.uint) : Decimal.unorm d = Decimal.D0 l -> l = Decimal.Nil.
Proof.
  induction d; simpl; intros H; try discriminate; try (now inversion H); auto.
Qed.

(** The text of a positive integer: a digit that is not zero, then digits,
    and the machine reads the integer back. *)
Lemma run_positive (p : positive) (st : list frame) :
  exists c t, string_of_N (Npos p) = String c t /\
    is_digit c = true /\ is_char c 48 = false /\
    PS st (MInt false (digit_val c)) = step_value st c /\
    (forall neg, run (PS st (MInt neg (digit_val c))) t = PS st (MInt neg (Npos p))).
Proof.
  unfold string_of_N.
  pose proof (DecimalN.Unsigned.of_to (Npos p)) as Hof.
  pose proof (DecimalN.Unsigned.to_of (N.to_uint (Npos p))) as Hto.
  rewrite Hof in Hto.
  destruct (N.to_uint (Npos p)) as [|d|d|d|d|d|d|d|d|d|d] eqn:E;
    [ discriminate
    | symmetry in Hto; apply unorm_D0 in Hto; subst d; discriminate
    | .. ];
    match goal with
    | |- context [NilZero.string_of_uint ?u] =>
        match eval cbv in (NilZero.string_of_uint u) with
        | String ?c _ => exists c, (NilEmpty.string_of_uint d)
        end
    end;
    (repeat split); intros neg; rewrite run_digits;
    match goal with
    | |- context [digits_value d ?a] =>
        let a' := eval cbv in a in change a with a'
    end;
    rewrite digits_value_pos; simpl in Hof; now rewrite <- Hof.
Qed.

Lemma step_deliver (v : json) (st : list frame) (c : ascii) :
  step (deliver v st) c = step_after (deliver v st) c.
Proof. destruct st as [|[] st]; reflexivity. Qed.

Lemma settle_deliver (v : json) (st : list frame) : settle (deliver v st) = deliver v st.
Proof. destruct st as [|[] st]; reflexivity. Qed.

Lemma finish_deliver (v : json) : finish (deliver v []) = Returned v.
Proof. reflexivity. Qed.

Lemma finish_settle (s : pstate) : finish s = finish (settle s).
Proof.
  unfold finish. destruct s as [st m| |]; try reflexivity.
  destruct m; try reflexivity; cbn [settle].
  - now rewrite settle_deliver.
  - destruct (n <=? max_safe)%N; [now rewrite settle_deliver | reflexivity].
Qed.

Lemma reads_exact (v : json) :
  (forall st, run (PS st MValue) (JSON_stringify v) = deliver (normalize v) st) ->
  reads v.
Proof.
  intros H st; split.
  - intros c rest _. rewrite run_app, H. simpl. now rewrite step_deliver.
  - now rewrite H.
Qed.

Lemma delim_ends_number (c : ascii) :
  delim c = true -> is_digit c = false /\ is_frac_or_exp c = false.
Proof.
  destruct c as [[] [] [] [] [] [] [] []]; cbv; intuition congruence.
Qed.

Lemma step_number_end (st : list frame) (neg : bool) (n : N) (c : ascii) :
  delim c = true ->
  step (PS st (MInt neg n)) c = step_after (settle (PS st (MInt neg n))) c.
Proof.
  intros H; apply delim_ends_number in H as [H1 H2].
  unfold step. now rewrite H1, H2.
Qed.

Lemma reads_number (n : Z) : safe (JNum n) = true -> reads (JNum n).
Proof.
  intros Hs st. simpl in Hs. apply Z.leb_le in Hs.
  destruct n as [|p|p].
  - split.
    + intros c rest Hc. apply delim_ends_number in Hc as [H1 H2].
      cbn [JSON_stringify string_of_Z]. change (string_of_N (Z.to_N 0)) with "0".
      cbn [append run]. change (step (PS st MValue) "0") with (PS st MZero).
      unfold step. now rewrite H1, H2.
    + change (run (PS st MValue) (JSON_stringify (JNum 0))) with (PS st MZero).
      now rewrite finish_settle.
  - destruct (run_positive p st) as (c & t & E & Hd & Hz & Hv & Hr).
    assert (Hsafe : (N.pos p <=? max_safe)%N = true) by (apply N.leb_le; unfold max_safe in *; lia).
    cbn [JSON_stringify string_of_Z normalize]. change (Z.to_N (Z.pos p)) with (N.pos p).
    rewrite E. split.
    + intros d rest Hc. cbn [append run]. change (step (PS st MValue) c) with (step_value st c).
      rewrite <- Hv, run_app, Hr. cbn [run]. rewrite step_number_end by assumption.
      unfold settle. now rewrite Hsafe.
    + cbn [run]. change (step (PS st MValue) c) with (step_value st c).
      rewrite <- Hv, Hr. rewrite finish_settle. unfold settle. now rewrite Hsafe.
  - destruct (run_positive p st) as (c & t & E & Hd & Hz & Hv & Hr).
    assert (Hsafe : (N.pos p <=? max_safe)%N = true) by (apply N.leb_le; unfold max_safe in *; lia).
    assert (Hm : step (PS st MMinus) c = PS st (MInt true (digit_val c))).
    { unfold step. now rewrite Hz, Hd. }
    cbn [JSON_stringify string_of_Z normalize]. rewrite E. split.
    + intros d rest Hc. cbn [append run].
      change (step (PS st MValue) "-") with (PS st MMinus).
      rewrite Hm, run_app, Hr. cbn [run]. rewrite step_number_end by assumption.
      unfold settle. now rewrite Hsafe.
    + cbn [append run]. change (step (PS st MValue) "-") with (PS st MMinus).
      rewrite Hm, Hr. rewrite finish_settle. unfold settle. now rewrite Hsafe.
Qed.

Lemma run_quote_value (s : string) (st : list frame) :
  run (PS st MValue) (quote s) = deliver (JStr s) st.
Proof.
  unfold quote. cbn [run]. change (step (PS st MValue) dquote) with (PS st (MString SVal [])).
  rewrite run_string_body. unfold end_string. now rewrite string_of_rev_chars.
Qed.

Lemma run_quote_key (k : string) (st : list frame) (done : obj) :
  run (PS st (MObjKey done)) (quote k) = PS st (MColon done k).
Proof.
  unfold quote. cbn [run].
  change (step (PS st (MObjKey done)) dquote) with (PS st (MString (SKey done) [])).
  rewrite run_string_body. unfold end_string. now rewrite string_of_rev_chars.
Qed.

(** The elements of an array after the first bracket, up to the closing
    one. *)
Lemma run_elements (xs : list json) :
  Forall reads xs -> xs <> [] ->
  forall acc st,
    run (PS (FArr acc :: st) MValue)
        (String.concat "," (map JSON_stringify xs) ++ "]") =
    deliver (JArr (rev acc ++ map normalize xs)) st.
Proof.
  induction 1 as [|x xs Hx Hxs IH]; intros Hne acc st; [congruence|].
  destruct xs as [|y xs].
  - cbn [map String.concat]. destruct (Hx (FArr acc :: st)) as [Hd _].
    rewrite Hd by reflexivity. reflexivity.
  - change (String.concat "," (map JSON_stringify (x :: y :: xs)))
      with (JSON_stringify x ++ "," ++ String.concat "," (map JSON_stringify (y :: xs))).
    rewrite append_assoc. cbn [append].
    destruct (Hx (FArr acc :: st)) as [Hd _]. rewrite Hd by reflexivity.
    cbn [deliver step_after]. change (is_ws ",") with false. cbn iota.
    change (is_char "," 44) with true. cbn iota.
    rewrite IH by congruence. cbn [rev map]. now rewrite <- app_assoc.
Qed.

(** The members of an object after the first brace, up to the closing
    one. *)
Lemma run_members (ms : list (string * json)) :
  Forall (fun kv => reads (snd kv)) ms -> ms <> [] ->
  forall done st,
    run (PS st (MObjKey done))
        (String.concat "," (map (member_text JSON_stringify) ms) ++ "}") =
    deliver (JObj (fold_left (fun o kv => obj_set o (fst kv) (normalize (snd kv))) ms done)) st.
Proof.
  induction 1 as [|[k v] ms Hx Hxs IH]; intros Hne done st; [congruence|].
  simpl in Hx.
  assert (Hkey : forall rest,
    run (PS st (MObjKey done)) (member_text JSON_stringify (k, v) ++ rest) =
    run (PS (FObj done k :: st) MValue) (JSON_stringify v ++ rest)).
  { intros rest. unfold member_text. cbn [fst snd].
    rewrite !append_assoc, run_app, run_quote_key. reflexivity. }
  destruct ms as [|m ms].
  - cbn [map String.concat]. rewrite Hkey.
    destruct (Hx (FObj done k :: st)) as [Hd _].
    rewrite Hd by reflexivity. reflexivity.
  - change (String.concat "," (map (member_text JSON_stringify) ((k, v) :: m :: ms)))
      with (member_text JSON_stringify (k, v) ++ "," ++
            String.concat "," (map (member_text JSON_stringify) (m :: ms))).
    rewrite append_assoc, Hkey. cbn [append].
    destruct (Hx (FObj done k :: st)) as [Hd _]. rewrite Hd by reflexivity.
    cbn [deliver step_after]. change (is_ws ",") with false. cbn iota.
    change (is_char "," 44) with true. cbn iota.
    rewrite IH by congruence. reflexivity.
Qed.

Lemma safe_reads (v : json) : safe v = true -> reads v.
Proof.
  induction v as [| [] | n | s | xs IH | ms IH] using json_ind; intros Hs.
  - apply reads_exact; reflexivity.
  - apply reads_exact; reflexivity.
  - apply reads_exact; reflexivity.
  - now apply reads_number.
  - apply reads_exact; intros st. apply run_quote_value.
  - assert (Hall : Forall reads xs).
    { simpl in Hs. rewrite forallb_forall in Hs. rewrite Forall_forall in IH |- *.
      intros y Hy. apply IH; [assumption|]. now apply Hs. }
    apply reads_exact; intros st. cbn [JSON_stringify normalize].
    destruct xs as [|x xs]; [reflexivity|].
    cbn [append run]. change (step (PS st MValue) "[") with (PS (FArr [] :: st) MValue).
    apply run_elements; [assumption | congruence].
  - assert (Hall : Forall (fun kv => reads (snd kv)) ms).
    { simpl in Hs. rewrite forallb_forall in Hs. rewrite Forall_forall in IH |- *.
      intros y Hy. apply IH; [assumption|]. now apply Hs. }
    apply reads_exact; intros st. cbn [JSON_stringify normalize].
    destruct ms as [|m ms]; [reflexivity|].
    cbn [append run]. change (step (PS st MValue) "{") with (PS st (MObjKey [])).
    apply run_members; [assumption | congruence].
Qed.

(** [JSON.parse(JSON.stringify(v))] returns [v] the way JavaScript holds
    it. *)
Lemma parse_stringify (v : json) :
  safe v = true -> JSON_parse (JSON_stringify v) = Returned (normalize v).
Proof.
  intros Hs. unfold JSON_parse.
  destruct (safe_reads v Hs []) as [_ H]. now rewrite H.
Qed.

(** ** Objects with their keys in order *)

Lemma obj_get_none (o : obj) (k : string) :
  obj_get o k = None <-> ~ In k (map fst o).
Proof.
  induction o as [|[k' v] o IH]; simpl; [tauto|].
  destruct (String.eqb_spec k' k) as [E|E]; [split; [discriminate | tauto]|].
  rewrite IH. tauto.
Qed.

Lemma obj_has_false (o : obj) (k : string) :
  ~ In k (map fst o) -> obj_has o k = false.
Proof. intros H. unfold obj_has. apply obj_get_none in H. now rewrite H. Qed.

Lemma obj_insert_index_last (n : N) (k : string) (v : json) (o : obj) :
  array_index k = Some n ->
  (forall k', In k' (map fst o) -> key_before k' k = true) ->
  obj_insert_index n k v o = (o ++ [(k, v)])%list.
Proof.
  intros Hk; induction o as [|[k' v'] o IH]; intros H; simpl; [reflexivity|].
  pose proof (H k' (or_introl eq_refl)) as Hb. unfold key_before in Hb.
  rewrite Hk in Hb. destruct (array_index k') as [n'|]; [|discriminate].
  rewrite Hb, IH; [reflexivity|]. intros k'' Hin. apply H. now right.
Qed.

Lemma obj_set_last (o : obj) (k : string) (v : json) :
  ~ In k (map fst o) ->
  (forall k', In k' (map fst o) -> key_before k' k = true) ->
  obj_set o k v = (o ++ [(k, v)])%list.
Proof.
  intros Hn Hb. unfold obj_set. rewrite obj_has_false by assumption.
  destruct (array_index k) as [n|] eqn:E; [|reflexivity].
  now apply obj_insert_index_last.
Qed.

Lemma keys_canonical_app (a : list string) (k : string) (b : list string) :
  keys_canonical (a ++ k :: b) = true ->
  ~ In k a /\ forall k', In k' a -> key_before k' k = true.
Proof.
  induction a as [|x a IH]; simpl; [tauto|].
  rewrite !andb_true_iff, forallb_forall, negb_true_iff.
  intros [[Hb Hd] Hc]. destruct (IH Hc) as [Hn Hk]. split.
  - intros [->|Hin]; [|tauto].
    apply Bool.not_true_iff_false in Hd. apply Hd.
    apply existsb_exists. exists k. split; [|apply String.eqb_refl].
    apply in_or_app. right. now left.
  - intros k' [->|Hin]; [|now apply Hk].
    apply Hb. apply in_or_app. right. now left.
Qed.

(** Creating the properties of a list in order gives the list back when its
    keys are in order. *)
Lemma fold_obj_set_canonical (f : json -> json) (ms acc : obj) :
  keys_canonical (map fst (acc ++ ms)) = true ->
  fold_left (fun o kv => obj_set o (fst kv) (f (snd kv))) ms acc =
  (acc ++ map (fun kv => (fst kv, f (snd kv))) ms)%list.
Proof.
  revert acc; induction ms as [|[k v] ms IH]; intros acc H; simpl.
  - now rewrite app_nil_r.
  - rewrite map_app in H. simpl in H.
    destruct (keys_canonical_app _ _ _ H) as [Hn Hb].
    rewrite obj_set_last by assumption.
    rewrite IH.
    + now rewrite <- app_assoc.
    + rewrite !map_app. simpl. now rewrite <- app_assoc.
Qed.

Lemma well_formed_safe (v : json) : well_formed v = true -> safe v = true.
Proof.
  induction v as [| b | n | s | xs IH | ms IH] using json_ind; simpl; auto.
  - rewrite !forallb_forall. rewrite Forall_forall in IH. auto.
  - rewrite andb_true_iff, !forallb_forall. rewrite Forall_forall in IH.
    intros [_ H] kv Hin. auto.
Qed.

Lemma normalize_well_formed (v : json) : well_formed v = true -> normalize v = v.
Proof.
  induction v as [| b | n | s | xs IH | ms IH] using json_ind; simpl; auto.
  - rewrite forallb_forall. rewrite Forall_forall in IH. intros H. f_equal.
    rewrite <- (map_id xs) at 2. apply map_ext_in. auto.
  - rewrite andb_true_iff, forallb_forall. rewrite Forall_forall in IH.
    intros [Hk H]. f_equal.
    rewrite (fold_obj_set_canonical normalize ms []) by assumption. simpl.
    rewrite <- (map_id ms) at 2. apply map_ext_in.
    intros [k x] Hin. simpl. f_equal. apply (IH (k, x)); [assumption|].
    now apply (H (k, x)).
Qed.

(** The deep copy [JSON.parse(JSON.stringify(v))] of a value JavaScript
    holds is the value. *)
Lemma deep_copy (v : json) :
  well_formed v = true -> parse_opt (stringify_opt (Some v)) = Returned v.
Proof.
  intros H. unfold parse_opt, stringify_opt, option_map.
  rewrite parse_stringify by now apply well_formed_safe.
  now rewrite normalize_well_formed.
Qed.

(** ** The reference resolver *)

(** C1: a component is not always injected as it is written.  The response
    [area] describes itself as [$$x^2$$]; [replaceAll] reads the two dollars
    of a replacement text as one, so the place that refers to [area]
    receives [$x^2$] while the component keeps its text.  A dollar before a
    backquote stands for the text before the match: the document that uses
    such a response is not returned at all, the text no longer parses. *)
Theorem resolve_halves_dollars :
  (exists specs,
     resolveInternalReferences formula_doc = Returned specs /\
     at_path specs ["components"; "responses"; "area"] =
       Some (JObj [("description", JStr "$$x^2$$")]) /\
     at_path specs ["paths"; "/area"; "get"; "responses"; "200"] =
       Some (JObj [("description", JStr "$x^2$")])) /\
  resolveInternalReferences prefix_used_doc = Thrown SyntaxError.
Proof.
  split; [|vm_compute; reflexivity].
  eexists. split; [vm_compute; reflexivity|]. split; reflexivity.
Qed.

(** C2: a reference to a component that is not there ends the process with
    the report that lists it, but a reference with an empty pointer passes
    the final scan, which wants at least one code unit between the quotes:
    the document is returned with the reference in it.  The scan also stops
    at the first quote it meets, so a pointer that holds one is listed cut
    short, with the backslash that escapes the quote.  And when a component
    that is used holds a dollar before a backquote, the call throws before
    the scan: the reference that names no component is not reported. *)
Theorem empty_pointer_returned :
  resolveInternalReferences missing_doc =
    Exited (OrphanRefs [ref_text "#/components/schemas/Missing"]) /\
  resolveInternalReferences empty_pointer_doc = Returned empty_pointer_doc /\
  at_path empty_pointer_doc ["paths"; "/a"; "get"; "$ref"] = Some (JStr EmptyString) /\
  resolveInternalReferences quoted_pointer_doc =
    Exited (OrphanRefs [ref_key ++ str1 dquote ++ "#/x" ++ str1 backslash ++ str1 dquote]) /\
  resolveInternalReferences prefix_orphan_doc = Thrown SyntaxError.
Proof. repeat split; vm_compute; reflexivity. Qed.

Lemma returned_without_references (doc : json) :
  match resolveInternalReferences doc with
  | Returned specs => getRefsInsideSpec (JSON_stringify specs) = []
  | _ => True
  end.
Proof.
  unfold resolveInternalReferences.
  destruct (parse_opt _) as [specs| | |]; cbn [bind]; trivial.
  destruct (get_prop _ _) as [components| | |]; cbn [bind]; trivial.
  destruct (Object_keys _) as [groups| | |]; cbn [bind]; trivial.
  destruct (foldM _ _ _) as [specs'| | |]; cbn [bind]; trivial.
  now destruct (getRefsInsideSpec (JSON_stringify specs')) eqn:E.
Qed.

Lemma never_cyclic (doc : json) :
  reported (resolveInternalReferences doc) <> Some CyclicReferenceError.
Proof.
  unfold resolveInternalReferences, bind.
  repeat match goal with
         | |- context [match ?x with _ => _ end] => destruct x; simpl; try discriminate
         end.
Qed.

(** C3, as stated, fails on two schemas that refer to each other: the
    failure reported is not a cyclic reference. *)
Lemma cycle_not_reported_as_cycle :
  reported (resolveInternalReferences cyclic_doc) <> Some CyclicReferenceError.
Proof. vm_compute. discriminate. Qed.

(** C3, amended: the resolver has no check for cycles, so no document makes
    it report one; every call ends (the embedding is a total function, one
    replacement for each component); a document is returned only when the
    final scan finds no reference in it; and two schemas that refer to each
    other end in the report of unresolved references, which lists the
    pointer left at each of the three places. *)
Theorem cycle_reported_as_orphans :
  (forall doc, reported (resolveInternalReferences doc) <> Some CyclicReferenceError) /\
  (forall doc,
     match resolveInternalReferences doc with
     | Returned specs => getRefsInsideSpec (JSON_stringify specs) = []
     | _ => True
     end) /\
  resolveInternalReferences cyclic_doc =
    Exited (OrphanRefs [ref_text "#/components/schemas/B";
                        ref_text "#/components/schemas/B";
                        ref_text "#/components/schemas/B"]) /\
  reported (resolveInternalReferences cyclic_doc) = Some UnresolvedReferenceError.
Proof.
  split; [exact never_cyclic|]. split; [exact returned_without_references|].
  split; vm_compute; reflexivity.
Qed.

(** ** The schema filters *)

(** C5: without a [required] list [filterReadOnlyProperties] throws, where
    [filterWriteOnlyProperties] guards the list and succeeds; with the list
    the example of the specification is filtered as stated. *)
Theorem read_only_filter_needs_required :
  filterReadOnlyProperties (Some (JObj (flagged_schema "readOnly"))) = Thrown TypeError /\
  filterWriteOnlyProperties (Some (JObj (flagged_schema "writeOnly"))) =
    Returned (JObj [("properties", JObj [("b", JObj [])])]) /\
  filterReadOnlyProperties (Some (example_schema "readOnly")) =
    Returned (JObj [("properties", JObj [("b", JObj [])]);
                    ("required", JArr [JStr "b"])]).
Proof. repeat split; vm_compute; reflexivity. Qed.

Lemma keys_of_nonempty (schema : json) :
  own_props (Some schema) <> [] ->
  exists k ks, Object_keys (Some schema) = Returned (k :: ks) /\
    forall key, get_prop (Some schema) key = Returned (js_get schema key).
Proof.
  intros H. destruct schema; simpl in *; try congruence.
  - destruct (combine _ _) as [|[k v] l]; [congruence|].
    exists k, (map fst l). split; reflexivity.
  - destruct (combine _ _) as [|[k v] l]; [congruence|].
    exists k, (map fst l). split; reflexivity.
  - destruct ms as [|[k v] l]; [congruence|].
    exists k, (map fst l). split; reflexivity.
Qed.

Lemma filter_target_lacking (schema : json) :
  (forall key, get_prop (Some schema) key = Returned (js_get schema key)) ->
  lacks_properties schema = true ->
  (exists required, filter_target (Some schema) = Returned (None, required) /\
      filter_failure schema = SyntaxError) \/
  (filter_target (Some schema) = Thrown TypeError /\ filter_failure schema = TypeError).
Proof.
  intros Hget. unfold lacks_properties, filter_failure, filter_target.
  rewrite !Hget. cbn [bind].
  destruct (is_text (js_get schema "type") "array").
  - destruct (js_get schema "items") as [items|]; [|intros _; right; split; reflexivity].
    destruct items; try (intros _; right; split; reflexivity);
      cbn [get_prop bind];
      match goal with
      | |- context [js_get ?i "properties"] =>
          destruct (js_get i "properties"); [discriminate|]
      end; intros _; left; eexists; split; reflexivity.
  - destruct (js_get schema "properties"); [discriminate|].
    intros _; left; eexists; split; reflexivity.
Qed.

Lemma filters_without_properties (schema : json) :
  own_props (Some schema) <> [] -> lacks_properties schema = true ->
  filterReadOnlyProperties (Some schema) = Thrown (filter_failure schema) /\
  filterWriteOnlyProperties (Some schema) = Thrown (filter_failure schema).
Proof.
  intros Hne Hl. destruct (keys_of_nonempty schema Hne) as (k & ks & Hk & Hget).
  unfold filterReadOnlyProperties, filterWriteOnlyProperties. rewrite Hk. cbn [bind List.length Nat.eqb].
  destruct (filter_target_lacking schema Hget Hl) as [(r & -> & ->)|[-> ->]];
    split; reflexivity.
Qed.

(** C7, as stated, fails on a request body whose JSON content is a text:
    what ends the compilation is not a malformed-schema failure. *)
Lemma text_body_not_malformed_schema :
  reported (parseRequestBody (Some text_body)) <> Some MalformedSchemaError.
Proof. vm_compute. discriminate. Qed.

(** C7, amended: filtering a non-empty schema without the properties it
    reads ends the compilation with a bare exception, [SyntaxError] from
    parsing the text [undefined] or [TypeError] when an array-typed schema
    has no items; the source has no malformed-schema failure, and the
    exception names no path, method, operation or reference.  A request
    body with such a JSON schema fails the same way. *)
Theorem filtering_without_properties (schema : json) :
  own_props (Some schema) <> [] -> lacks_properties schema = true ->
  filterReadOnlyProperties (Some schema) = Thrown (filter_failure schema) /\
  filterWriteOnlyProperties (Some schema) = Thrown (filter_failure schema) /\
  reported (filterReadOnlyProperties (Some schema)) = None /\
  reported (filterWriteOnlyProperties (Some schema)) = None /\
  forall requestBody content media,
    js_get requestBody "content" = Some content ->
    js_get content "application/json" = Some media ->
    truthy (Some media) = true ->
    js_get media "schema" = Some schema ->
    parseRequestBody (Some requestBody) = Thrown (filter_failure schema).
Proof.
  intros Hne Hl. destruct (filters_without_properties schema Hne Hl) as [Hr Hw].
  rewrite Hr, Hw. repeat split.
  intros requestBody content media Hc Hm Ht Hs.
  assert (Hobj : forall v k x, js_get v k = Some x -> array_index k = None ->
                   (k =? "length") = false -> truthy (Some v) = true).
  { intros v k x H Hi Hlen. destruct v; simpl in H; try discriminate;
      try reflexivity; rewrite Hi, Hlen in H; discriminate. }
  unfold parseRequestBody, get_if_truthy.
  rewrite (Hobj requestBody "content" content Hc eq_refl eq_refl), Hc.
  rewrite (Hobj content "application/json" media Hm eq_refl eq_refl), Hm.
  rewrite Ht. destruct media; try discriminate; cbn [get_prop bind]; rewrite Hs, Hr; reflexivity.
Qed.

Lemma filtering_without_properties_witness :
  parseRequestBody (Some text_body) = Thrown SyntaxError.
Proof.
  assert (Hne : own_props (Some (JObj [("type", JStr "string")])) <> []) by discriminate.
  exact (proj2 (proj2 (proj2 (proj2
    (filtering_without_properties (JObj [("type", JStr "string")]) Hne eq_refl))))
    text_body _ _ eq_refl eq_refl eq_refl eq_refl).
Defined.

(** ** The caller's document *)

Lemma obj_replace_same (o : obj) (k : string) (v : json) :
  obj_get o k = Some v -> obj_replace o k v = o.
Proof.
  induction o as [|[k' v'] o IH]; simpl; [reflexivity|].
  destruct (k' =? k); intros H; [now inversion H | now rewrite IH].
Qed.

Lemma obj_set_same (o : obj) (k : string) (v : json) :
  obj_get o k = Some v -> obj_set o k v = o.
Proof.
  intros H. unfold obj_set, obj_has. rewrite H. now apply obj_replace_same.
Qed.

Ltac same_store := split; [assumption|]; split; [assumption|]; split; [reflexivity|].

Section StoreFacts.

Import Store.

Lemma length_update (h : store) (l : loc) (c : cell) :
  List.length (update h l c) = List.length h.
Proof.
  revert l; induction h as [|c0 h IH]; intros [|l]; cbn [update List.length];
    auto.
Qed.

Lemma nth_error_update (h : store) (l l' : loc) (c : cell) :
  nth_error (update h l c) l' =
  if (l =? l')%nat
  then match nth_error h l with Some _ => Some c | None => None end
  else nth_error h l'.
Proof.
  revert l l'; induction h as [|c0 h IH]; intros [|l] [|l'];
    cbn [update nth_error Nat.eqb]; try reflexivity.
  - now destruct (l =? l')%nat.
  - apply IH.
Qed.

Lemma update_same (h : store) (l : loc) (c : cell) :
  nth_error h l = Some c -> update h l c = h.
Proof.
  revert l; induction h as [|c0 h IH]; intros [|l]; cbn [update nth_error];
    try discriminate.
  - now intros [= ->].
  - intros H. now rewrite IH.
Qed.

Lemma members_replace_same (ms : list (string * value)) (k : string) (v : value) :
  members_get ms k = Some v -> members_replace ms k v = ms.
Proof.
  induction ms as [|[k' v'] ms IH]; cbn [members_get members_replace];
    [reflexivity|].
  destruct (k' =? k); intros H; [now inversion H | now rewrite IH].
Qed.

Lemma members_set_same (ms : list (string * value)) (k : string) (v : value) :
  members_get ms k = Some v -> members_set ms k v = ms.
Proof.
  intros H. unfold members_set. rewrite H. now apply members_replace_same.
Qed.

Lemma fresh_primitive (n : nat) (t : json) : fresh n (primitive t).
Proof. now destruct t. Qed.

Lemma fresh_members_get (n : nat) (ms : list (string * value)) (k : string) (v : value) :
  Forall (fun kv => fresh n (snd kv)) ms -> members_get ms k = Some v -> fresh n v.
Proof.
  induction 1 as [|[k' v'] ms Hv _ IH]; cbn [members_get]; [discriminate|].
  destruct (k' =? k); [now intros [= <-] | exact IH].
Qed.

Lemma fresh_members_set (n : nat) (ms : list (string * value)) (k : string) (v : value) :
  Forall (fun kv => fresh n (snd kv)) ms -> fresh n v ->
  Forall (fun kv => fresh n (snd kv)) (members_set ms k v).
Proof.
  intros Hms Hv. unfold members_set. destruct (members_get ms k).
  - induction Hms as [|[k' v'] ms Hv' Hms IH]; cbn [members_replace]; [constructor|].
    destruct (k' =? k); constructor; assumption.
  - destruct (array_index k) as [i|].
    + induction Hms as [|[k' v'] ms Hv' Hms IH]; cbn [members_insert_index].
      * now repeat constructor.
      * destruct (array_index k') as [i'|].
        -- destruct (i' <? i)%N; repeat constructor; assumption.
        -- repeat constructor; assumption.
    + apply Forall_app. split; [assumption | now repeat constructor].
Qed.

Lemma fresh_get (n : nat) (h : store) (v : value) (k : string) :
  closed n h -> fresh n v -> fresh_opt n (get h v k).
Proof.
  intros Hc Hv. destruct v as [| | |s|l]; cbn [get fresh_opt]; trivial.
  - destruct (js_get (JStr s) k); cbn [option_map]; [apply fresh_primitive | exact I].
  - cbn [fresh] in Hv. destruct (nth_error h l) as [[xs|ms]|] eqn:E; [| |exact I].
    + pose proof (Hc l _ Hv E) as Hcell. cbn [fresh_cell] in Hcell.
      destruct (array_index k) as [i|].
      * destruct (nth_error xs (N.to_nat i)) as [x|] eqn:Ex; [|exact I].
        rewrite Forall_forall in Hcell. apply Hcell. eapply nth_error_In. eassumption.
      * destruct (k =? "length"); exact I.
    + pose proof (Hc l _ Hv E) as Hcell. cbn [fresh_cell] in Hcell.
      destruct (members_get ms k) as [x|] eqn:Ex; [|exact I].
      eapply fresh_members_get; eassumption.
Qed.

Lemma closed_app (n : nat) (h : store) (c : cell) :
  closed n h -> fresh_cell n c -> closed n (h ++ [c])%list.
Proof.
  intros Hc Hcell l c' Hl E.
  destruct (Nat.lt_ge_cases l (List.length h)) as [Hlt|Hge].
  - rewrite nth_error_app1 in E by assumption. now apply (Hc l).
  - rewrite nth_error_app2 in E by assumption.
    destruct (l - List.length h) as [|d]; cbn in E.
    + now injection E as <-.
    + now destruct d.
Qed.

Lemma closed_update (n : nat) (h : store) (l : loc) (c : cell) :
  closed n h -> fresh_cell n c -> closed n (update h l c).
Proof.
  intros Hc Hcell l' c' Hl E. rewrite nth_error_update in E.
  destruct (l =? l')%nat.
  - destruct (nth_error h l); [now injection E as <- | discriminate].
  - now apply (Hc l').
Qed.

(** *** Calls that keep the cells below a bound *)

Lemma keeps_pure (n : nat) {A : Type} (Q : A -> Prop) (o : outcome A) :
  (forall a, o = Returned a -> Q a) -> keeps n Q (pure o).
Proof. intros HQ h Hn Hc. cbn [pure fst snd]. same_store. exact HQ. Qed.

Lemma keeps_weaken (n : nat) {A : Type} (Q R : A -> Prop) (m : M A) :
  (forall a, Q a -> R a) -> keeps n Q m -> keeps n R m.
Proof.
  intros HQR Hm h Hn Hc. destruct (Hm h Hn Hc) as (H1 & H2 & H3 & H4).
  repeat split; auto.
Qed.

Lemma keeps_run (n : nat) {A B : Type} (Q : A -> Prop) (R : B -> Prop)
  (m : M A) (k : A -> M B) :
  keeps n Q m -> (forall a, Q a -> keeps n R (k a)) -> keeps n R (run m k).
Proof.
  intros Hm Hk h Hn Hc. destruct (Hm h Hn Hc) as (H1 & H2 & H3 & H4).
  unfold run. destruct (m h) as [[a|e|d|] h1]; cbn [fst snd] in *;
    try (repeat split; [assumption | assumption | assumption | discriminate]).
  destruct (Hk a (H4 a eq_refl) h1 H1 H2) as (K1 & K2 & K3 & K4).
  repeat split; try assumption.
  intros l Hl. now rewrite K3, H3.
Qed.

Lemma keeps_mapM (n : nat) {A B : Type} (f : A -> M B) (xs : list A) :
  (forall x, keeps n (fun _ => True) (f x)) -> keeps n (fun _ => True) (mapM f xs).
Proof.
  intros Hf. induction xs as [|x xs IH]; cbn [mapM].
  - now apply keeps_pure.
  - eapply keeps_run; [apply Hf|]. intros y _.
    eapply keeps_run; [apply IH|]. intros ys _. now apply keeps_pure.
Qed.

Lemma keeps_foldM (n : nat) {A B : Type} (f : B -> A -> M B) (xs : list A) (acc : B) :
  (forall acc x, keeps n (fun _ => True) (f acc x)) ->
  keeps n (fun _ => True) (foldM f xs acc).
Proof.
  intros Hf. revert acc; induction xs as [|x xs IH]; intros acc; cbn [foldM].
  - now apply keeps_pure.
  - eapply keeps_run; [apply Hf|]. intros acc' _. apply IH.
Qed.

Lemma keeps_look (n : nat) (v : option value) (k : string) :
  fresh_opt n v -> keeps n (fresh_opt n) (look v k).
Proof.
  intros Hv h Hn Hc. unfold look.
  destruct v as [[| | | |]|]; cbn [fst snd];
    same_store; try discriminate; intros a [= <-]; exact (fresh_get n h _ k Hc Hv).
Qed.

Lemma keeps_look_if_truthy (n : nat) (v : option value) (k : string) :
  fresh_opt n v -> keeps n (fresh_opt n) (look_if_truthy v k).
Proof.
  intros Hv h Hn Hc. unfold look_if_truthy.
  destruct v as [x|]; cbn [fst snd]; same_store; intros a [= <-]; [|exact I].
  match goal with |- fresh_opt n (if ?b then _ else _) => destruct b end;
    [exact (fresh_get n h _ k Hc Hv) | exact I].
Qed.

Lemma keeps_Object_keys (n : nat) (v : option value) :
  keeps n (fun _ => True) (Object_keys v).
Proof.
  intros h Hn Hc. unfold Object_keys.
  destruct v as [[| | | |]|]; cbn [fst snd]; same_store; trivial.
Qed.

Lemma keeps_snapshot (n : nat) (v : option value) :
  keeps n (fun _ => True) (snapshot v).
Proof.
  intros h Hn Hc. unfold snapshot.
  destruct v as [x|]; [destruct (read h x)|]; cbn [fst snd]; same_store; trivial.
Qed.

Lemma keeps_new (n : nat) (c : cell) :
  fresh_cell n c ->
  keeps n (fresh n) (fun h => (Returned (VRef (List.length h)), (h ++ [c])%list)).
Proof.
  intros Hcell h Hn Hc. cbn [fst snd]. rewrite length_app. cbn [List.length].
  repeat split.
  - lia.
  - now apply closed_app.
  - intros l Hl. apply nth_error_app1. lia.
  - intros a [= <-]. exact Hn.
Qed.

Lemma keeps_new_object (n : nat) (ms : list (string * value)) :
  Forall (fun kv => fresh n (snd kv)) ms -> keeps n (fresh n) (new_object ms).
Proof. intros H. now apply (keeps_new n (CObj ms)). Qed.

Lemma keeps_new_array (n : nat) (xs : list value) :
  Forall (fresh n) xs -> keeps n (fresh n) (new_array xs).
Proof. intros H. now apply (keeps_new n (CArr xs)). Qed.

Lemma keeps_assign (n : nat) (target : option value) (k : string) (v : value) :
  fresh_opt n target -> fresh n v -> keeps n (fun _ => True) (assign target k v).
Proof.
  intros Ht Hv h Hn Hc. unfold assign.
  destruct target as [[| | | |l]|]; cbn [fst snd]; try (same_store; trivial).
  destruct (nth_error h l) as [[xs|ms]|] eqn:E; cbn [fst snd];
    try (same_store; trivial).
  cbn [fresh_opt fresh] in Ht. rewrite length_update. repeat split; trivial.
  - apply closed_update; [assumption|]. cbn [fresh_cell].
    apply fresh_members_set; [|assumption]. exact (Hc l _ Ht E).
  - intros l' Hl'. rewrite nth_error_update.
    destruct (Nat.eqb_spec l l'); [lia | reflexivity].
Qed.

Lemma keeps_pick (n : nat) (source : option value) (names : list string) :
  fresh_opt n source ->
  keeps n (Forall (fun kv => fresh n (snd kv))) (pick source names).
Proof.
  intros Hs h Hn Hc. unfold pick. cbn [fst snd]. same_store.
  intros a [= <-]. induction names as [|k names IH]; cbn [flat_map]; [constructor|].
  apply Forall_app. split; [|exact IH].
  destruct source as [x|]; [|constructor].
  pose proof (fresh_get n h x k Hc Hs) as Hg.
  destruct (get h x k); repeat constructor. exact Hg.
Qed.

Lemma fresh_elements_of (n : nat) (required : option json) :
  Forall (fresh n) (elements_of required).
Proof.
  destruct required as [[| | | |names|]|]; cbn [elements_of]; try constructor.
  induction names; cbn [map]; constructor; [apply fresh_primitive | assumption].
Qed.

End StoreFacts.


Section StoreCalls.

Import Store.

Variable n : nat.

Lemma thread_keeps {A B : Type} (f : A -> store -> B * store) (Q : B -> Prop)
  (l : list A) :
  Forall (fun x => keeps n Q (fun h => (Returned (fst (f x h)), snd (f x h)))) l ->
  keeps n (Forall Q) (fun h => (Returned (fst (thread f l h)), snd (thread f l h))).
Proof.
  induction 1 as [|x l Hx _ IH]; intros h Hn Hc; cbn [thread fst snd].
  - same_store. intros a [= <-]. constructor.
  - destruct (Hx h Hn Hc) as (H1 & H2 & H3 & H4). cbn [fst snd] in *.
    destruct (f x h) as [y h1]. cbn [fst snd] in *.
    destruct (IH h1 H1 H2) as (K1 & K2 & K3 & K4). cbn [fst snd] in *.
    destruct (thread f l h1) as [ys h2]. cbn [fst snd] in *.
    repeat split; try assumption.
    + intros i Hi. now rewrite K3, H3.
    + intros a [= <-]. constructor; [now apply H4 | now apply K4].
Qed.

Lemma keeps_alloc_tree (t : json) :
  keeps n (fresh n) (fun h => (Returned (fst (alloc_tree t h)), snd (alloc_tree t h))).
Proof.
  induction t as [| b | z | s | xs IH | ms IH] using json_ind;
    try (intros h Hn Hc; cbn [alloc_tree fst snd]; same_store;
         intros a [= <-]; exact I).
  - pose proof (thread_keeps alloc_tree (fresh n) xs IH) as Ht.
    intros h Hn Hc. destruct (Ht h Hn Hc) as (H1 & H2 & H3 & H4).
    cbn [alloc_tree]. cbn [fst snd] in *.
    destruct (thread alloc_tree xs h) as [vs h1]. cbn [fst snd] in *.
    rewrite length_app. cbn [List.length]. repeat split.
    + lia.
    + apply closed_app; [assumption|]. now apply H4.
    + intros l Hl. rewrite nth_error_app1 by lia. now apply H3.
    + intros a [= <-]. exact H1.
  - pose proof (thread_keeps
                  (fun kv h => let '(v, h1) := alloc_tree (snd kv) h in
                               ((fst kv, v), h1))
                  (fun kv : string * value => fresh n (snd kv)) ms) as Ht.
    assert (Hms : Forall
              (fun x : string * json =>
                 keeps n (fun kv : string * value => fresh n (snd kv))
                   (fun h =>
                      (Returned (fst (let '(v, h1) := alloc_tree (snd x) h in
                                      ((fst x, v), h1))),
                       snd (let '(v, h1) := alloc_tree (snd x) h in
                            ((fst x, v), h1))))) ms).
    { eapply Forall_impl; [|exact IH]. intros [k x] Hx h Hn Hc.
      destruct (Hx h Hn Hc) as (H1 & H2 & H3 & H4). cbn [fst snd] in *.
      destruct (alloc_tree x h) as [v h1]. cbn [fst snd] in *.
      repeat split; try assumption. intros a [= <-]. now apply H4. }
    specialize (Ht Hms).
    intros h Hn Hc. destruct (Ht h Hn Hc) as (H1 & H2 & H3 & H4).
    cbn [alloc_tree]. cbn [fst snd] in *.
    destruct (thread _ ms h) as [vs h1]. cbn [fst snd] in *.
    rewrite length_app. cbn [List.length]. repeat split.
    + lia.
    + apply closed_app; [assumption|]. now apply H4.
    + intros l Hl. rewrite nth_error_app1 by lia. now apply H3.
    + intros a [= <-]. exact H1.
Qed.

Lemma keeps_parsed (t : json) : keeps n (fresh n) (parsed t).
Proof.
  intros h Hn Hc. pose proof (keeps_alloc_tree t h Hn Hc) as H.
  unfold parsed. cbn [fst snd] in H. now destruct (alloc_tree t h).
Qed.

Ltac frame :=
  repeat first
    [ apply keeps_pure; intros; exact I
    | eapply keeps_run;
      [ first [ apply keeps_look; assumption
              | apply keeps_look_if_truthy; assumption
              | apply keeps_snapshot
              | apply keeps_Object_keys
              | apply keeps_pick; assumption
              | apply keeps_new_object; assumption
              | apply keeps_new_object; constructor
              | apply keeps_new_array; apply fresh_elements_of
              | apply keeps_assign; assumption
              | apply keeps_pure; intros; exact I ]
      | intros ]
    | match goal with
      | |- keeps _ _ (if ?b then _ else _) => destruct b
      end ].

Lemma keeps_filterReadOnlyProperties (schema : option value) :
  fresh_opt n schema -> keeps n (fun _ => True) (filterReadOnlyProperties schema).
Proof. intros Hs. unfold filterReadOnlyProperties. frame. Qed.

Lemma keeps_filterWriteOnlyProperties (schema : option value) :
  fresh_opt n schema -> keeps n (fun _ => True) (filterWriteOnlyProperties schema).
Proof.
  intros Hs. unfold filterWriteOnlyProperties. frame.
  eapply keeps_run with (Q := fresh_opt n).
  - match goal with |- keeps _ _ (if ?b then _ else _) => destruct b end.
    + eapply keeps_run; [apply keeps_new_array; apply fresh_elements_of|].
      intros r Hr. apply keeps_pure. intros x [= <-]. exact Hr.
    + apply keeps_pure. intros x [= <-]. assumption.
  - intros r Hr. frame. destruct r as [r|]; frame.
Qed.

Lemma keeps_parseRequestBody (requestBody : option value) :
  fresh_opt n requestBody -> keeps n (fun _ => True) (parseRequestBody requestBody).
Proof.
  intros Hr. unfold parseRequestBody. frame.
  eapply keeps_run; [now apply keeps_filterReadOnlyProperties|]. intros. frame.
Qed.

Lemma keeps_parseResponses (responseSpecList : option value) :
  fresh_opt n responseSpecList ->
  keeps n (fun _ => True) (parseResponses responseSpecList).
Proof.
  intros Hr. unfold parseResponses. frame.
  eapply keeps_run; [|intros; frame].
  apply keeps_foldM. intros acc code. unfold add_response. frame.
  eapply keeps_run with (Q := fresh_opt n).
  - match goal with |- keeps _ _ (if ?b then _ else _) => destruct b end.
    + apply keeps_pure. intros x [= <-]. assumption.
    + eapply keeps_run; [apply keeps_new_object; constructor|].
      intros e He. apply keeps_pure. intros x [= <-]. exact He.
  - intros s Hs. eapply keeps_run; [now apply keeps_filterWriteOnlyProperties|].
    intros. frame.
Qed.

Lemma keeps_parseMethods (item : option value) (handlers : registry) :
  fresh_opt n item -> keeps n (fun _ => True) (parseMethods item handlers).
Proof.
  intros Hi. unfold parseMethods. frame.
  apply keeps_mapM. intros verb. unfold parse_method. frame.
  destruct (handlers _) as [|f|]; frame.
  eapply keeps_run; [now apply keeps_parseRequestBody|]. intros. frame.
  eapply keeps_run; [now apply keeps_parseResponses|]. intros. frame.
Qed.

Lemma keeps_resolveInternalReferences (openApiSpec : value) :
  keeps n (fresh n) (resolveInternalReferences openApiSpec).
Proof.
  intros h Hn Hc. unfold resolveInternalReferences.
  destruct (read h openApiSpec) as [document|].
  - revert h Hn Hc. eapply keeps_run; [apply keeps_pure; intros; exact I|].
    intros specs _. apply keeps_parsed.
  - cbn [fst snd]. same_store. discriminate.
Qed.

Lemma keeps_routes_of_path (specs : value) (handlers : registry) (path : string) :
  fresh n specs -> keeps n (fun _ => True) (routes_of_path specs handlers path).
Proof.
  intros Hs. unfold routes_of_path. frame.
  eapply keeps_run; [now apply keeps_parseMethods|]. intros. frame.
Qed.

End StoreCalls.


(** *** Reading a document from the store *)

Section StoreReads.

Import Store.

Lemma all_some {A B : Type} (f : A -> option B) (xs : list A) (ys : list B) :
  all (map f xs) = Some ys <-> Forall2 (fun x y => f x = Some y) xs ys.
Proof.
  revert ys; induction xs as [|x xs IH]; intros ys; cbn [map all].
  - split; [intros [= <-]; constructor | intros H; now inversion H].
  - destruct (f x) as [y|] eqn:E.
    + destruct (all (map f xs)) as [ys'|] eqn:Ea; cbn [option_map].
      * split.
        -- intros [= <-]. constructor; [assumption | now apply IH].
        -- intros H. inversion H as [|? y0 ? ys0 Hy Hys]; subst.
           apply IH in Hys. congruence.
      * split; [discriminate|]. intros H. inversion H as [|? y0 ? ys0 Hy Hys]; subst.
        apply IH in Hys. discriminate.
    + split; [discriminate|]. intros H. inversion H; congruence.
Qed.

Lemma Forall2_weaken {A B : Type} (R R' : A -> B -> Prop) (xs : list A) (ys : list B) :
  Forall2 R xs ys -> (forall x y, In y ys -> R x y -> R' x y) -> Forall2 R' xs ys.
Proof.
  induction 1 as [|x y xs ys Hxy _ IH]; intros H; constructor.
  - apply H; [now left | assumption].
  - apply IH. intros x' y' Hin. apply H. now right.
Qed.

(** What a walk reads, a longer walk reads too. *)
Lemma tree_of_S (h : store) (n : nat) :
  forall v t, tree_of n h v = Some t -> tree_of (S n) h v = Some t.
Proof.
  induction n as [|n IH]; intros [| | | |l] t; try (cbn; congruence).
  cbn [tree_of]. destruct (nth_error h l) as [[xs|ms]|]; try discriminate.
  - destruct (all (map (tree_of n h) xs)) as [ts|] eqn:E; try discriminate.
    apply all_some in E. intros [= <-].
    assert (E' : all (map (tree_of (S n) h) xs) = Some ts).
    { apply all_some. eapply Forall2_weaken; [exact E|]. intros x y _. apply IH. }
    cbn [tree_of] in E'. now rewrite E'.
  - destruct (all (map _ ms)) as [ts|] eqn:E; try discriminate.
    apply all_some in E. intros [= <-].
    assert (E' : all (map (fun kv => option_map (pair (fst kv))
                                       (tree_of (S n) h (snd kv))) ms) = Some ts).
    { apply all_some. eapply Forall2_weaken; [exact E|]. intros x y _. cbv beta.
      destruct (tree_of n h (snd x)) as [t|] eqn:Et; [|cbn; discriminate].
      now rewrite (IH _ _ Et). }
    cbn [tree_of] in E'. now rewrite E'.
Qed.

Lemma tree_of_le (h : store) (n m : nat) (v : value) (t : json) :
  n <= m -> tree_of n h v = Some t -> tree_of m h v = Some t.
Proof. induction 1 as [|m _ IH]; [trivial|]. intros Ht. now apply tree_of_S, IH. Qed.

(** A walk reads the same in a store with the same cells. *)
Lemma tree_of_same_cells (h h' : store) (n : nat) :
  (forall l, l < List.length h -> nth_error h' l = nth_error h l) ->
  forall v t, tree_of n h v = Some t -> tree_of n h' v = Some t.
Proof.
  intros Hsame. induction n as [|n IH]; intros [| | | |l] t; try (cbn; congruence).
  cbn [tree_of]. destruct (nth_error h l) as [c|] eqn:El; [|discriminate].
  rewrite Hsame, El by (apply nth_error_Some; congruence).
  destruct c as [xs|ms].
  - destruct (all (map (tree_of n h) xs)) as [ts|] eqn:E; try discriminate.
    apply all_some in E. intros [= <-].
    assert (E' : all (map (tree_of n h') xs) = Some ts).
    { apply all_some. eapply Forall2_weaken; [exact E|]. intros x y _. apply IH. }
    now rewrite E'.
  - destruct (all (map _ ms)) as [ts|] eqn:E; try discriminate.
    apply all_some in E. intros [= <-].
    assert (E' : all (map (fun kv => option_map (pair (fst kv))
                                       (tree_of n h' (snd kv))) ms) = Some ts).
    { apply all_some. eapply Forall2_weaken; [exact E|]. intros x y _. cbv beta.
      destruct (tree_of n h (snd x)) as [t|] eqn:Et; [|cbn; discriminate].
      now rewrite (IH _ _ Et). }
    now rewrite E'.
Qed.

Lemma read_same_cells (h h' : store) (v : value) (t : json) :
  List.length h <= List.length h' ->
  (forall l, l < List.length h -> nth_error h' l = nth_error h l) ->
  read h v = Some t -> read h' v = Some t.
Proof.
  intros Hlen Hsame H. unfold read in *.
  apply (tree_of_le h' (S (List.length h))); [lia|].
  now apply (tree_of_same_cells h).
Qed.

Lemma json_size_element (t : json) (ts : list json) :
  In t ts -> json_size t <= list_sum (map json_size ts).
Proof.
  unfold list_sum. induction ts as [|x ts IH]; [intros []|]. cbn [map fold_right].
  intros [->|H]; [lia | specialize (IH H); lia].
Qed.

Lemma json_size_member (kv : string * json) (ms : list (string * json)) :
  In kv ms -> json_size (snd kv) <= list_sum (map (fun kv => json_size (snd kv)) ms).
Proof.
  unfold list_sum. induction ms as [|x ms IH]; [intros []|]. cbn [map fold_right].
  intros [->|H]; [lia | specialize (IH H); lia].
Qed.

(** Below a cell the walk reads without a cycle, the walk does not come
    back to the cell: what it reads there does not depend on the cell. *)
Lemma tree_of_below (h h' : store) (root : loc) (fuel : nat) (whole : json) :
  tree_of fuel h (VRef root) = Some whole ->
  (forall l, l < List.length h -> l <> root -> nth_error h' l = nth_error h l) ->
  forall n v t,
    tree_of n h v = Some t -> json_size t < json_size whole ->
    tree_of n h' v = Some t.
Proof.
  intros Hwhole Hsame. induction n as [|n IH]; intros [| | | |l] t;
    try (cbn; congruence).
  intros Ht Hsize.
  destruct (Nat.eq_dec l root) as [->|Hl].
  { exfalso.
    pose proof (tree_of_le h fuel (Nat.max fuel (S n)) _ _ (Nat.le_max_l _ _) Hwhole)
      as H1.
    pose proof (tree_of_le h (S n) (Nat.max fuel (S n)) _ _ (Nat.le_max_r _ _) Ht)
      as H2.
    rewrite H1 in H2. injection H2 as <-. lia. }
  revert Ht. cbn [tree_of].
  destruct (nth_error h l) as [c|] eqn:El; [|discriminate].
  rewrite Hsame, El by (trivial; apply nth_error_Some; congruence).
  destruct c as [xs|ms].
  - destruct (all (map (tree_of n h) xs)) as [ts|] eqn:E; try discriminate.
    apply all_some in E. intros [= <-].
    assert (E' : all (map (tree_of n h') xs) = Some ts).
    { apply all_some. eapply Forall2_weaken; [exact E|]. intros x y Hin Hy.
      apply IH; [assumption|]. pose proof (json_size_element y ts Hin).
      cbn [json_size] in Hsize. lia. }
    now rewrite E'.
  - destruct (all (map _ ms)) as [ts|] eqn:E; try discriminate.
    apply all_some in E. intros [= <-].
    assert (E' : all (map (fun kv => option_map (pair (fst kv))
                                       (tree_of n h' (snd kv))) ms) = Some ts).
    { apply all_some. eapply Forall2_weaken; [exact E|]. intros x y Hin Hy. cbv beta in Hy |- *.
      destruct (tree_of n h (snd x)) as [t|] eqn:Et; [|cbn in Hy; discriminate].
      cbn [option_map] in Hy. injection Hy as <-.
      rewrite (IH _ _ Et); [reflexivity|].
      pose proof (json_size_member _ ts Hin) as Hm. cbn [snd] in Hm.
      cbn [json_size] in Hsize. lia. }
    now rewrite E'.
Qed.

Lemma members_get_same (R : value -> json -> Prop) (ms : list (string * value))
  (doc : obj) (k : string) :
  Forall2 (same_member R) ms doc ->
  match members_get ms k, obj_get doc k with
  | Some v, Some d => R v d
  | None, None => True
  | _, _ => False
  end.
Proof.
  induction 1 as [|[k1 v1] [k2 d2] ms doc [Hk Hv] _ IH]; cbn [members_get obj_get];
    [exact I|].
  cbn [fst snd] in Hk, Hv. subst k2. now destruct (k1 =? k).
Qed.

Lemma members_set_same_member (R : value -> json -> Prop)
  (ms : list (string * value)) (doc : obj) (k : string) (v : value) (d : json) :
  Forall2 (same_member R) ms doc -> R v d ->
  Forall2 (same_member R) (members_set ms k v) (obj_set doc k d).
Proof.
  intros Hms Hvd. unfold members_set, obj_set, obj_has.
  pose proof (members_get_same R ms doc k Hms) as Hget.
  destruct (members_get ms k) as [v0|], (obj_get doc k) as [d0|]; try contradiction.
  - clear Hget.
    induction Hms as [|[k1 v1] [k2 d2] ms doc [Hk Hv] Hrest IH];
      cbn [members_replace obj_replace]; [constructor|].
    cbn [fst snd] in Hk, Hv. subst k2.
    destruct (k1 =? k); constructor; try assumption; now split.
  - clear Hget. destruct (array_index k) as [i|].
    + induction Hms as [|[k1 v1] [k2 d2] ms doc [Hk Hv] Hrest IH];
        cbn [members_insert_index obj_insert_index].
      * repeat constructor. assumption.
      * cbn [fst snd] in Hk, Hv. subst k2.
        destruct (array_index k1) as [i1|].
        -- destruct (i1 <? i)%N; repeat constructor; try assumption.
        -- repeat constructor; try assumption.
    + apply Forall2_app; [assumption|]. repeat constructor. assumption.
Qed.

End StoreReads.


Section StoreFuel.

Import Store.

Lemma seen_length (h : store) (seen : list loc) :
  NoDup seen -> (forall a, In a seen -> a < List.length h) ->
  List.length seen <= List.length h.
Proof.
  intros Hnd Hlt.
  assert (E : List.length (seq 0 (List.length h)) = List.length h)
    by apply length_seq.
  rewrite <- E. apply NoDup_incl_length; [assumption|].
  intros a Ha. apply in_seq. specialize (Hlt a Ha). lia.
Qed.

(** A walk that ends, ends within the number of the cells: the cells on a
    path of the walk are all different, since a document is not a part of
    itself. *)
Lemma tree_of_enough (h : store) (n : nat) :
  forall v t,
    tree_of n h v = Some t ->
    forall seen : list loc,
      NoDup seen ->
      (forall a, In a seen ->
         a < List.length h /\
         exists m whole,
           tree_of m h (VRef a) = Some whole /\ json_size t < json_size whole) ->
      tree_of (S (List.length h) - List.length seen) h v = Some t.
Proof.
  induction n as [|n IH]; intros [| | | |l] t Ht seen Hnd Hseen;
    try (destruct (S (List.length h) - List.length seen); cbn in Ht |- *; congruence);
    try discriminate.
  assert (Hl : l < List.length h).
  { cbn [tree_of] in Ht. apply nth_error_Some.
    destruct (nth_error h l); [discriminate | discriminate Ht]. }
  assert (Hnew : ~ In l seen).
  { intros Hin. destruct (Hseen l Hin) as (_ & m & whole & Hw & Hsize).
    pose proof (tree_of_le h m (Nat.max m (S n)) _ _ (Nat.le_max_l _ _) Hw) as H1.
    pose proof (tree_of_le h (S n) (Nat.max m (S n)) _ _ (Nat.le_max_r _ _) Ht) as H2.
    rewrite H1 in H2. injection H2 as <-. lia. }
  assert (Hnd' : NoDup (l :: seen)) by now constructor.
  assert (Hlen : List.length (l :: seen) <= List.length h).
  { apply seen_length; [assumption|]. intros a [<-|Ha]; [assumption|].
    now apply Hseen. }
  cbn [List.length] in Hlen.
  replace (S (List.length h) - List.length seen)
    with (S (S (List.length h) - List.length (l :: seen)))
    by (cbn [List.length]; unfold loc in *; lia).
  assert (Hseen' : forall t', json_size t' < json_size t ->
            forall a, In a (l :: seen) ->
              a < List.length h /\
              exists m whole,
                tree_of m h (VRef a) = Some whole /\ json_size t' < json_size whole).
  { intros t' Hsize a [<-|Ha].
    - split; [assumption|]. now exists (S n), t.
    - destruct (Hseen a Ha) as (Ha1 & m & whole & Hw & Hs).
      split; [assumption|]. exists m, whole. split; [assumption | lia]. }
  revert Ht. cbn [tree_of].
  destruct (nth_error h l) as [[xs|ms]|]; try discriminate.
  - destruct (all (map (tree_of n h) xs)) as [ts|] eqn:E; try discriminate.
    apply all_some in E. intros [= <-].
    assert (E' : all (map (tree_of (S (List.length h) - List.length (l :: seen)) h) xs)
                 = Some ts).
    { apply all_some. eapply Forall2_weaken; [exact E|]. intros x y Hin Hy.
      apply (IH _ _ Hy (l :: seen) Hnd'). apply Hseen'.
      pose proof (json_size_element y ts Hin). cbn [json_size]. lia. }
    now rewrite E'.
  - destruct (all (map _ ms)) as [ts|] eqn:E; try discriminate.
    apply all_some in E. intros [= <-].
    assert (E' : all (map (fun kv =>
                             option_map (pair (fst kv))
                               (tree_of (S (List.length h) - List.length (l :: seen))
                                  h (snd kv))) ms) = Some ts).
    { apply all_some. eapply Forall2_weaken; [exact E|]. intros x y Hin Hy.
      cbv beta in Hy |- *.
      destruct (tree_of n h (snd x)) as [t|] eqn:Et; [|cbn in Hy; discriminate].
      cbn [option_map] in Hy. injection Hy as <-.
      rewrite (IH _ _ Et (l :: seen) Hnd'); [reflexivity|]. apply Hseen'.
      pose proof (json_size_member _ ts Hin) as Hm. cbn [snd] in Hm.
      cbn [json_size]. lia. }
    now rewrite E'.
Qed.

(** [read] reads whatever a walk of any depth reads. *)
Lemma read_enough (h : store) (n : nat) (v : value) (t : json) :
  tree_of n h v = Some t -> read h v = Some t.
Proof.
  intros H. unfold read.
  pose proof (tree_of_enough h n v t H [] (NoDup_nil _)) as He.
  cbn [List.length] in He. rewrite Nat.sub_0_r in He. apply He. intros a [].
Qed.

End StoreFuel.

(** *** The call and the cells of the caller *)

Section CallerStore.

Import Store.

(** What follows the first statement leaves every cell there is as it is. *)
Lemma rest_keeps (openAPiRawSpecs : value) (handlers : registry) (h : store) :
  let rest :=
    specs <~ resolveInternalReferences openAPiRawSpecs ;;
    paths <~ look (Some specs) "paths" ;;
    pathKeys <~ Object_keys paths ;;
    routes <~ mapM (routes_of_path specs handlers) pathKeys ;;
    pure (Returned (List.concat routes)) in
  forall l, l < List.length h -> nth_error (snd (rest h)) l = nth_error h l.
Proof.
  intros rest.
  assert (Hk : keeps (List.length h) (fun _ => True) rest).
  { subst rest. eapply keeps_run; [apply keeps_resolveInternalReferences|].
    intros specs Hs. eapply keeps_run; [now apply keeps_look|]. intros paths Hp.
    eapply keeps_run; [apply keeps_Object_keys|]. intros pathKeys _.
    eapply keeps_run.
    - apply keeps_mapM. intros path. now apply keeps_routes_of_path.
    - intros routes _. apply keeps_pure. trivial. }
  apply (Hk h (le_n _)).
  intros l c Hl E. exfalso.
  assert (l < List.length h) by (apply nth_error_Some; congruence). lia.
Qed.

(** The store after the first statement. *)
Lemma first_statement (h : store) (root : loc) (ms : list (string * value))
  (handlers : registry) :
  nth_error h root = Some (CObj ms) ->
  exists h1,
    (if truthy (members_get ms "components") then h1 = h
     else h1 = update (h ++ [CObj []])%list root
                 (CObj (members_set ms "components" (VRef (List.length h))))) /\
    (forall l, l < List.length h1 ->
       nth_error (snd (routesFromOpenApiSpecs (VRef root) handlers h)) l =
       nth_error h1 l).
Proof.
  intros Hroot. unfold routesFromOpenApiSpecs.
  unfold run at 1. unfold look at 1. cbn [get]. rewrite Hroot.
  destruct (members_get ms "components") as [c|] eqn:Ec.
  - destruct (truthy (Some c)) eqn:Et.
    + exists h. split; [reflexivity|].
      unfold run at 1. cbn [pure]. unfold run at 1. unfold assign at 1.
      rewrite Hroot, (members_set_same ms "components" c Ec), (update_same h root _ Hroot).
      apply rest_keeps.
    + eexists. split; [reflexivity|].
      unfold run at 1. cbn [new_object]. unfold run at 1. unfold assign at 1.
      rewrite nth_error_app1, Hroot by (apply nth_error_Some; congruence).
      apply rest_keeps.
  - cbn [truthy]. eexists. split; [reflexivity|].
    unfold run at 1. cbn [new_object]. unfold run at 1. unfold assign at 1.
    rewrite nth_error_app1, Hroot by (apply nth_error_Some; congruence).
    apply rest_keeps.
Qed.

End CallerStore.

(** C9, as stated, fails on a document without [components]: after the
    call the caller's document has one more property. *)
Lemma components_added_to_caller :
  Store.read (snd (Store.alloc_tree (JObj [("paths", JObj [])]) []))
    (fst (Store.alloc_tree (JObj [("paths", JObj [])]) [])) =
  Some (JObj [("paths", JObj [])]) /\
  Store.read
    (snd (Store.routesFromOpenApiSpecs
            (fst (Store.alloc_tree (JObj [("paths", JObj [])]) []))
            (fun _ => HUndefined)
            (snd (Store.alloc_tree (JObj [("paths", JObj [])]) []))))
    (fst (Store.alloc_tree (JObj [("paths", JObj [])]) [])) =
  Some (JObj [("paths", JObj []); ("components", JObj [])]) /\
  Store.read
    (snd (Store.routesFromOpenApiSpecs
            (fst (Store.alloc_tree (JObj [("paths", JObj [])]) []))
            (fun _ => HUndefined)
            (snd (Store.alloc_tree (JObj [("paths", JObj [])]) []))))
    (fst (Store.alloc_tree (JObj [("paths", JObj [])]) [])) <>
  Store.read (snd (Store.alloc_tree (JObj [("paths", JObj [])]) []))
    (fst (Store.alloc_tree (JObj [("paths", JObj [])]) [])).
Proof. vm_compute. repeat split; discriminate. Qed.

(** C9, amended: the call writes to one object of the caller, the document
    itself, and to one property of it.  When [components] is truthy the
    document is left as it was: every cell of the caller is as before, so
    whatever the caller reads from its store reads the same.  When
    [components] is absent or falsy it is set to a new empty object, and
    the document reads as before with that one property set.  Every other
    write of the call, the assignments of the filters to [schema.items]
    included, is to a cell made after the call began. *)
Theorem caller_document_after_call (h : Store.store) (root : Store.loc)
  (ms : list (string * Store.value)) (handlers : registry) :
  nth_error h root = Some (Store.CObj ms) ->
  let components := Store.members_get ms "components" in
  let after := snd (Store.routesFromOpenApiSpecs (Store.VRef root) handlers h) in
  (forall l, l < List.length h -> l <> root -> nth_error after l = nth_error h l) /\
  (Store.truthy components = true ->
   nth_error after root = Some (Store.CObj ms) /\
   forall v t, Store.read h v = Some t -> Store.read after v = Some t) /\
  (Store.truthy components = false ->
   nth_error after root =
     Some (Store.CObj
             (Store.members_set ms "components" (Store.VRef (List.length h)))) /\
   nth_error after (List.length h) = Some (Store.CObj []) /\
   forall doc,
     Store.read h (Store.VRef root) = Some (JObj doc) ->
     Store.read after (Store.VRef root) =
     Some (JObj (obj_set doc "components" (JObj [])))).
Proof.
  intros Hroot components after.
  assert (Hlt : root < List.length h) by (apply nth_error_Some; congruence).
  destruct (first_statement h root ms handlers Hroot) as (h1 & Hh1 & Hrest).
  fold after in Hrest. fold components in Hh1.
  assert (Hlen : List.length h1 <= List.length after).
  { destruct (Nat.le_gt_cases (List.length h1) (List.length after)) as [H|H];
      [exact H|]. exfalso.
    assert (Hl : List.length after < List.length h1) by exact H.
    specialize (Hrest _ Hl).
    assert (nth_error after (List.length after) = None) by (apply nth_error_None; lia).
    assert (nth_error h1 (List.length after) <> None) by (apply nth_error_Some; lia).
    congruence. }
  destruct (Store.truthy components) eqn:Et.
  - subst h1. split; [|split; [|discriminate]].
    + intros l Hl _. now apply Hrest.
    + intros _. split; [now rewrite Hrest|].
      intros v t. now apply read_same_cells.
  - assert (Hl1 : List.length h1 = S (List.length h)).
    { subst h1. rewrite length_update, length_app. cbn [List.length]. lia. }
    assert (Hcell : forall l, l < List.length h -> l <> root ->
                      nth_error after l = nth_error h l).
    { intros l Hl Hne. rewrite Hrest by lia. subst h1.
      rewrite nth_error_update. destruct (Nat.eqb_spec root l); [congruence|].
      now apply nth_error_app1. }
    assert (Hnew : nth_error after root =
                   Some (Store.CObj
                           (Store.members_set ms "components"
                              (Store.VRef (List.length h))))).
    { rewrite Hrest by lia. subst h1. rewrite nth_error_update, Nat.eqb_refl.
      now rewrite nth_error_app1, Hroot. }
    assert (Hempty : nth_error after (List.length h) = Some (Store.CObj [])).
    { rewrite Hrest by lia. subst h1. rewrite nth_error_update.
      destruct (Nat.eqb_spec root (List.length h)); [lia|].
      now rewrite nth_error_app2, Nat.sub_diag by lia. }
    split; [exact Hcell|]. split; [discriminate|]. intros _.
    split; [exact Hnew|]. split; [exact Hempty|].
    intros doc Hdoc. unfold Store.read in *.
    pose proof Hdoc as Hmembers. cbn [Store.tree_of] in Hmembers.
    rewrite Hroot in Hmembers.
    destruct (Store.all _) as [doc'|] eqn:E; [|discriminate].
    cbn [option_map] in Hmembers. injection Hmembers as ->.
    apply all_some in E.
    set (n := List.length after) in *.
    assert (Hn : List.length h < n) by lia.
    assert (Hms : Forall2
                    (Store.same_member (fun v d => Store.tree_of n after v = Some d))
                    ms doc).
    { eapply Forall2_weaken; [exact E|]. intros [k v] [k' d] Hin Hkv.
      cbv beta in Hkv. cbn [fst snd] in Hkv.
      destruct (Store.tree_of (List.length h) h v) as [t|] eqn:Ev;
        [|cbn in Hkv; discriminate].
      cbn [option_map] in Hkv. injection Hkv as -> ->.
      split; [reflexivity|]. cbn [snd].
      apply (tree_of_le after (List.length h)); [lia|].
      apply (tree_of_below h after root _ _ Hdoc Hcell _ _ _ Ev).
      pose proof (json_size_member _ doc Hin) as Hsize. cbn [snd] in Hsize.
      cbn [Store.json_size]. lia. }
    assert (Hnew_member : Store.tree_of n after (Store.VRef (List.length h))
                          = Some (JObj [])).
    { destruct n as [|n']; [lia|]. cbn [Store.tree_of]. now rewrite Hempty. }
    pose proof (members_set_same_member _ ms doc "components"
                  (Store.VRef (List.length h)) (JObj []) Hms Hnew_member) as Hset.
    cbn [Store.tree_of]. fold n. rewrite Hnew.
    assert (Eall : Store.all
                     (map (fun kv => option_map (pair (fst kv))
                                       (Store.tree_of n after (snd kv)))
                        (Store.members_set ms "components"
                           (Store.VRef (List.length h)))) =
                   Some (obj_set doc "components" (JObj []))).
    { apply all_some. eapply Forall2_weaken; [exact Hset|].
      intros [k v] [k' d] _ [Hk Hv]. cbn [fst snd] in *. subst k'.
      now rewrite Hv. }
    now rewrite Eall.
Qed.

Lemma caller_document_after_call_witness :
  (forall l, l < List.length listing_store -> l <> listing_root ->
     nth_error
       (snd (Store.routesFromOpenApiSpecs (Store.VRef listing_root) listing_handlers
               listing_store)) l =
     nth_error listing_store l) /\
  Store.read
    (snd (Store.routesFromOpenApiSpecs (Store.VRef listing_root) listing_handlers
            listing_store))
    (Store.VRef listing_root) =
  Some (JObj (obj_set listing_doc "components" (JObj []))) /\
  nth_error
    (snd (Store.routesFromOpenApiSpecs (Store.VRef listing_root) listing_handlers
            listing_store)) 19 =
  Some (Store.CObj [("properties", Store.VRef 30); ("required", Store.VRef 31)]) /\
  fst (Store.routesFromOpenApiSpecs (Store.VRef listing_root) listing_handlers
         listing_store) =
  routesFromOpenApiSpecs listing_doc listing_handlers.
Proof.
  destruct (caller_document_after_call listing_store listing_root
              [("paths", Store.VRef 12)] listing_handlers eq_refl)
    as (Hcells & _ & Hfalsy).
  split; [exact Hcells|]. split; [|split].
  - destruct (Hfalsy eq_refl) as (_ & _ & Hdoc). apply Hdoc.
    vm_compute. reflexivity.
  - vm_compute. reflexivity.
  - vm_compute. reflexivity.
Defined.

(** ** The parameter mapper *)

Lemma obj_get_replace (o : obj) (k k' : string) (v : json) :
  obj_get o k <> None ->
  obj_get (obj_replace o k v) k' = if k =? k' then Some v else obj_get o k'.
Proof.
  induction o as [|[k1 v1] o IH]; simpl; [congruence|].
  destruct (String.eqb_spec k1 k) as [->|Hk]; intros H; simpl.
  - destruct (String.eqb_spec k k'); reflexivity.
  - rewrite IH by assumption.
    destruct (String.eqb_spec k1 k') as [->|]; [|reflexivity].
    destruct (String.eqb_spec k k'); congruence.
Qed.

Lemma obj_get_app (o : obj) (k k' : string) (v : json) :
  obj_get o k = None ->
  obj_get (o ++ [(k, v)])%list k' = if k =? k' then Some v else obj_get o k'.
Proof.
  induction o as [|[k1 v1] o IH]; simpl; [intros _; now destruct (k =? k')|].
  destruct (String.eqb_spec k1 k) as [->|Hk]; [discriminate|]. intros H.
  rewrite IH by assumption.
  destruct (String.eqb_spec k1 k') as [->|]; [|reflexivity].
  destruct (String.eqb_spec k k'); congruence.
Qed.

Lemma obj_get_insert_index (n : N) (o : obj) (k k' : string) (v : json) :
  obj_get o k = None ->
  obj_get (obj_insert_index n k v o) k' = if k =? k' then Some v else obj_get o k'.
Proof.
  induction o as [|[k1 v1] o IH]; simpl; [intros _; now destruct (k =? k')|].
  destruct (String.eqb_spec k1 k) as [->|Hk]; [discriminate|]. intros H.
  assert (Hhere : obj_get ((k, v) :: (k1, v1) :: o) k' =
                  if k =? k' then Some v else obj_get ((k1, v1) :: o) k') by reflexivity.
  destruct (array_index k1) as [n1|]; [|exact Hhere].
  destruct (n1 <? n)%N; [|exact Hhere].
  simpl. rewrite IH by assumption.
  destruct (String.eqb_spec k1 k') as [->|]; [|reflexivity].
  destruct (String.eqb_spec k k'); congruence.
Qed.

(** Reading after [o[k] = v]. *)
Lemma obj_get_set (o : obj) (k k' : string) (v : json) :
  obj_get (obj_set o k v) k' = if k =? k' then Some v else obj_get o k'.
Proof.
  unfold obj_set, obj_has. destruct (obj_get o k) eqn:E.
  - apply obj_get_replace. congruence.
  - destruct (array_index k); [now apply obj_get_insert_index | now apply obj_get_app].
Qed.

Lemma find_app {A : Type} (f : A -> bool) (l1 l2 : list A) :
  find f (l1 ++ l2) = match find f l1 with Some x => Some x | None => find f l2 end.
Proof.
  induction l1 as [|x l1 IH]; simpl; [reflexivity|]. now destruct (f x).
Qed.

Lemma last_schema_cons (p : json) (params : list json) (loc name : string) :
  last_schema (p :: params) loc name =
  match last_schema params loc name with
  | Some s => Some s
  | None => if declares loc name p then Some (schema_copy p) else None
  end.
Proof.
  unfold last_schema. simpl. rewrite find_app. simpl.
  destruct (find (declares loc name) (rev params)); [reflexivity|].
  now destruct (declares loc name p).
Qed.

Lemma add_parameter_returns (acc : obj) (param : json) :
  param <> JNull ->
  (forall loc g, obj_get acc loc = Some g -> exists props, g = JObj props) ->
  exists out,
    add_parameter acc param = Returned out /\
    (forall loc g, obj_get out loc = Some g -> exists props, g = JObj props) /\
    (forall loc, obj_has out loc = (location_of param =? loc) || obj_has acc loc) /\
    (forall loc name,
       stored out loc name =
       if declares loc name param then Some (schema_copy param)
       else stored acc loc name).
Proof.
  intros Hnn Hobj.
  assert (Hget : forall k, get_prop (Some param) k = Returned (js_get param k)).
  { intros k. destruct param; congruence || reflexivity. }
  unfold add_parameter. rewrite !Hget. cbn [bind].
  fold (location_of param). fold (name_of param). fold (schema_copy param).
  set (key := location_of param). set (name := name_of param).
  set (acc1 := if truthy (obj_get acc key) then acc else obj_set acc key (JObj [])).
  assert (H1 : exists props, obj_get acc1 key = Some (JObj props) /\
                 props = own_props (obj_get acc key)).
  { subst acc1. destruct (obj_get acc key) as [g|] eqn:E.
    - destruct (Hobj _ _ E) as [props ->]. simpl. rewrite E. now exists props.
    - simpl. rewrite obj_get_set, String.eqb_refl. now exists []. }
  destruct H1 as (props & H1 & Hprops).
  assert (Hother : forall loc, (key =? loc) = false -> obj_get acc1 loc = obj_get acc loc).
  { intros loc Hl. subst acc1. destruct (truthy (obj_get acc key)); [reflexivity|].
    now rewrite obj_get_set, Hl. }
  eexists. split; [reflexivity|]. rewrite H1. cbn [own_props obj_merge fold_left fst snd].
  split; [|split].
  - intros loc g. rewrite obj_get_set. destruct (key =? loc) eqn:El.
    + intros [= <-]. eexists; reflexivity.
    + rewrite Hother by assumption. apply Hobj.
  - intros loc. unfold obj_has. rewrite obj_get_set. destruct (key =? loc) eqn:El; [reflexivity|].
    now rewrite Hother.
  - intros loc name'. unfold stored, declares. fold key. fold name.
    rewrite obj_get_set.
    destruct (String.eqb_spec key loc) as [<-|El]; cbn [andb].
    + cbn [own_props]. rewrite obj_get_set, Hprops.
      destruct (name =? name'); [reflexivity|].
      now destruct (obj_get acc key).
    + rewrite Hother; [reflexivity|]. now apply String.eqb_neq.
Qed.

Lemma fold_parameters (params : list json) :
  Forall (fun p => p <> JNull) params ->
  forall acc,
    (forall loc g, obj_get acc loc = Some g -> exists props, g = JObj props) ->
    exists out,
      foldM add_parameter params acc = Returned out /\
      (forall loc g, obj_get out loc = Some g -> exists props, g = JObj props) /\
      (forall loc, obj_has out loc =
                   existsb (fun p => location_of p =? loc) params || obj_has acc loc) /\
      (forall loc name,
         stored out loc name =
         match last_schema params loc name with
         | Some s => Some s
         | None => stored acc loc name
         end).
Proof.
  induction 1 as [|p params Hp Hps IH]; intros acc Hobj.
  - exists acc. repeat split; auto.
  - destruct (add_parameter_returns acc p Hp Hobj) as (acc' & E & Hobj' & Hhas & Hst).
    destruct (IH acc' Hobj') as (out & Eo & Hobjo & Hhaso & Hsto).
    exists out. cbn [foldM]. rewrite E. cbn [bind]. split; [exact Eo|].
    split; [exact Hobjo|]. split.
    + intros loc. rewrite Hhaso, Hhas. cbn [existsb].
      destruct (location_of p =? loc), (existsb _ params); reflexivity.
    + intros loc name. rewrite Hsto, Hst, last_schema_cons.
      destruct (last_schema params loc name); [reflexivity|].
      now destruct (declares loc name p).
Qed.

Lemma obj_get_map_values (f : json -> json) (o : obj) (k : string) :
  obj_get (map (fun kv => (fst kv, f (snd kv))) o) k = option_map f (obj_get o k).
Proof.
  induction o as [|[k1 v1] o IH]; simpl; [reflexivity|].
  now destruct (k1 =? k).
Qed.



(** ** Calls that never end the process *)

Lemma never_exits_bind {A B : Type} (m : outcome A) (k : A -> outcome B) :
  never_exits m -> (forall x, never_exits (k x)) -> never_exits (bind m k).
Proof.
  intros Hm Hk d. destruct m as [x| |d'|]; cbn [bind]; try discriminate.
  - apply Hk.
  - intros _. now apply (Hm d').
Qed.

Lemma never_exits_foldM {A B : Type} (f : B -> A -> outcome B) (xs : list A) (acc : B) :
  (forall acc x, never_exits (f acc x)) -> never_exits (foldM f xs acc).
Proof.
  intros Hf. revert acc; induction xs as [|x xs IH]; intros acc; cbn [foldM].
  - discriminate.
  - apply never_exits_bind; [apply Hf | intros acc'; apply IH].
Qed.

Lemma never_exits_filterM {A : Type} (f : A -> outcome bool) (xs : list A) :
  (forall x, never_exits (f x)) -> never_exits (filterM f xs).
Proof.
  intros Hf. induction xs as [|x xs IH]; cbn [filterM]; [discriminate|].
  apply never_exits_bind; [apply Hf | intros keep].
  apply never_exits_bind; [apply IH | discriminate].
Qed.

Lemma never_exits_get_prop (v : option json) (k : string) : never_exits (get_prop v k).
Proof. destruct v as [[]|]; discriminate. Qed.

Lemma never_exits_Object_keys (v : option json) : never_exits (Object_keys v).
Proof. destruct v as [[]|]; discriminate. Qed.

Lemma never_exits_JSON_parse (t : string) : never_exits (JSON_parse t).
Proof.
  intros d. unfold JSON_parse, finish.
  destruct (settle _) as [[|fr st] []| |]; discriminate.
Qed.

Create HintDb quiet.

#[local] Hint Resolve never_exits_get_prop never_exits_Object_keys
  never_exits_JSON_parse : quiet.

Ltac quiet :=
  repeat first
    [ solve [auto 1 with quiet nocore]
    | apply never_exits_bind; [|intro]
    | apply never_exits_foldM; intros
    | apply never_exits_filterM; intros
    | match goal with
      | |- never_exits (if ?b then _ else _) => destruct b
      | |- never_exits (match ?x with _ => _ end) => destruct x
      | |- never_exits (Returned _) => discriminate
      | |- never_exits (Thrown _) => discriminate
      | |- never_exits Unmodelled => discriminate
      end ].

Lemma never_exits_filterReadOnlyProperties (schema : option json) :
  never_exits (filterReadOnlyProperties schema).
Proof.
  unfold filterReadOnlyProperties, filter_target, unflagged_keys, pick_properties,
    filter_required, set_in_items, parse_opt.
  quiet.
Qed.

Lemma never_exits_filterWriteOnlyProperties (schema : option json) :
  never_exits (filterWriteOnlyProperties schema).
Proof.
  unfold filterWriteOnlyProperties, filter_target, unflagged_keys, pick_properties,
    filter_required, set_in_items, parse_opt.
  quiet.
Qed.

#[local] Hint Resolve never_exits_filterReadOnlyProperties
  never_exits_filterWriteOnlyProperties : quiet.

Lemma never_exits_parseParameters (parameterArray : option json) :
  never_exits (parseParameters parameterArray).
Proof. unfold parseParameters. quiet. unfold add_parameter. quiet. Qed.

Lemma never_exits_parseRequestBody (requestBody : option json) :
  never_exits (parseRequestBody requestBody).
Proof. unfold parseRequestBody. quiet. Qed.

Lemma never_exits_parseResponses (responseSpecList : option json) :
  never_exits (parseResponses responseSpecList).
Proof.
  unfold parseResponses. quiet. unfold add_response. quiet.
Qed.

Lemma never_exits_concat (a b : json) : never_exits (concat a b).
Proof. destruct a; discriminate. Qed.

#[local] Hint Resolve never_exits_parseParameters never_exits_parseRequestBody
  never_exits_parseResponses never_exits_concat : quiet.

(** ** The method compiler *)

Lemma mapM_returned {A B : Type} (f : A -> outcome B) (xs : list A) (ys : list B) :
  mapM f xs = Returned ys -> Forall2 (fun x y => f x = Returned y) xs ys.
Proof.
  revert ys; induction xs as [|x xs IH]; intros ys; simpl.
  - intros [= <-]. constructor.
  - destruct (f x) as [y| | |] eqn:E; try discriminate. simpl.
    destruct (mapM f xs) as [ys'| | |]; try discriminate. simpl.
    intros [= <-]. constructor; auto.
Qed.

Lemma mapM_stops {A B : Type} (f : A -> outcome B) (before after : list A) (x : A)
  (d : diagnostic) :
  Forall (fun v => exists r, f v = Returned r) before ->
  f x = Exited d ->
  mapM f (before ++ x :: after) = Exited d.
Proof.
  induction 1 as [|v before [r Hr] _ IH]; intros Hx; simpl.
  - now rewrite Hx.
  - rewrite Hr. simpl. now rewrite IH.
Qed.

Lemma Forall2_nth {A B : Type} (R : A -> B -> Prop) (xs : list A) (ys : list B) :
  Forall2 R xs ys ->
  forall n x, nth_error xs n = Some x -> exists y, nth_error ys n = Some y /\ R x y.
Proof.
  induction 1 as [|x0 y0 xs ys H0 _ IH]; intros [|n] x; simpl; try discriminate.
  - intros [= <-]. now exists y0.
  - apply IH.
Qed.

Lemma parseMethods_unfold (item : json) (handlers : registry) :
  item <> JNull ->
  parseMethods (Some item) handlers =
  mapM (parse_method (Some item) handlers (or_empty_array (js_get item "parameters")))
    (verbs_of item).
Proof. intros H. destruct item; congruence || reflexivity. Qed.

Lemma verbs_not_null (item : json) (verb : string) : In verb (verbs_of item) -> item <> JNull.
Proof. intros H ->. exact H. Qed.

(** What a returned proto-route is made of. *)
Lemma parse_method_returned (item operation : json) (handlers : registry)
  (globalParameters : json) (verb : string) (route : protoRoute) :
  js_get item verb = Some operation ->
  parse_method (Some item) handlers globalParameters verb = Returned route ->
  exists id key f allParameters params body response,
    js_get operation "operationId" = Some (JStr id) /\
    key = lower_first id /\
    handlers key = HFunction f /\
    concat (or_empty_array (js_get operation "parameters")) globalParameters =
      Returned allParameters /\
    parseParameters allParameters = Returned params /\
    parseRequestBody (js_get operation "requestBody") = Returned body /\
    parseResponses (js_get operation "responses") = Returned response /\
    route = {| method := toUpperCase verb;
               schema := obj_merge (obj_merge params body) response;
               handler := f |}.
Proof.
  intros Hop. unfold parse_method.
  assert (Hi : get_prop (Some item) verb = Returned (Some operation)).
  { destruct item; try discriminate; simpl; now rewrite <- Hop. }
  rewrite Hi. cbn [bind].
  destruct operation; try discriminate; cbn [get_prop bind];
    match goal with
    | |- context [createCamelCaseFromStr ?i] => destruct i as [[| | |id| |]|]; try discriminate
    end; cbn [createCamelCaseFromStr bind]; fold (lower_first id);
    destruct (handlers (lower_first id)) as [|f|] eqn:Eh; try discriminate;
    match goal with
    | |- context [concat ?l ?g] => destruct (concat l g) as [allParameters| | |] eqn:Ec; try discriminate
    end; cbn [bind];
    destruct (parseParameters allParameters) as [params| | |] eqn:Ep; try discriminate; cbn [bind];
    match goal with
    | |- context [parseRequestBody ?b] => destruct (parseRequestBody b) as [body| | |] eqn:Eb; try discriminate
    end; cbn [bind];
    match goal with
    | |- context [parseResponses ?r] => destruct (parseResponses r) as [response| | |] eqn:Er; try discriminate
    end; cbn [bind];
    intros [= <-]; exists id, (lower_first id), f, allParameters, params, body, response;
    repeat split; assumption.
Qed.

Lemma parse_method_absent (item operation : json) (handlers : registry)
  (globalParameters : json) (verb id : string) :
  js_get item verb = Some operation ->
  js_get operation "operationId" = Some (JStr id) ->
  (forall f, handlers (lower_first id) <> HFunction f) ->
  parse_method (Some item) handlers globalParameters verb =
  Exited (AbsentHandler (lower_first id)).
Proof.
  intros Hop Hid Hno. unfold parse_method.
  assert (Hi : get_prop (Some item) verb = Returned (Some operation)).
  { destruct item; try discriminate; simpl; now rewrite <- Hop. }
  assert (Ho : get_prop (Some operation) "operationId" = Returned (Some (JStr id))).
  { destruct operation; try discriminate; simpl; now rewrite <- Hid. }
  rewrite Hi. cbn [bind]. rewrite Ho. cbn [bind createCamelCaseFromStr].
  fold (lower_first id). destruct (handlers (lower_first id)) as [|f|] eqn:E;
    [reflexivity | now destruct (Hno f) | reflexivity].
Qed.

Lemma skipn_after {A : Type} (l1 l2 : list A) (x : A) :
  skipn (S (List.length l1)) (l1 ++ x :: l2) = l2.
Proof. induction l1 as [|y l1 IH]; [reflexivity | exact IH]. Qed.

Lemma mapM_all_returned {A B : Type} (f : A -> outcome B) (xs : list A) :
  Forall (fun v => exists r, f v = Returned r) xs -> exists ys, mapM f xs = Returned ys.
Proof.
  induction 1 as [|v xs [r Hr] _ [ys IH]]; cbn [mapM].
  - now exists [].
  - rewrite Hr. cbn [bind]. rewrite IH. cbn [bind]. now exists (r :: ys).
Qed.

(** With a function under the name, compiling a method is compiling its
    parameters, its request body and its responses. *)
Lemma parse_method_present (item operation : json) (handlers : registry)
  (globalParameters : json) (verb id : string) (f : nat) :
  js_get item verb = Some operation ->
  js_get operation "operationId" = Some (JStr id) ->
  handlers (lower_first id) = HFunction f ->
  parse_method (Some item) handlers globalParameters verb =
  (allParameters <-
     concat (or_empty_array (js_get operation "parameters")) globalParameters ;;
   params <- parseParameters allParameters ;;
   body <- parseRequestBody (js_get operation "requestBody") ;;
   response <- parseResponses (js_get operation "responses") ;;
   Returned {| method := toUpperCase verb;
               schema := obj_merge (obj_merge params body) response;
               handler := f |}).
Proof.
  intros Hop Hid Hf. unfold parse_method.
  assert (Hi : get_prop (Some item) verb = Returned (Some operation)).
  { destruct item; try discriminate; simpl; now rewrite <- Hop. }
  assert (Hg : forall k, get_prop (Some operation) k = Returned (js_get operation k)).
  { intros k. destruct operation; try discriminate; reflexivity. }
  rewrite Hi. cbn [bind]. rewrite !Hg. cbn [bind]. rewrite Hid.
  cbn [createCamelCaseFromStr bind]. fold (lower_first id). rewrite Hf.
  destruct (concat _ globalParameters) as [allParameters| | |]; try reflexivity.
  cbn [bind]. destruct (parseParameters allParameters); reflexivity.
Qed.

(** C4: for a method of a path item, the handler is looked up under the
    [operationId] with its first code unit in lower case.  Without a
    function there, compiling the method ends the process with the report
    that names the operation; no list of routes is returned for the path,
    and the report is the one of this method when the methods before it
    compile.  With a function there, compiling the method never ends the
    process: it returns the route with that function as handler and the
    method in upper case as soon as the parameters, the request body and
    the responses of the operation compile, the list of the path has this
    route at the place of the method when the other methods compile too,
    and any list of routes returned has such a route at that place. *)
Theorem handler_bound_by_name (item operation : json) (handlers : registry)
  (verb id : string) (n : nat) :
  nth_error (verbs_of item) n = Some verb ->
  js_get item verb = Some operation ->
  js_get operation "operationId" = Some (JStr id) ->
  let key := lower_first id in
  let compile :=
    parse_method (Some item) handlers (or_empty_array (js_get item "parameters")) in
  createCamelCaseFromStr (Some (JStr id)) = Returned key /\
  ((forall f, handlers key <> HFunction f) ->
     compile verb = Exited (AbsentHandler key) /\
     reported (compile verb) = Some MissingHandlerError /\
     message (AbsentHandler key) =
       "!!! The handler " ++ key ++
       " is absent. Implement the handler before trying to start the service" /\
     (forall routes, parseMethods (Some item) handlers <> Returned routes) /\
     (Forall (fun v => exists r, compile v = Returned r) (firstn n (verbs_of item)) ->
      parseMethods (Some item) handlers = Exited (AbsentHandler key))) /\
  (forall f,
     handlers key = HFunction f ->
     never_exits (compile verb) /\
     (forall allParameters params body response,
        concat (or_empty_array (js_get operation "parameters"))
          (or_empty_array (js_get item "parameters")) = Returned allParameters ->
        parseParameters allParameters = Returned params ->
        parseRequestBody (js_get operation "requestBody") = Returned body ->
        parseResponses (js_get operation "responses") = Returned response ->
        let route := {| method := toUpperCase verb;
                        schema := obj_merge (obj_merge params body) response;
                        handler := f |} in
        compile verb = Returned route /\
        (Forall (fun v => exists r, compile v = Returned r)
           (firstn n (verbs_of item) ++ skipn (S n) (verbs_of item)) ->
         exists routes,
           parseMethods (Some item) handlers = Returned routes /\
           nth_error routes n = Some route)) /\
     (forall routes,
        parseMethods (Some item) handlers = Returned routes ->
        exists route,
          nth_error routes n = Some route /\
          method route = toUpperCase verb /\ handler route = f)).
Proof.
  intros Hn Hop Hid key compile.
  assert (Hin : In verb (verbs_of item)) by (eapply nth_error_In; eassumption).
  pose proof (parseMethods_unfold item handlers (verbs_not_null _ _ Hin)) as Hpm.
  fold compile in Hpm.
  split; [reflexivity|]. split.
  - intros Hno.
    pose proof (parse_method_absent item operation handlers
                  (or_empty_array (js_get item "parameters")) verb id Hop Hid Hno) as Hab.
    fold compile in Hab. fold key in Hab. rewrite Hab.
    split; [reflexivity|]. split; [reflexivity|]. split; [reflexivity|]. split.
    + intros routes Hr. rewrite Hpm in Hr. apply mapM_returned in Hr.
      destruct (Forall2_nth _ _ _ Hr n verb Hn) as (route & _ & Hroute). congruence.
    + intros Hbefore. rewrite Hpm.
      destruct (nth_error_split _ _ Hn) as (l1 & l2 & Hsplit & Hlen).
      rewrite Hsplit in Hbefore |- *. rewrite <- Hlen in Hbefore.
      rewrite firstn_app, firstn_all, Nat.sub_diag in Hbefore.
      cbn [firstn] in Hbefore. rewrite app_nil_r in Hbefore.
      now apply mapM_stops.
  - intros f Hf.
    pose proof (parse_method_present item operation handlers
                  (or_empty_array (js_get item "parameters")) verb id f Hop Hid Hf)
      as Hpresent.
    fold compile in Hpresent. split; [|split].
    + rewrite Hpresent. quiet.
    + intros allParameters params body response Hc Hp Hb Hs route.
      assert (Hroute : compile verb = Returned route).
      { rewrite Hpresent, Hc. cbn [bind]. rewrite Hp. cbn [bind]. rewrite Hb.
        cbn [bind]. rewrite Hs. reflexivity. }
      split; [exact Hroute|]. intros Hothers. rewrite Hpm.
      destruct (nth_error_split _ _ Hn) as (l1 & l2 & Hsplit & Hlen).
      assert (Hall : Forall (fun v => exists r, compile v = Returned r) (verbs_of item)).
      { rewrite Hsplit in Hothers |- *. rewrite <- Hlen in Hothers.
        rewrite firstn_app, firstn_all, Nat.sub_diag in Hothers.
        cbn [firstn] in Hothers. rewrite app_nil_r in Hothers.
        rewrite skipn_after in Hothers.
        apply Forall_app in Hothers as [H1 H2].
        apply Forall_app. split; [exact H1|]. constructor; [|exact H2].
        now exists route. }
      destruct (mapM_all_returned _ _ Hall) as [routes Hr].
      exists routes. split; [exact Hr|].
      apply mapM_returned in Hr.
      destruct (Forall2_nth _ _ _ Hr n verb Hn) as (route' & Hnth & Hroute').
      congruence.
    + intros routes Hr. rewrite Hpm in Hr. apply mapM_returned in Hr.
      destruct (Forall2_nth _ _ _ Hr n verb Hn) as (route & Hnth & Hroute).
      exists route. split; [assumption|].
      destruct (parse_method_returned _ _ _ _ _ _ Hop Hroute)
        as (id' & key' & f' & a & p & b & r & Hid' & -> & Hf' & _ & _ & _ & _ & ->).
      rewrite Hid in Hid'. injection Hid' as <-. fold key in Hf'.
      cbn [method handler]. split; congruence.
Qed.

Lemma handler_bound_by_name_witness :
  parseMethods (Some document_item) no_handlers = Exited (AbsentHandler "getDocument") /\
  exists routes,
    parseMethods (Some document_item) document_handlers = Returned routes /\
    nth_error routes 0 =
    Some {| method := "GET";
            schema :=
              [("params",
                JObj [("type", JStr "object");
                      ("properties", JObj [("id", JObj [("type", JStr "integer")])])])];
            handler := 7 |}.
Proof.
  split.
  - destruct (handler_bound_by_name document_item
                (JObj [("operationId", JStr "GetDocument");
                       ("parameters", JArr [id_parameter "path" "string"]);
                       ("responses", JObj [])])
                no_handlers "get" "GetDocument" 0 eq_refl eq_refl eq_refl)
      as (_ & Habsent & _).
    assert (Hno : forall f, no_handlers (lower_first "GetDocument") <> HFunction f)
      by (intros f; discriminate).
    destruct (Habsent Hno) as (_ & _ & _ & _ & Hall).
    apply Hall. constructor.
  - destruct (handler_bound_by_name document_item
                (JObj [("operationId", JStr "GetDocument");
                       ("parameters", JArr [id_parameter "path" "string"]);
                       ("responses", JObj [])])
                document_handlers "get" "GetDocument" 0 eq_refl eq_refl eq_refl)
      as (_ & _ & Hbound).
    destruct (Hbound 7 eq_refl) as (_ & Hemit & _).
    destruct (Hemit (Some (JArr [id_parameter "path" "string";
                                 id_parameter "path" "integer"]))
                [("params",
                  JObj [("type", JStr "object");
                        ("properties", JObj [("id", JObj [("type", JStr "integer")])])])]
                [] [] eq_refl eq_refl eq_refl eq_refl) as (_ & Hlist).
    apply Hlist. constructor.
Defined.

Lemma obj_get_merge_other (a b : obj) (k : string) :
  obj_get b k = None -> obj_get (obj_merge a b) k = obj_get a k.
Proof.
  unfold obj_merge. revert a; induction b as [|[k1 v1] b IH]; intros a; simpl; [reflexivity|].
  destruct (String.eqb_spec k1 k) as [->|Hk]; [discriminate|]. intros H.
  rewrite IH by assumption. rewrite obj_get_set.
  destruct (String.eqb_spec k1 k); congruence.
Qed.

Lemma parseRequestBody_keys (requestBody : option json) (body : obj) (k : string) :
  parseRequestBody requestBody = Returned body -> k <> "body" -> obj_get body k = None.
Proof.
  unfold parseRequestBody.
  destruct (truthy _).
  - destruct (get_prop _ "schema"); try discriminate. cbn [bind].
    destruct (filterReadOnlyProperties _); try discriminate. cbn [bind].
    intros [= <-] Hk. cbn [obj_get]. destruct (String.eqb_spec "body" k); congruence.
  - now intros [= <-].
Qed.

Lemma parseResponses_keys (responses : option json) (response : obj) (k : string) :
  parseResponses responses = Returned response -> k <> "response" ->
  obj_get response k = None.
Proof.
  unfold parseResponses.
  destruct (Object_keys responses); try discriminate. cbn [bind].
  destruct (foldM _ _ _) as [[|r l]| | |]; try discriminate; cbn [bind].
  - now intros [= <-].
  - intros [= <-] Hk. cbn [obj_get]. destruct (String.eqb_spec "response" k); congruence.
Qed.

Lemma foldM_parameters_not_null (params : list json) (acc out : obj) :
  foldM add_parameter params acc = Returned out -> Forall (fun p => p <> JNull) params.
Proof.
  revert acc; induction params as [|p params IH]; intros acc; [constructor|].
  cbn [foldM]. destruct (add_parameter acc p) as [acc'| | |] eqn:E; try discriminate.
  cbn [bind]. intros H. constructor; [|now apply (IH acc')].
  intros ->. discriminate.
Qed.

(** The schema [parseParameters] returns under a location and a name. *)
Lemma parseParameters_lookup (params : list json) (out : obj) (loc name : string)
  (s : json) :
  parseParameters (Some (JArr params)) = Returned out ->
  last_schema params loc name = Some s ->
  exists props,
    obj_get out loc = Some (JObj [("type", JStr "object"); ("properties", JObj props)]) /\
    obj_get props name = Some s.
Proof.
  unfold parseParameters. cbn [truthy negb].
  destruct (foldM add_parameter params []) as [acc| | |] eqn:E; try discriminate.
  cbn [bind]. intros [= <-] Hlast.
  pose proof (foldM_parameters_not_null _ _ _ E) as Hnn.
  destruct (fold_parameters params Hnn []) as (acc' & E' & Hobj & _ & Hst);
    [discriminate|].
  rewrite E in E'. injection E' as <-.
  specialize (Hst loc name). rewrite Hlast in Hst. unfold stored in Hst.
  pose (wrap := fun v => wrapEmptyObjects (Some v)).
  change (map _ acc) with (map (fun kv => (fst kv, wrap (snd kv))) acc).
  rewrite obj_get_map_values. subst wrap.
  destruct (obj_get acc loc) as [g|] eqn:Eg; [|discriminate].
  destruct (Hobj loc g Eg) as [props ->]. exists props. split; [reflexivity|exact Hst].
Qed.

Lemma last_schema_app (l1 l2 : list json) (loc name : string) :
  last_schema (l1 ++ l2) loc name =
  match last_schema l2 loc name with
  | Some s => Some s
  | None => last_schema l1 loc name
  end.
Proof.
  unfold last_schema. rewrite rev_app_distr, find_app.
  now destruct (find (declares loc name) (rev l2)).
Qed.

Lemma last_schema_declared (params : list json) (loc name : string) (p : json) :
  In p params -> declares loc name p = true ->
  exists winner,
    last_schema params loc name = Some (schema_copy winner) /\
    In winner params /\ declares loc name winner = true.
Proof.
  intros Hin Hd. unfold last_schema.
  destruct (find (declares loc name) (rev params)) as [w|] eqn:E.
  - apply find_some in E as [Hw Hdw]. exists w. repeat split; [|assumption].
    now apply in_rev.
  - apply in_rev in Hin. pose proof (find_none _ _ E p Hin). congruence.
Qed.

(** C10: when the path item and the operation declare a parameter of the
    same name in the same location, the compiled schema of the location
    holds the schema of the path item's parameter (the last of them with
    that name and location), whatever the operation declares: the
    operation's parameters come first in the list that is merged. *)
Theorem shared_parameter_wins (item operation : json) (handlers : registry)
  (verb : string) (n : nat) (localParameters globalParameters : list json)
  (own shared : json) (routes : list protoRoute) :
  nth_error (verbs_of item) n = Some verb ->
  js_get item verb = Some operation ->
  js_get item "parameters" = Some (JArr globalParameters) ->
  js_get operation "parameters" = Some (JArr localParameters) ->
  In own localParameters -> In shared globalParameters ->
  location_of own = location_of shared -> name_of own = name_of shared ->
  location_of shared <> "body" -> location_of shared <> "response" ->
  location_of shared <> "__proto__" ->
  parseMethods (Some item) handlers = Returned routes ->
  exists route props winner,
    nth_error routes n = Some route /\
    obj_get (schema route) (location_of shared) =
      Some (JObj [("type", JStr "object"); ("properties", JObj props)]) /\
    obj_get props (name_of shared) = Some (schema_copy winner) /\
    In winner globalParameters /\
    declares (location_of shared) (name_of shared) winner = true /\
    last_schema globalParameters (location_of shared) (name_of shared) =
      Some (schema_copy winner).
Proof.
  intros Hn Hop Hglobal Hlocal Hown Hshared Hloc Hname Hbody Hresp _ Hr.
  assert (Hin : In verb (verbs_of item)) by (eapply nth_error_In; eassumption).
  rewrite (parseMethods_unfold item handlers (verbs_not_null _ _ Hin)) in Hr.
  apply mapM_returned in Hr.
  destruct (Forall2_nth _ _ _ Hr n verb Hn) as (route & Hnth & Hroute).
  destruct (parse_method_returned _ _ _ _ _ _ Hop Hroute)
    as (id & key & f & a & params & body & response & _ & _ & _ & Hc & Hp & Hb & Hrs & ->).
  rewrite Hglobal, Hlocal in Hc. cbn [or_empty_array truthy concat] in Hc.
  injection Hc as <-.
  assert (Hd : declares (location_of shared) (name_of shared) shared = true).
  { unfold declares. now rewrite !String.eqb_refl. }
  destruct (last_schema_declared globalParameters _ _ shared Hshared Hd)
    as (winner & Hlast & Hwin & Hdw).
  assert (Hall : last_schema (localParameters ++ globalParameters)
                   (location_of shared) (name_of shared) = Some (schema_copy winner)).
  { now rewrite last_schema_app, Hlast. }
  destruct (parseParameters_lookup _ _ _ _ _ Hp Hall) as (props & Hget & Hprop).
  exists {| method := toUpperCase verb;
            schema := obj_merge (obj_merge params body) response;
            handler := f |}, props, winner.
  split; [assumption|]. split; [|repeat split; assumption].
  cbn [schema].
  rewrite obj_get_merge_other by (eapply parseResponses_keys; eassumption).
  rewrite obj_get_merge_other by (eapply parseRequestBody_keys; eassumption).
  exact Hget.
Qed.

Lemma shared_parameter_wins_witness :
  exists route props winner,
    nth_error document_routes 0 = Some route /\
    obj_get (schema route) "params" =
      Some (JObj [("type", JStr "object"); ("properties", JObj props)]) /\
    obj_get props "id" = Some (schema_copy winner) /\
    In winner [id_parameter "path" "integer"] /\
    declares "params" "id" winner = true /\
    last_schema [id_parameter "path" "integer"] "params" "id" = Some (schema_copy winner).
Proof.
  assert (Hbody : location_of (id_parameter "path" "integer") <> "body")
    by (intros H; vm_compute in H; discriminate).
  assert (Hresp : location_of (id_parameter "path" "integer") <> "response")
    by (intros H; vm_compute in H; discriminate).
  assert (Hproto : location_of (id_parameter "path" "integer") <> "__proto__")
    by (intros H; vm_compute in H; discriminate).
  exact (shared_parameter_wins document_item
           (JObj [("operationId", JStr "GetDocument");
                  ("parameters", JArr [id_parameter "path" "string"]);
                  ("responses", JObj [])])
           document_handlers "get" 0
           [id_parameter "path" "string"] [id_parameter "path" "integer"]
           (id_parameter "path" "string") (id_parameter "path" "integer")
           document_routes
           eq_refl eq_refl eq_refl eq_refl (or_introl eq_refl) (or_introl eq_refl)
           eq_refl eq_refl Hbody Hresp Hproto eq_refl).
Defined.

(** ** Filtering array schemas *)

Lemma obj_get_in_canonical (o : obj) (k : string) (v : json) :
  keys_canonical (map fst o) = true -> In (k, v) o -> obj_get o k = Some v.
Proof.
  induction o as [|[k1 v1] o IH]; simpl; [tauto|].
  rewrite !andb_true_iff, negb_true_iff. intros [[_ Hd] Hc] [[= <- <-]|Hin].
  - now rewrite String.eqb_refl.
  - destruct (String.eqb_spec k1 k) as [->|Hk]; [|now apply IH].
    exfalso. apply Bool.not_true_iff_false in Hd. apply Hd.
    apply existsb_exists. exists k. split; [|apply String.eqb_refl].
    apply in_map_iff. now exists (k, v).
Qed.

Lemma keys_canonical_filter (P : string * json -> bool) (o : obj) :
  keys_canonical (map fst o) = true -> keys_canonical (map fst (filter P o)) = true.
Proof.
  induction o as [|[k v] o IH]; simpl; [reflexivity|].
  rewrite !andb_true_iff, negb_true_iff, forallb_forall.
  intros [[Hb Hd] Hc]. destruct (P (k, v)); [|now apply IH].
  simpl. rewrite !andb_true_iff, negb_true_iff, forallb_forall.
  assert (Hsub : forall x, In x (map fst (filter P o)) -> In x (map fst o)).
  { intros x Hx. apply in_map_iff in Hx as ((k', v') & <- & Hin).
    apply filter_In in Hin as [Hin _]. apply in_map_iff. now exists (k', v'). }
  repeat split; [auto | | now apply IH].
  apply Bool.not_true_iff_false. intros He. apply Bool.not_true_iff_false in Hd.
  apply Hd. apply existsb_exists in He as (x & Hx & Hxk).
  apply existsb_exists. exists x. split; [now apply Hsub | assumption].
Qed.

(** The names [unflagged_keys] returns for an object of properties. *)
Lemma unflagged_keys_object (flag : string) (props : obj) :
  well_formed (JObj props) = true ->
  Forall (fun kv => snd kv <> JNull) props ->
  unflagged_keys flag (Some (JObj props)) =
  Returned (map fst (without_flagged flag props)).
Proof.
  intros Hwf Hnn. unfold unflagged_keys. rewrite deep_copy by assumption.
  cbn [bind Object_keys own_props].
  simpl in Hwf. apply andb_true_iff in Hwf as [Hc _].
  set (keep := fun propertyKey =>
                 property <- get_prop (Some (JObj props)) propertyKey ;;
                 flagged <- get_prop property flag ;;
                 Returned (negb (truthy flagged))).
  assert (Hkeep : forall k v, In (k, v) props ->
                    keep k = Returned (negb (truthy (js_get v flag)))).
  { intros k v Hin. subst keep. cbn [get_prop js_get bind].
    rewrite (obj_get_in_canonical props k v Hc Hin).
    rewrite Forall_forall in Hnn. specialize (Hnn (k, v) Hin). cbn [snd] in Hnn.
    destruct v; congruence || reflexivity. }
  clearbody keep.
  assert (Hall : forall l, incl l props ->
    filterM keep (map fst l) = Returned (map fst (without_flagged flag l))).
  { induction l as [|[k v] l IH]; intros Hincl; [reflexivity|].
    cbn [map fst filterM].
    rewrite (Hkeep k v) by (apply Hincl; now left).
    rewrite IH by (intros x Hx; apply Hincl; now right).
    cbn [bind without_flagged filter snd].
    now destruct (negb (truthy (js_get v flag))). }
  apply Hall. apply incl_refl.
Qed.

(** The object [pick_properties] builds from the kept names. *)
Lemma pick_properties_object (props kept : obj) :
  keys_canonical (map fst props) = true ->
  incl kept props ->
  keys_canonical (map fst kept) = true ->
  pick_properties (Some (JObj props)) (map fst kept) = Returned kept.
Proof.
  intros Hc Hincl Hk. unfold pick_properties.
  set (pick := fun (acc : obj) propertyKey =>
                 property <- get_prop (Some (JObj props)) propertyKey ;;
                 match property with
                 | Some v => Returned (obj_set acc propertyKey v)
                 | None => Unmodelled
                 end).
  assert (Hpick : forall acc k v, In (k, v) props ->
                    pick acc k = Returned (obj_set acc k v)).
  { intros acc k v Hin. subst pick. cbn [get_prop js_get bind].
    now rewrite (obj_get_in_canonical props k v Hc Hin). }
  clearbody pick.
  assert (Hall : forall l acc,
    incl l props -> keys_canonical (map fst (acc ++ l)) = true ->
    foldM pick (map fst l) acc = Returned (acc ++ l)%list).
  { induction l as [|[k v] l IH]; intros acc Hi Hca.
    - now rewrite app_nil_r.
    - cbn [map fst foldM]. rewrite (Hpick acc k v) by (apply Hi; now left).
      cbn [bind]. rewrite map_app in Hca. cbn [map fst] in Hca.
      destruct (keys_canonical_app _ _ _ Hca) as [Hn Hb].
      rewrite obj_set_last by assumption.
      rewrite IH.
      + now rewrite <- app_assoc.
      + intros x Hx. apply Hi. now right.
      + rewrite !map_app. cbn [map fst]. now rewrite <- app_assoc. }
  apply (Hall kept []); assumption.
Qed.

Lemma keys_obj_set_present (o : obj) (k : string) (v : json) :
  obj_get o k <> None -> map fst (obj_set o k v) = map fst o.
Proof.
  intros H. unfold obj_set, obj_has. destruct (obj_get o k) eqn:E; [clear H|congruence].
  induction o as [|[k1 v1] o IH]; simpl in *; [discriminate|].
  destruct (k1 =? k); [reflexivity|]. simpl. f_equal. now apply IH.
Qed.

Lemma obj_replace_twice (o : obj) (k : string) (a b : json) :
  obj_replace (obj_replace o k a) k b = obj_replace o k b.
Proof.
  induction o as [|[k1 v1] o IH]; simpl; [reflexivity|].
  destruct (k1 =? k) eqn:E; simpl; rewrite E; [reflexivity | now rewrite IH].
Qed.

Lemma obj_set_twice (o : obj) (k : string) (a b : json) :
  obj_get o k <> None -> obj_set (obj_set o k a) k b = obj_set o k b.
Proof.
  intros H. unfold obj_set at 1 3, obj_has. rewrite obj_get_set, String.eqb_refl.
  unfold obj_set, obj_has. destruct (obj_get o k); [|congruence].
  apply obj_replace_twice.
Qed.

(** C6: on an array schema [filterWriteOnlyProperties] works on the
    properties and the required list of [items]: the properties marked
    [writeOnly] go, the required names that are no longer properties go
    with them (a required list that is absent stays absent), and every
    other key of the schema and of its items is as before. *)
Theorem write_only_filter_on_arrays (schema items props : obj) :
  obj_get schema "type" = Some (JStr "array") ->
  obj_get schema "items" = Some (JObj items) ->
  obj_get items "properties" = Some (JObj props) ->
  well_formed (JObj props) = true ->
  Forall (fun kv => snd kv <> JNull) props ->
  let kept := without_flagged "writeOnly" props in
  (forall required,
     obj_get items "required" = Some (JArr required) ->
     filterWriteOnlyProperties (Some (JObj schema)) =
     Returned
       (JObj (obj_set schema "items"
                (JObj (obj_set (obj_set items "properties" (JObj kept))
                         "required" (JArr (required_among kept required))))))) /\
  (truthy (obj_get items "required") = false ->
   filterWriteOnlyProperties (Some (JObj schema)) =
   Returned (JObj (obj_set schema "items"
                     (JObj (obj_set items "properties" (JObj kept)))))) /\
  (forall result,
     filterWriteOnlyProperties (Some (JObj schema)) = Returned (JObj result) ->
     map fst result = map fst schema /\
     (forall k, k <> "items" -> obj_get result k = obj_get schema k) /\
     exists items',
       obj_get result "items" = Some (JObj items') /\
       obj_get items' "properties" = Some (JObj kept) /\
       forall k, k <> "properties" -> k <> "required" ->
                 obj_get items' k = obj_get items k).
Proof.
  intros Htype Hitems Hprops Hwf Hnn kept.
  assert (Hc : keys_canonical (map fst props) = true).
  { simpl in Hwf. now apply andb_true_iff in Hwf as [Hc _]. }
  assert (Hne : exists k ks, map fst schema = k :: ks).
  { destruct schema as [|[k v] l]; [discriminate|]. now exists k, (map fst l). }
  destruct Hne as (k0 & ks0 & Hkeys).
  assert (Hstart : forall required,
    obj_get items "required" = required ->
    filterWriteOnlyProperties (Some (JObj schema)) =
    (filteredRequiredProperties <-
       (if truthy required
        then r <- filter_required required (map fst kept) ;; Returned (Some r)
        else Returned required) ;;
     filteredSchema <- set_in_items schema "properties" (JObj kept) ;;
     if truthy filteredRequiredProperties
     then match filteredRequiredProperties with
          | Some r => filteredSchema <- set_in_items filteredSchema "required" r ;;
                      Returned (JObj filteredSchema)
          | None => Returned (JObj filteredSchema)
          end
     else Returned (JObj filteredSchema))).
  { intros required Hreq. unfold filterWriteOnlyProperties, filter_target.
    cbn [Object_keys own_props bind get_prop js_get]. rewrite Hkeys.
    cbn [List.length Nat.eqb]. rewrite Htype. cbn [is_text String.eqb Ascii.eqb Bool.eqb bind].
    rewrite Hitems. cbn [get_prop js_get bind]. rewrite Hprops, Hreq. cbn [bind fst snd].
    rewrite unflagged_keys_object by assumption. cbn [bind]. fold kept.
    rewrite pick_properties_object;
      [reflexivity | assumption | intros x Hx; now apply filter_In in Hx
      | now apply keys_canonical_filter]. }
  assert (Hset : forall k v,
    set_in_items schema k v = Returned (obj_set schema "items" (JObj (obj_set items k v)))).
  { intros k v. unfold set_in_items. now rewrite Hitems. }
  assert (Hset2 : forall items1 k v,
    set_in_items (obj_set schema "items" (JObj items1)) k v =
    Returned (obj_set schema "items" (JObj (obj_set items1 k v)))).
  { intros items1 k v. unfold set_in_items. rewrite obj_get_set, String.eqb_refl.
    rewrite obj_set_twice by congruence. reflexivity. }
  assert (Hfirst : forall required,
    obj_get items "required" = Some (JArr required) ->
    filterWriteOnlyProperties (Some (JObj schema)) =
    Returned
      (JObj (obj_set schema "items"
               (JObj (obj_set (obj_set items "properties" (JObj kept))
                        "required" (JArr (required_among kept required))))))).
  { intros required Hreq. rewrite (Hstart _ Hreq).
    cbn [truthy filter_required bind]. rewrite Hset. cbn [bind].
    rewrite Hset2. reflexivity. }
  assert (Hsecond : truthy (obj_get items "required") = false ->
    filterWriteOnlyProperties (Some (JObj schema)) =
    Returned (JObj (obj_set schema "items"
                      (JObj (obj_set items "properties" (JObj kept)))))).
  { intros Hf. rewrite (Hstart _ eq_refl), Hf. cbn [bind]. rewrite Hset. cbn [bind].
    now rewrite Hf. }
  split; [exact Hfirst|]. split; [exact Hsecond|].
  intros result Hres.
  assert (Hshape : exists items',
    result = obj_set schema "items" (JObj items') /\
    obj_get items' "properties" = Some (JObj kept) /\
    forall k, k <> "properties" -> k <> "required" -> obj_get items' k = obj_get items k).
  { pose proof (Hstart _ eq_refl) as Hs.
    assert (Hkeep_other : forall k, k <> "properties" -> k <> "required" ->
              forall r, obj_get (obj_set (obj_set items "properties" (JObj kept))
                                   "required" r) k = obj_get items k).
    { intros k H1 H2 r. rewrite !obj_get_set.
      destruct (String.eqb_spec "required" k); [congruence|].
      destruct (String.eqb_spec "properties" k); congruence. }
    assert (Hkeep_one : forall k, k <> "properties" ->
              obj_get (obj_set items "properties" (JObj kept)) k = obj_get items k).
    { intros k H1. rewrite obj_get_set.
      destruct (String.eqb_spec "properties" k); congruence. }
    destruct (obj_get items "required") as [r|] eqn:Er.
    - destruct (truthy (Some r)) eqn:Et.
      + destruct r as [| b | z | s | required | ms]; try discriminate Et;
          try (rewrite Hs in Hres; cbn [filter_required bind] in Hres;
               discriminate Hres).
        rewrite (Hfirst required eq_refl) in Hres. injection Hres as <-.
        eexists. split; [reflexivity|]. split; [now rewrite !obj_get_set | auto].
      + rewrite (Hsecond eq_refl) in Hres. injection Hres as <-.
        eexists. split; [reflexivity|]. split; [now rewrite obj_get_set | auto].
    - rewrite (Hsecond eq_refl) in Hres. injection Hres as <-.
      eexists. split; [reflexivity|]. split; [now rewrite obj_get_set | auto]. }
  destruct Hshape as (items' & -> & Hp & Ho).
  split; [apply keys_obj_set_present; congruence|]. split.
  - intros k Hk. rewrite obj_get_set. destruct (String.eqb_spec "items" k); congruence.
  - exists items'. rewrite obj_get_set, String.eqb_refl. auto.
Qed.

Lemma write_only_filter_on_arrays_witness :
  filterWriteOnlyProperties (Some (JObj secret_array)) =
  Returned (JObj [("type", JStr "array");
                  ("items", JObj [("properties", JObj []); ("required", JArr [])])]).
Proof.
  assert (Hnn : Forall (fun kv : string * json => snd kv <> JNull)
                  [("secret", JObj [("writeOnly", JBool true)])])
    by (repeat constructor; discriminate).
  exact (proj1 (write_only_filter_on_arrays secret_array secret_items
                  [("secret", JObj [("writeOnly", JBool true)])]
                  eq_refl eq_refl eq_refl eq_refl Hnn)
           [JStr "secret"] eq_refl).
Defined.

(** * More properties of the source *)

(** ** [replaceAll] and [transformPath] *)

Lemma replaceAll_from_absent (pat repl : string) (s : string) (before : list ascii) :
  occurs pat s = false -> replaceAll_from pat repl before 0 s = s.
Proof.
  revert before; induction s as [|c s IH]; intros before; cbn [occurs replaceAll_from].
  - destruct pat; [discriminate | reflexivity].
  - destruct (strip_prefix pat (String c s)); [discriminate|].
    intros H. now rewrite IH.
Qed.

(** Replacing a text that does not occur changes nothing, whatever the
    replacement. *)
Lemma replaceAll_absent (s pat repl : string) :
  occurs pat s = false -> replaceAll s pat repl = s.
Proof. apply replaceAll_from_absent. Qed.

Lemma replaceAll_from_char (c : ascii) (repl s : string) (before : list ascii) :
  (forall matched b a, GetSubstitution matched b a repl = repl) ->
  replaceAll_from (str1 c) repl before 0 s = subst_char c repl s.
Proof.
  intros Hrepl. revert before; induction s as [|x s IH]; intros before; [reflexivity|].
  cbn [replaceAll_from strip_prefix str1 subst_char String.length].
  destruct (Ascii.eqb c x); [now rewrite Hrepl, IH | now rewrite IH].
Qed.

Lemma transformPath_colons (path : string) : transformPath path = colons path.
Proof.
  unfold transformPath, replaceAll.
  rewrite (replaceAll_from_char "}" EmptyString) by reflexivity.
  rewrite (replaceAll_from_char "{" ":") by reflexivity.
  induction path as [|c path IH]; [reflexivity|].
  cbn [subst_char colons].
  destruct c as [[] [] [] [] [] [] [] []]; cbn; now rewrite ?IH.
Qed.

Lemma colons_without_braces (path : string) :
  occurs "{" (colons path) = false /\ occurs "}" (colons path) = false.
Proof.
  induction path as [|c path [IH1 IH2]]; [split; reflexivity|].
  cbn [colons].
  destruct c as [[] [] [] [] [] [] [] []]; cbn; auto.
Qed.

Lemma colons_fixed (path : string) :
  occurs "{" path = false -> occurs "}" path = false -> colons path = path.
Proof.
  induction path as [|c path IH]; [reflexivity|].
  cbn [colons].
  destruct c as [[] [] [] [] [] [] [] []]; cbn; intros H1 H2;
    try discriminate; now rewrite IH.
Qed.

Lemma colons_length (path : string) : String.length (colons path) <= String.length path.
Proof.
  induction path as [|c path IH]; [apply le_n|].
  cbn [colons]. destruct (is_char c 125); [cbn [String.length]; lia|].
  destruct (is_char c 123); cbn [String.length]; lia.
Qed.

(** X1: [transformPath] drops every closing brace and writes a colon for
    every opening brace, whatever else the path holds; so no brace is left
    in the result, the result is not longer than the path, and transforming
    twice is transforming once. *)
Theorem transformPath_rewrites_braces (path : string) :
  transformPath path = colons path /\
  occurs "{" (transformPath path) = false /\
  occurs "}" (transformPath path) = false /\
  String.length (transformPath path) <= String.length path /\
  transformPath (transformPath path) = transformPath path.
Proof.
  rewrite !transformPath_colons.
  destruct (colons_without_braces path) as [H1 H2].
  repeat split; try assumption.
  - apply colons_length.
  - now apply colons_fixed.
Qed.

(** X2: a path without braces is returned as it is. *)
Theorem transformPath_without_braces (path : string) :
  occurs "{" path = false -> occurs "}" path = false -> transformPath path = path.
Proof. intros H1 H2. rewrite transformPath_colons. now apply colons_fixed. Qed.

Lemma transformPath_without_braces_witness : transformPath "/api/health" = "/api/health".
Proof. apply transformPath_without_braces; reflexivity. Defined.

(** ** [parseParameterKey] *)

(** X4: [parseParameterKey] never answers [path] or [query], and what it
    answers it leaves alone when asked again. *)
Theorem parseParameterKey_settles (paramKey : option json) :
  is_text (parseParameterKey paramKey) "path" = false /\
  is_text (parseParameterKey paramKey) "query" = false /\
  parseParameterKey (parseParameterKey paramKey) = parseParameterKey paramKey.
Proof.
  destruct paramKey as [[| | |s| |]|]; try (repeat split; reflexivity).
  unfold parseParameterKey.
  destruct (s =? "path") eqn:E1; [repeat split; reflexivity|].
  destruct (s =? "query") eqn:E2; [repeat split; reflexivity|].
  cbn [is_text]. now rewrite E1, E2.
Qed.

(** ** [parseParameters] *)









(** ** The deep copy *)

(** X7: [JSON.parse(JSON.stringify(v))] is [v] for every value JavaScript
    holds (the copy [resolveInternalReferences] starts from, line 21, and
    the one the filters take the keys of), and two such values with the
    same text are the same value. *)
Theorem deep_copy_is_identity (v : json) :
  well_formed v = true ->
  parse_opt (stringify_opt (Some v)) = Returned v /\
  forall w, well_formed w = true -> JSON_stringify w = JSON_stringify v -> w = v.
Proof.
  intros Hv. split; [now apply deep_copy|].
  intros w Hw Htext.
  pose proof (deep_copy v Hv) as Ev. pose proof (deep_copy w Hw) as Ew.
  unfold parse_opt, stringify_opt, option_map in Ev, Ew.
  rewrite Htext, Ev in Ew. congruence.
Qed.

Lemma deep_copy_is_identity_witness :
  parse_opt (stringify_opt (Some formula_doc)) = Returned formula_doc.
Proof. apply deep_copy_is_identity. vm_compute. reflexivity. Defined.

(** ** [resolveInternalReferences] on documents that use no component *)

(** X8: called on a document without [components] (or with [null] there),
    [resolveInternalReferences] throws: [Object.keys] has nothing to list.
    The default that [routesFromOpenApiSpecs] sets is what prevents it. *)
Theorem resolve_needs_components (doc : json) :
  well_formed doc = true ->
  js_get doc "components" = None \/ js_get doc "components" = Some JNull ->
  resolveInternalReferences doc = Thrown TypeError.
Proof.
  intros Hwf H. unfold resolveInternalReferences. rewrite deep_copy by assumption.
  cbn [bind]. destruct doc; cbn [get_prop bind]; try reflexivity;
    destruct H as [-> | ->]; reflexivity.
Qed.

Lemma resolve_needs_components_witness :
  resolveInternalReferences (JObj [("paths", JObj [])]) = Thrown TypeError.
Proof. apply resolve_needs_components; [vm_compute; reflexivity | now left]. Defined.

Lemma strip_prefix_app (p s r : string) : strip_prefix p s = Some r -> s = p ++ r.
Proof.
  revert s; induction p as [|a p IH]; intros s; cbn [strip_prefix append].
  - now intros [= ->].
  - destruct s as [|b s]; [discriminate|].
    destruct (Ascii.eqb_spec a b) as [->|]; [|discriminate].
    intros H. f_equal. now apply IH.
Qed.

Lemma match_ci_app (p x : string) : match_ci p (p ++ x) = Some x.
Proof.
  induction p as [|a p IH]; cbn [match_ci append]; [reflexivity|].
  now rewrite Ascii.eqb_refl.
Qed.

Lemma match_body_closes (u rest : string) (n : nat) :
  match_body (S n) (u ++ String dquote rest) <> None.
Proof.
  revert n; induction u as [|c u IH]; intros n; cbn [append match_body].
  - discriminate.
  - destruct (is_char c 34); [discriminate | apply IH].
Qed.

(** Where the pointer of a component is written, the final scan finds a
    reference. *)
Lemma pattern_is_matched (g k rest : string) :
  match_ref (ref_pattern g k ++ rest) <> None.
Proof.
  unfold ref_pattern, match_ref. rewrite !append_assoc, match_ci_app.
  assert (E : str1 dquote ++ "#/components/" ++ g ++ "/" ++ k ++ str1 dquote ++ rest =
              String dquote
                (String "#" (("/components/" ++ g ++ "/" ++ k) ++ String dquote rest))).
  { rewrite !append_assoc. reflexivity. }
  rewrite E. generalize ("/components/" ++ g ++ "/" ++ k). intros u.
  change (is_char dquote 32) with false. cbv beta iota.
  unfold match_value. change (is_char dquote 34) with true. cbv beta iota.
  cbn [match_body]. change (is_char "#" 34) with false. cbv beta iota.
  pose proof (match_body_closes u rest 0) as Hb.
  destruct (match_body 1 (u ++ String dquote rest)); [discriminate | congruence].
Qed.

Lemma occurs_matches (g k s : string) :
  occurs (ref_pattern g k) s = true -> matches_somewhere s = true.
Proof.
  assert (Hhere : forall t r, strip_prefix (ref_pattern g k) t = Some r ->
                    match_ref t <> None).
  { intros t r E. apply strip_prefix_app in E. subst t. apply pattern_is_matched. }
  induction s as [|c s IH]; cbn [occurs matches_somewhere].
  - destruct (strip_prefix (ref_pattern g k) EmptyString) as [r|] eqn:E; [|discriminate].
    apply Hhere in E. now destruct (match_ref EmptyString).
  - destruct (strip_prefix (ref_pattern g k) (String c s)) as [r|] eqn:E.
    + apply Hhere in E. now destruct (match_ref (String c s)).
    + intros H. destruct (match_ref (String c s)); [reflexivity | now apply IH].
Qed.

Lemma scan_finds_matches (s : string) :
  matches_somewhere s = true -> getRefsInsideSpec s <> [].
Proof.
  unfold getRefsInsideSpec. induction s as [|c s IH]; cbn [matches_somewhere scan_refs].
  - intros H. vm_compute in H. discriminate.
  - destruct (match_ref (String c s)); [discriminate | exact IH].
Qed.

Lemma foldM_unchanged {A B : Type} (f : B -> A -> outcome B) (xs : list A) (acc : B) :
  (forall x, In x xs -> f acc x = Returned acc) -> foldM f xs acc = Returned acc.
Proof.
  induction xs as [|x xs IH]; intros H; [reflexivity|].
  cbn [foldM]. rewrite H by now left. cbn [bind]. apply IH.
  intros y Hy. apply H. now right.
Qed.

Lemma obj_get_of_key (o : obj) (k : string) :
  In k (map fst o) -> exists v, obj_get o k = Some v /\ In (k, v) o.
Proof.
  induction o as [|[k1 v1] o IH]; [intros []|]. cbn [map fst obj_get In].
  destruct (String.eqb_spec k1 k) as [->|Hk].
  - intros _. exists v1. split; [reflexivity | now left].
  - intros [H|H]; [congruence|]. destruct (IH H) as (v & E & Hin).
    exists v. split; [assumption | now right].
Qed.

Lemma resolve_group_unchanged (doc : json) (components : obj) (g : string) :
  well_formed doc = true ->
  js_get doc "components" = Some (JObj components) ->
  groups_are_objects components = true ->
  uses_no_component doc components ->
  In g (map fst components) ->
  resolve_group doc g = Returned doc.
Proof.
  intros Hwf Hc Hg Huse Hin.
  assert (Hget : get_prop (Some doc) "components" = Returned (Some (JObj components))).
  { destruct doc; try discriminate; cbn [get_prop]; now rewrite Hc. }
  destruct (obj_get_of_key components g Hin) as (group & Eg & Hing).
  unfold groups_are_objects in Hg. rewrite forallb_forall in Hg.
  specialize (Hg _ Hing). cbn [snd] in Hg.
  destruct group as [| | | | |gms]; try discriminate.
  unfold resolve_group. rewrite Hget. cbn [bind get_prop js_get]. rewrite Eg.
  cbn [bind Object_keys own_props].
  destruct (map fst gms) as [|k0 ks] eqn:Eks; [reflexivity|]. rewrite <- Eks.
  apply foldM_unchanged. intros k Hk.
  unfold resolve_component. rewrite Hget. cbn [bind get_prop js_get]. rewrite Eg.
  cbn [bind get_prop js_get].
  destruct (obj_get_of_key gms k Hk) as (c & Ec & _). rewrite Ec.
  cbn [bind stringify_opt option_map].
  rewrite replaceAll_absent by (eapply Huse; eassumption).
  pose proof (deep_copy doc Hwf) as Hcopy.
  unfold parse_opt, stringify_opt, option_map in Hcopy. exact Hcopy.
Qed.

(** X9: a document whose text holds the pointer of none of its components is
    not changed by the replacements: it is returned as it is when the final
    scan finds nothing in it, and otherwise the process ends with the
    matches of the scan in the document's own text. *)
Theorem resolve_without_uses (doc : json) (components : obj) :
  well_formed doc = true ->
  js_get doc "components" = Some (JObj components) ->
  groups_are_objects components = true ->
  uses_no_component doc components ->
  resolveInternalReferences doc =
  match getRefsInsideSpec (JSON_stringify doc) with
  | [] => Returned doc
  | remainingRefsList => Exited (OrphanRefs remainingRefsList)
  end.
Proof.
  intros Hwf Hc Hg Huse. unfold resolveInternalReferences.
  rewrite deep_copy by assumption. cbn [bind].
  assert (Hget : get_prop (Some doc) "components" = Returned (Some (JObj components))).
  { destruct doc; try discriminate; cbn [get_prop]; now rewrite Hc. }
  rewrite Hget. cbn [bind Object_keys own_props].
  rewrite foldM_unchanged; [reflexivity|].
  intros g Hin. now apply (resolve_group_unchanged doc components).
Qed.

Lemma resolve_without_uses_witness :
  resolveInternalReferences missing_doc =
  Exited (OrphanRefs [ref_text "#/components/schemas/Missing"]).
Proof.
  assert (Hwf : well_formed missing_doc = true) by (vm_compute; reflexivity).
  assert (Hc : js_get missing_doc "components" = Some (JObj [("schemas", JObj [])]))
    by (vm_compute; reflexivity).
  assert (Hg : groups_are_objects [("schemas", JObj [])] = true) by reflexivity.
  assert (Hu : uses_no_component missing_doc [("schemas", JObj [])])
    by (intros g group k [[= <- <-]|[]] []).
  rewrite (resolve_without_uses missing_doc [("schemas", JObj [])] Hwf Hc Hg Hu).
  vm_compute. reflexivity.
Defined.

(** X10: resolving a resolved document changes nothing: a document in which
    the final scan finds no reference is returned as it is. *)
Theorem resolve_resolved_document (doc : json) (components : obj) :
  well_formed doc = true ->
  js_get doc "components" = Some (JObj components) ->
  groups_are_objects components = true ->
  getRefsInsideSpec (JSON_stringify doc) = [] ->
  resolveInternalReferences doc = Returned doc.
Proof.
  intros Hwf Hc Hg Hscan.
  assert (Huse : uses_no_component doc components).
  { intros g group k _ _. apply Bool.not_true_iff_false. intros Ho.
    apply occurs_matches, scan_finds_matches in Ho. congruence. }
  unfold resolveInternalReferences.
  rewrite deep_copy by assumption. cbn [bind].
  assert (Hget : get_prop (Some doc) "components" = Returned (Some (JObj components))).
  { destruct doc; try discriminate; cbn [get_prop]; now rewrite Hc. }
  rewrite Hget. cbn [bind Object_keys own_props].
  rewrite foldM_unchanged.
  - cbn [bind]. now rewrite Hscan.
  - intros g Hin. now apply (resolve_group_unchanged doc components).
Qed.

Lemma resolve_resolved_document_witness :
  resolveInternalReferences
    (JObj [("paths", JObj []);
           ("components", JObj [("schemas", JObj [("A", JObj [("type", JStr "string")])])])]) =
  Returned
    (JObj [("paths", JObj []);
           ("components", JObj [("schemas", JObj [("A", JObj [("type", JStr "string")])])])]).
Proof.
  apply (resolve_resolved_document _
           [("schemas", JObj [("A", JObj [("type", JStr "string")])])]);
    vm_compute; reflexivity.
Defined.

(** ** The filters on object schemas *)

Lemma filter_target_object (schema : obj) :
  is_text (obj_get schema "type") "array" = false ->
  filter_target (Some (JObj schema)) =
  Returned (obj_get schema "properties", obj_get schema "required").
Proof.
  intros H. unfold filter_target. cbn [get_prop js_get bind]. now rewrite H.
Qed.

Lemma filter_target_array (schema items : obj) :
  is_text (obj_get schema "type") "array" = true ->
  obj_get schema "items" = Some (JObj items) ->
  filter_target (Some (JObj schema)) =
  Returned (obj_get items "properties", obj_get items "required").
Proof.
  intros H Hi. unfold filter_target. cbn [get_prop js_get bind]. rewrite H, Hi.
  reflexivity.
Qed.

Lemma keys_not_empty (schema : obj) (k : string) (v : json) :
  obj_get schema k = Some v ->
  Object_keys (Some (JObj schema)) = Returned (map fst schema) /\
  (List.length (map fst schema) =? 0)%nat = false.
Proof. destruct schema; [discriminate | split; reflexivity]. Qed.

(** The two steps the filters share, on an object of properties. *)
Lemma kept_properties (flag : string) (props : obj) :
  well_formed (JObj props) = true ->
  Forall (fun kv => snd kv <> JNull) props ->
  unflagged_keys flag (Some (JObj props)) =
    Returned (map fst (without_flagged flag props)) /\
  pick_properties (Some (JObj props)) (map fst (without_flagged flag props)) =
    Returned (without_flagged flag props).
Proof.
  intros Hwf Hnn. split; [now apply unflagged_keys_object|].
  assert (Hc : keys_canonical (map fst props) = true).
  { simpl in Hwf. now apply andb_true_iff in Hwf as [Hc _]. }
  apply pick_properties_object;
    [assumption | intros x Hx; now apply filter_In in Hx
    | now apply keys_canonical_filter].
Qed.

Lemma read_only_on_object (schema props : obj) (required : option json) :
  is_text (obj_get schema "type") "array" = false ->
  obj_get schema "properties" = Some (JObj props) ->
  obj_get schema "required" = required ->
  well_formed (JObj props) = true ->
  Forall (fun kv => snd kv <> JNull) props ->
  filterReadOnlyProperties (Some (JObj schema)) =
  (r <- filter_required required (map fst (without_flagged "readOnly" props)) ;;
   Returned (JObj (obj_set (obj_set schema "properties"
                              (JObj (without_flagged "readOnly" props)))
                     "required" r))).
Proof.
  intros Ht Hp Hr Hwf Hnn.
  destruct (keys_not_empty _ _ _ Hp) as [Hk Hl].
  destruct (kept_properties "readOnly" props Hwf Hnn) as [Hu Hpick].
  unfold filterReadOnlyProperties. rewrite Hk. cbn [bind]. rewrite Hl.
  rewrite filter_target_object by assumption. cbn [bind fst snd].
  rewrite Hp, Hu. cbn [bind]. rewrite Hpick. cbn [bind]. rewrite Hr.
  destruct (filter_required _ _); cbn [bind get_prop js_get own_props]; try reflexivity.
  now rewrite Ht.
Qed.

Lemma read_only_on_array (schema items props : obj) (required : option json) :
  is_text (obj_get schema "type") "array" = true ->
  obj_get schema "items" = Some (JObj items) ->
  obj_get items "properties" = Some (JObj props) ->
  obj_get items "required" = required ->
  well_formed (JObj props) = true ->
  Forall (fun kv => snd kv <> JNull) props ->
  filterReadOnlyProperties (Some (JObj schema)) =
  (r <- filter_required required (map fst (without_flagged "readOnly" props)) ;;
   Returned
     (JObj (obj_set schema "items"
              (JObj (obj_set (obj_set items "properties"
                                (JObj (without_flagged "readOnly" props)))
                       "required" r))))).
Proof.
  intros Ht Hi Hp Hr Hwf Hnn.
  destruct (keys_not_empty _ _ _ Hi) as [Hk Hl].
  destruct (kept_properties "readOnly" props Hwf Hnn) as [Hu Hpick].
  unfold filterReadOnlyProperties. rewrite Hk. cbn [bind]. rewrite Hl.
  rewrite (filter_target_array schema items) by assumption. cbn [bind fst snd].
  rewrite Hp, Hu. cbn [bind]. rewrite Hpick. cbn [bind]. rewrite Hr.
  destruct (filter_required _ _) as [r| | |]; cbn [bind get_prop js_get own_props];
    try reflexivity.
  rewrite Ht. unfold set_in_items at 1. rewrite Hi. cbn [bind].
  unfold set_in_items. rewrite obj_get_set, String.eqb_refl. cbn [bind].
  rewrite obj_set_twice by congruence. reflexivity.
Qed.

Lemma write_only_on_object (schema props : obj) (required : option json) :
  is_text (obj_get schema "type") "array" = false ->
  obj_get schema "properties" = Some (JObj props) ->
  obj_get schema "required" = required ->
  well_formed (JObj props) = true ->
  Forall (fun kv => snd kv <> JNull) props ->
  filterWriteOnlyProperties (Some (JObj schema)) =
  if truthy required
  then r <- filter_required required (map fst (without_flagged "writeOnly" props)) ;;
       Returned (JObj (obj_set (obj_set schema "properties"
                                  (JObj (without_flagged "writeOnly" props)))
                         "required" r))
  else Returned (JObj (obj_set schema "properties"
                         (JObj (without_flagged "writeOnly" props)))).
Proof.
  intros Ht Hp Hr Hwf Hnn.
  destruct (keys_not_empty _ _ _ Hp) as [Hk Hl].
  destruct (kept_properties "writeOnly" props Hwf Hnn) as [Hu Hpick].
  unfold filterWriteOnlyProperties. rewrite Hk. cbn [bind]. rewrite Hl.
  rewrite filter_target_object by assumption. cbn [bind fst snd].
  rewrite Hp, Hu. cbn [bind]. rewrite Hpick. cbn [bind]. rewrite Hr.
  destruct (truthy required) eqn:Et.
  - destruct required as [[| b | n | s | names | ms]|];
      cbn [filter_required bind get_prop js_get own_props]; rewrite ?Ht, ?Et;
      reflexivity.
  - cbn [bind get_prop js_get own_props]. rewrite Ht, Et. reflexivity.
Qed.

Lemma obj_get_in (o : obj) (k : string) (v : json) :
  obj_get o k = Some v -> In (k, v) o.
Proof.
  induction o as [|[k1 v1] o IH]; cbn [obj_get In]; [discriminate|].
  destruct (String.eqb_spec k1 k) as [->|]; [intros [= ->]; now left|].
  intros H. right. now apply IH.
Qed.

Lemma obj_get_filter (P : string * json -> bool) (o : obj) (k : string) :
  keys_canonical (map fst o) = true ->
  obj_get (filter P o) k =
  match obj_get o k with
  | Some v => if P (k, v) then Some v else None
  | None => None
  end.
Proof.
  intros Hc. destruct (obj_get o k) as [v|] eqn:E.
  - apply obj_get_in in E. destruct (P (k, v)) eqn:EP.
    + apply obj_get_in_canonical; [now apply keys_canonical_filter|].
      apply filter_In. now split.
    + apply obj_get_none. intros Hin. apply in_map_iff in Hin as ((k', v') & Hk & Hin).
      cbn [fst] in Hk. subst k'. apply filter_In in Hin as [Hin HP].
      pose proof (obj_get_in_canonical o k v Hc E) as E1.
      pose proof (obj_get_in_canonical o k v' Hc Hin) as E2. congruence.
  - apply obj_get_none. intros Hin. apply in_map_iff in Hin as ((k', v') & Hk & Hin).
    cbn [fst] in Hk. subst k'. apply filter_In in Hin as [Hin _].
    apply obj_get_none in E. apply E. apply in_map_iff. now exists (k, v').
Qed.

Lemma includes_key (kept : obj) (e : json) :
  includes (map fst kept) e = true <-> exists s, e = JStr s /\ obj_get kept s <> None.
Proof.
  unfold includes. split.
  - destruct e; try discriminate. intros H. apply existsb_exists in H as (k & Hin & Hk).
    apply String.eqb_eq in Hk. subst k. exists s. split; [reflexivity|].
    intros Hn. now apply obj_get_none in Hn.
  - intros (s & -> & H). apply existsb_exists. exists s. split; [|apply String.eqb_refl].
    destruct (in_dec string_dec s (map fst kept)) as [Hin|Hn]; [assumption|].
    now apply obj_get_none in Hn.
Qed.

(** X11: on a schema that is not array-typed, with an object of properties
    and an array of required names, [filterReadOnlyProperties] returns the
    schema with two properties set anew: [properties] holds each property
    that is not marked [readOnly], with the value it had (what lies deeper
    is not filtered), and [required] holds the names of the old list that
    are still properties, in their order.  Every other key is as before. *)
Theorem read_only_filter_on_objects (schema props : obj) (required : list json) :
  is_text (obj_get schema "type") "array" = false ->
  obj_get schema "properties" = Some (JObj props) ->
  obj_get schema "required" = Some (JArr required) ->
  well_formed (JObj props) = true ->
  Forall (fun kv => snd kv <> JNull) props ->
  exists result kept required',
    filterReadOnlyProperties (Some (JObj schema)) = Returned (JObj result) /\
    map fst result = map fst schema /\
    obj_get result "properties" = Some (JObj kept) /\
    obj_get result "required" = Some (JArr required') /\
    (forall k, k <> "properties" -> k <> "required" ->
               obj_get result k = obj_get schema k) /\
    (forall name,
       obj_get kept name =
       match obj_get props name with
       | Some v => if truthy (js_get v "readOnly") then None else Some v
       | None => None
       end) /\
    required' = filter (includes (map fst kept)) required /\
    (forall e, In e required' <->
               In e required /\ exists s, e = JStr s /\ obj_get kept s <> None).
Proof.
  intros Ht Hp Hr Hwf Hnn.
  assert (Hc : keys_canonical (map fst props) = true).
  { simpl in Hwf. now apply andb_true_iff in Hwf as [Hc _]. }
  set (kept := without_flagged "readOnly" props).
  exists (obj_set (obj_set schema "properties" (JObj kept)) "required"
            (JArr (required_among kept required))),
    kept, (required_among kept required).
  split.
  { rewrite (read_only_on_object schema props _ Ht Hp Hr Hwf Hnn). reflexivity. }
  split.
  { rewrite !keys_obj_set_present; [reflexivity | congruence |].
    rewrite obj_get_set. cbn. congruence. }
  split; [now rewrite !obj_get_set|]. split; [now rewrite obj_get_set|]. split.
  { intros k H1 H2. rewrite !obj_get_set.
    destruct (String.eqb_spec "required" k); [congruence|].
    destruct (String.eqb_spec "properties" k); congruence. }
  split.
  { intros name. subst kept. unfold without_flagged. rewrite obj_get_filter by assumption.
    cbn [snd]. destruct (obj_get props name) as [v|]; [|reflexivity].
    now destruct (truthy (js_get v "readOnly")). }
  split; [reflexivity|].
  intros e. unfold required_among. rewrite filter_In, includes_key. tauto.
Qed.

Lemma read_only_filter_on_objects_witness :
  exists result kept required',
    filterReadOnlyProperties (Some (example_schema "readOnly")) = Returned (JObj result) /\
    map fst result = ["properties"; "required"] /\
    obj_get result "properties" = Some (JObj kept) /\
    obj_get result "required" = Some (JArr required') /\
    (forall k, k <> "properties" -> k <> "required" ->
               obj_get result k =
               obj_get (flagged_schema "readOnly" ++
                        [("required", JArr [JStr "a"; JStr "b"])])%list k) /\
    (forall name,
       obj_get kept name =
       match obj_get [("a", JObj [("readOnly", JBool true)]); ("b", JObj [])] name with
       | Some v => if truthy (js_get v "readOnly") then None else Some v
       | None => None
       end) /\
    required' = filter (includes (map fst kept)) [JStr "a"; JStr "b"] /\
    (forall e, In e required' <->
               In e [JStr "a"; JStr "b"] /\
               exists s, e = JStr s /\ obj_get kept s <> None).
Proof.
  apply (read_only_filter_on_objects
           (flagged_schema "readOnly" ++ [("required", JArr [JStr "a"; JStr "b"])])%list
           [("a", JObj [("readOnly", JBool true)]); ("b", JObj [])]
           [JStr "a"; JStr "b"]);
    try (vm_compute; reflexivity).
  repeat constructor; discriminate.
Defined.

(** X12: on an array-typed schema with an array of required names in its
    items, [filterReadOnlyProperties] sets the properties and the required
    list of the items and leaves the schema's own keys alone, [properties]
    and [required] of the top level included. *)
Theorem read_only_filter_on_arrays (schema items props : obj) (required : list json) :
  is_text (obj_get schema "type") "array" = true ->
  obj_get schema "items" = Some (JObj items) ->
  obj_get items "properties" = Some (JObj props) ->
  obj_get items "required" = Some (JArr required) ->
  well_formed (JObj props) = true ->
  Forall (fun kv => snd kv <> JNull) props ->
  let kept := without_flagged "readOnly" props in
  let items' :=
    obj_set (obj_set items "properties" (JObj kept)) "required"
      (JArr (required_among kept required)) in
  filterReadOnlyProperties (Some (JObj schema)) =
    Returned (JObj (obj_set schema "items" (JObj items'))) /\
  map fst (obj_set schema "items" (JObj items')) = map fst schema /\
  (forall k, k <> "items" ->
             obj_get (obj_set schema "items" (JObj items')) k = obj_get schema k) /\
  map fst items' = map fst items /\
  (forall k, k <> "properties" -> k <> "required" -> obj_get items' k = obj_get items k).
Proof.
  intros Ht Hi Hp Hr Hwf Hnn kept items'. split.
  { rewrite (read_only_on_array schema items props _ Ht Hi Hp Hr Hwf Hnn). reflexivity. }
  split; [apply keys_obj_set_present; congruence|]. split.
  { intros k Hk. rewrite obj_get_set. destruct (String.eqb_spec "items" k); congruence. }
  split.
  { subst items'. rewrite !keys_obj_set_present; [reflexivity | congruence |].
    rewrite obj_get_set. cbn. congruence. }
  intros k H1 H2. subst items'. rewrite !obj_get_set.
  destruct (String.eqb_spec "required" k); [congruence|].
  destruct (String.eqb_spec "properties" k); congruence.
Qed.

Lemma read_only_filter_on_arrays_witness :
  filterReadOnlyProperties
    (Some (JObj [("type", JStr "array");
                 ("items", JObj [("properties", JObj [("id", JObj [("readOnly", JBool true)])]);
                                 ("required", JArr [JStr "id"])])])) =
  Returned (JObj [("type", JStr "array");
                  ("items", JObj [("properties", JObj []); ("required", JArr [])])]).
Proof.
  assert (Hnn : Forall (fun kv : string * json => snd kv <> JNull)
                  [("id", JObj [("readOnly", JBool true)])])
    by (repeat constructor; discriminate).
  exact (proj1 (read_only_filter_on_arrays
                  [("type", JStr "array");
                   ("items", JObj [("properties", JObj [("id", JObj [("readOnly", JBool true)])]);
                                   ("required", JArr [JStr "id"])])]
                  [("properties", JObj [("id", JObj [("readOnly", JBool true)])]);
                   ("required", JArr [JStr "id"])]
                  [("id", JObj [("readOnly", JBool true)])]
                  [JStr "id"] eq_refl eq_refl eq_refl eq_refl eq_refl Hnn)).
Defined.

(** X13: on a schema that is not array-typed, [filterWriteOnlyProperties]
    sets [properties] to the properties not marked [writeOnly]; it sets
    [required] to the names that are still properties when the list is an
    array, and does not touch [required] when it is absent or falsy. *)
Theorem write_only_filter_on_objects (schema props : obj) :
  is_text (obj_get schema "type") "array" = false ->
  obj_get schema "properties" = Some (JObj props) ->
  well_formed (JObj props) = true ->
  Forall (fun kv => snd kv <> JNull) props ->
  let kept := without_flagged "writeOnly" props in
  (forall required,
     obj_get schema "required" = Some (JArr required) ->
     filterWriteOnlyProperties (Some (JObj schema)) =
     Returned (JObj (obj_set (obj_set schema "properties" (JObj kept)) "required"
                       (JArr (required_among kept required))))) /\
  (truthy (obj_get schema "required") = false ->
   filterWriteOnlyProperties (Some (JObj schema)) =
   Returned (JObj (obj_set schema "properties" (JObj kept))) /\
   obj_get (obj_set schema "properties" (JObj kept)) "required" =
   obj_get schema "required").
Proof.
  intros Ht Hp Hwf Hnn kept. split.
  - intros required Hr.
    rewrite (write_only_on_object schema props _ Ht Hp Hr Hwf Hnn). reflexivity.
  - intros Hf. split.
    + rewrite (write_only_on_object schema props _ Ht Hp eq_refl Hwf Hnn), Hf.
      reflexivity.
    + rewrite obj_get_set. reflexivity.
Qed.

Lemma write_only_filter_on_objects_witness :
  filterWriteOnlyProperties (Some (JObj (flagged_schema "writeOnly"))) =
  Returned (JObj [("properties", JObj [("b", JObj [])])]).
Proof.
  assert (Hnn : Forall (fun kv : string * json => snd kv <> JNull)
                  [("a", JObj [("writeOnly", JBool true)]); ("b", JObj [])])
    by (repeat constructor; discriminate).
  exact (proj1 (proj2 (write_only_filter_on_objects (flagged_schema "writeOnly")
                         [("a", JObj [("writeOnly", JBool true)]); ("b", JObj [])]
                         eq_refl eq_refl eq_refl Hnn) eq_refl)).
Defined.

(** X14: the required list has to be an array.  On an object schema with
    properties, [filterReadOnlyProperties] throws for any other [required],
    an absent one included; [filterWriteOnlyProperties] throws when
    [required] is truthy and not an array, and accepts an absent or falsy
    one. *)
Theorem filters_want_required_array (schema props : obj) :
  is_text (obj_get schema "type") "array" = false ->
  obj_get schema "properties" = Some (JObj props) ->
  well_formed (JObj props) = true ->
  Forall (fun kv => snd kv <> JNull) props ->
  (forall names, obj_get schema "required" <> Some (JArr names)) ->
  filterReadOnlyProperties (Some (JObj schema)) = Thrown TypeError /\
  (truthy (obj_get schema "required") = true ->
   filterWriteOnlyProperties (Some (JObj schema)) = Thrown TypeError) /\
  (truthy (obj_get schema "required") = false ->
   exists result, filterWriteOnlyProperties (Some (JObj schema)) = Returned result).
Proof.
  intros Ht Hp Hwf Hnn Hr.
  rewrite (read_only_on_object schema props _ Ht Hp eq_refl Hwf Hnn).
  rewrite (write_only_on_object schema props _ Ht Hp eq_refl Hwf Hnn).
  destruct (obj_get schema "required") as [[| b | n | s | names | ms]|];
    try (now destruct (Hr names));
    (split; [reflexivity|]); split; intros H; rewrite H;
    try reflexivity; try (eexists; reflexivity).
Qed.

Lemma filters_want_required_array_witness :
  filterReadOnlyProperties
    (Some (JObj (flagged_schema "readOnly" ++ [("required", JStr "a")])%list)) =
  Thrown TypeError /\
  filterWriteOnlyProperties
    (Some (JObj (flagged_schema "writeOnly" ++ [("required", JStr "a")])%list)) =
  Thrown TypeError.
Proof.
  assert (Hr : forall flag names,
            obj_get (flagged_schema flag ++ [("required", JStr "a")])%list "required" <>
            Some (JArr names)) by (intros flag names; discriminate).
  split.
  - apply (filters_want_required_array
             (flagged_schema "readOnly" ++ [("required", JStr "a")])%list
             [("a", JObj [("readOnly", JBool true)]); ("b", JObj [])]);
      try reflexivity; [repeat constructor; discriminate | apply Hr].
  - apply (filters_want_required_array
             (flagged_schema "writeOnly" ++ [("required", JStr "a")])%list
             [("a", JObj [("writeOnly", JBool true)]); ("b", JObj [])]);
      try reflexivity; [repeat constructor; discriminate | apply Hr].
Defined.

Lemma filter_all {A : Type} (P : A -> bool) (l : list A) :
  (forall x, In x l -> P x = true) -> filter P l = l.
Proof.
  induction l as [|x l IH]; intros H; [reflexivity|]. cbn [filter].
  rewrite H by now left. f_equal. apply IH. intros y Hy. apply H. now right.
Qed.

(** X15: filtering a filtered schema changes nothing: on an object schema
    with properties and an array of required names, a second call of
    [filterReadOnlyProperties] returns what the first returned. *)
Theorem read_only_filter_idempotent (schema props : obj) (required : list json)
  (result : json) :
  is_text (obj_get schema "type") "array" = false ->
  obj_get schema "properties" = Some (JObj props) ->
  obj_get schema "required" = Some (JArr required) ->
  well_formed (JObj props) = true ->
  Forall (fun kv => snd kv <> JNull) props ->
  filterReadOnlyProperties (Some (JObj schema)) = Returned result ->
  filterReadOnlyProperties (Some result) = Returned result.
Proof.
  intros Ht Hp Hr Hwf Hnn.
  rewrite (read_only_on_object schema props _ Ht Hp Hr Hwf Hnn).
  cbn [filter_required bind]. intros [= <-].
  set (kept := without_flagged "readOnly" props).
  set (required' := filter (includes (map fst kept)) required).
  set (result := obj_set (obj_set schema "properties" (JObj kept)) "required"
                   (JArr required')).
  assert (Hkept : obj_get result "properties" = Some (JObj kept))
    by (subst result; now rewrite !obj_get_set).
  assert (Hreq : obj_get result "required" = Some (JArr required'))
    by (subst result; now rewrite obj_get_set).
  assert (Htype : is_text (obj_get result "type") "array" = false)
    by (subst result; now rewrite !obj_get_set).
  assert (Hsub : forall x, In x kept -> In x props)
    by (intros x Hx; now apply filter_In in Hx).
  assert (Hwf' : well_formed (JObj kept) = true).
  { simpl in Hwf |- *. apply andb_true_iff in Hwf as [Hc Hv].
    apply andb_true_iff. split; [now apply keys_canonical_filter|].
    rewrite forallb_forall in Hv |- *. auto. }
  assert (Hnn' : Forall (fun kv => snd kv <> JNull) kept).
  { rewrite Forall_forall in Hnn |- *. auto. }
  rewrite (read_only_on_object result kept _ Htype Hkept Hreq Hwf' Hnn').
  cbn [filter_required bind].
  assert (Ek : without_flagged "readOnly" kept = kept).
  { apply filter_all. intros x Hx. now apply filter_In in Hx. }
  rewrite Ek.
  assert (Er : filter (includes (map fst kept)) required' = required').
  { apply filter_all. intros x Hx. now apply filter_In in Hx. }
  rewrite Er. rewrite (obj_set_same result "properties") by assumption.
  now rewrite obj_set_same.
Qed.

Lemma read_only_filter_idempotent_witness :
  filterReadOnlyProperties
    (Some (JObj [("properties", JObj [("b", JObj [])]); ("required", JArr [JStr "b"])])) =
  Returned (JObj [("properties", JObj [("b", JObj [])]); ("required", JArr [JStr "b"])]).
Proof.
  assert (Hnn : Forall (fun kv : string * json => snd kv <> JNull)
                  [("a", JObj [("readOnly", JBool true)]); ("b", JObj [])])
    by (repeat constructor; discriminate).
  apply (read_only_filter_idempotent
           (flagged_schema "readOnly" ++ [("required", JArr [JStr "a"; JStr "b"])])%list
           [("a", JObj [("readOnly", JBool true)]); ("b", JObj [])]
           [JStr "a"; JStr "b"]);
    try reflexivity; try exact Hnn; vm_compute; reflexivity.
Defined.

(** X16: a schema without any own property is answered by a new empty object,
    whatever it is (an empty object, an empty array, an empty text, a
    number, a boolean); [undefined] and [null] make both filters throw. *)
Theorem filters_on_empty_schema (schema : option json) :
  own_props schema = [] ->
  filterReadOnlyProperties schema =
    match schema with
    | None | Some JNull => Thrown TypeError
    | Some _ => Returned (JObj [])
    end /\
  filterWriteOnlyProperties schema =
    match schema with
    | None | Some JNull => Thrown TypeError
    | Some _ => Returned (JObj [])
    end.
Proof.
  intros H. unfold filterReadOnlyProperties, filterWriteOnlyProperties.
  destruct schema as [[]|]; cbn [Object_keys bind]; try (split; reflexivity);
    rewrite H; split; reflexivity.
Qed.

Lemma filters_on_empty_schema_witness :
  filterReadOnlyProperties (Some (JArr [])) = Returned (JObj []) /\
  filterWriteOnlyProperties (Some (JArr [])) = Returned (JObj []).
Proof. apply (filters_on_empty_schema (Some (JArr []))). reflexivity. Defined.

(** ** Responses, methods and routes *)

Lemma add_response_step (responses acc : obj) (code : string) (response : json) :
  obj_get responses code = Some response ->
  add_response (Some (JObj responses)) acc code =
  match response with
  | JNull => Thrown TypeError
  | _ =>
      if has_json_content response
      then filtered <- filterWriteOnlyProperties (response_schema response) ;;
           Returned (obj_set acc code filtered)
      else Returned acc
  end.
Proof.
  intros H. unfold add_response, has_json_content, response_schema.
  cbn [get_prop js_get bind]. rewrite H. cbn [bind].
  destruct response; try reflexivity; cbn [get_prop bind];
    match goal with
    | |- context [get_if_truthy ?c "application/json"] =>
        destruct (get_if_truthy c "application/json") as [media|]; [|reflexivity]
    end;
    destruct media; reflexivity.
Qed.

Lemma fold_responses (responses : obj) :
  keys_canonical (map fst responses) = true ->
  forall (l pre acc out : obj),
    responses = (pre ++ l)%list ->
    Forall2 (fun kv m => fst m = fst kv /\
                         filterWriteOnlyProperties (response_schema (snd kv)) =
                         Returned (snd m))
      (filter (fun kv => has_json_content (snd kv)) pre) acc ->
    foldM (add_response (Some (JObj responses))) (map fst l) acc = Returned out ->
    Forall2 (fun kv m => fst m = fst kv /\
                         filterWriteOnlyProperties (response_schema (snd kv)) =
                         Returned (snd m))
      (filter (fun kv => has_json_content (snd kv)) responses) out.
Proof.
  intros Hc. induction l as [|[k v] l IH]; intros pre acc out E Hacc.
  - cbn [map foldM]. intros [= <-]. rewrite E, app_nil_r. exact Hacc.
  - cbn [map fst foldM].
    assert (Hget : obj_get responses k = Some v).
    { apply obj_get_in_canonical; [exact Hc|]. rewrite E. apply in_or_app.
      right. now left. }
    rewrite (add_response_step responses acc k v Hget).
    assert (Enext : responses = ((pre ++ [(k, v)]) ++ l)%list)
      by (rewrite <- app_assoc; exact E).
    assert (Hstep : forall acc',
              Forall2 (fun kv m => fst m = fst kv /\
                         filterWriteOnlyProperties (response_schema (snd kv)) =
                         Returned (snd m))
                (filter (fun kv => has_json_content (snd kv)) (pre ++ [(k, v)])) acc' ->
              foldM (add_response (Some (JObj responses))) (map fst l) acc' =
              Returned out ->
              Forall2 (fun kv m => fst m = fst kv /\
                         filterWriteOnlyProperties (response_schema (snd kv)) =
                         Returned (snd m))
                (filter (fun kv => has_json_content (snd kv)) responses) out)
      by (intros acc'; apply IH; exact Enext).
    clear IH. rewrite filter_app in Hstep. cbn [filter snd] in Hstep.
    destruct (has_json_content v) eqn:Ej.
    + assert (Ekeys : map fst acc =
                      map fst (filter (fun kv => has_json_content (snd kv)) pre)).
      { clear - Hacc. induction Hacc as [|x y xs ys [Hxy _] _ IHa]; [reflexivity|].
        cbn [map]. now rewrite Hxy, IHa. }
      assert (Hcan : keys_canonical
                       (map fst (filter (fun kv => has_json_content (snd kv)) pre) ++
                        k :: map fst (filter (fun kv => has_json_content (snd kv)) l))
                     = true).
      { pose proof (keys_canonical_filter
                      (fun kv => has_json_content (snd kv)) responses Hc) as Hf.
        rewrite E, filter_app, map_app in Hf. cbn [filter snd] in Hf.
        rewrite Ej in Hf. exact Hf. }
      apply keys_canonical_app in Hcan as [Hn Hb]. rewrite <- Ekeys in Hn, Hb.
      destruct (filterWriteOnlyProperties (response_schema v)) as [filtered| | |] eqn:Ef;
        [|destruct v; discriminate ..].
      intros Hout. apply (Hstep (acc ++ [(k, filtered)])%list).
      * apply Forall2_app; [exact Hacc|]. repeat constructor. exact Ef.
      * rewrite <- (obj_set_last acc k filtered Hn Hb).
        destruct v; try discriminate; exact Hout.
    + intros Hout. apply (Hstep acc).
      * rewrite app_nil_r. exact Hacc.
      * destruct v; try discriminate; exact Hout.
Qed.

(** X17: [parseResponses] keeps the status codes whose response declares
    [application/json] content, in the order of the keys, each with what
    [filterWriteOnlyProperties] makes of its schema (of the empty object
    when the schema is missing or falsy); responses of other content types
    are dropped, and with no code left the result has no [response] key. *)
Theorem parseResponses_keeps_json_content (responses out : obj) :
  keys_canonical (map fst responses) = true ->
  ~ In "__proto__" (map fst responses) ->
  parseResponses (Some (JObj responses)) = Returned out ->
  exists schemas : obj,
    out = match schemas with
          | [] => []
          | _ => [("response", JObj schemas)]
          end /\
    map fst schemas = json_codes responses /\
    Forall2 (fun kv m => fst m = fst kv /\
                         filterWriteOnlyProperties (response_schema (snd kv)) =
                         Returned (snd m))
      (filter (fun kv => has_json_content (snd kv)) responses) schemas.
Proof.
  intros Hc _. unfold parseResponses. cbn [Object_keys own_props bind].
  destruct (foldM (add_response (Some (JObj responses))) (map fst responses) [])
    as [schemas| | |] eqn:Ef; try discriminate.
  cbn [bind]. intros [= <-]. exists schemas.
  pose proof (fold_responses responses Hc responses [] [] schemas eq_refl
                (Forall2_nil _) Ef) as H.
  split; [reflexivity|]. split; [|exact H].
  unfold json_codes. clear - H.
  induction H as [|x y xs ys [Hxy _] _ IH]; [reflexivity|].
  cbn [map]. now rewrite Hxy, IH.
Qed.

Lemma parseResponses_keeps_json_content_witness :
  exists schemas : obj,
    [("response", JObj [("200", JObj [])])] =
      match schemas with
      | [] => []
      | _ => [("response", JObj schemas)]
      end /\
    map fst schemas = ["200"] /\
    Forall2 (fun kv m => fst m = fst kv /\
                         filterWriteOnlyProperties (response_schema (snd kv)) =
                         Returned (snd m))
      [("200", JObj [("content", JObj [("application/json", JObj [])])])] schemas.
Proof.
  apply (parseResponses_keeps_json_content
           [("200", JObj [("content", JObj [("application/json", JObj [])])]);
            ("404", JObj [("content", JObj [("text/plain", JObj [])])]);
            ("default", JObj [])]
           [("response", JObj [("200", JObj [])])]).
  - reflexivity.
  - intros H. vm_compute in H. intuition discriminate.
  - vm_compute. reflexivity.
Defined.

Lemma parse_method_method (item : option json) (handlers : registry)
  (globalParameters : json) (verb : string) (route : protoRoute) :
  parse_method item handlers globalParameters verb = Returned route ->
  method route = toUpperCase verb.
Proof.
  unfold parse_method.
  repeat match goal with
         | |- bind ?m _ = Returned _ -> _ =>
             destruct m; cbn [bind]; try discriminate
         | |- match ?h with HFunction _ => _ | _ => _ end = Returned _ -> _ =>
             destruct h; try discriminate
         end.
  now intros [= <-].
Qed.

Lemma parseMethods_methods (item : json) (handlers : registry)
  (routes : list protoRoute) :
  item <> JNull ->
  parseMethods (Some item) handlers = Returned routes ->
  map method routes = map toUpperCase (verbs_of item) /\
  Forall (fun r => In (method r) (map toUpperCase methodsArray)) routes.
Proof.
  intros Hi. rewrite (parseMethods_unfold item handlers Hi).
  intros H. apply mapM_returned in H.
  assert (Hv : Forall (fun verb => In verb methodsArray) (verbs_of item)).
  { apply Forall_forall. intros verb Hin. apply filter_In in Hin as [_ Hin].
    apply existsb_exists in Hin as (m & Hm & Heq).
    apply String.eqb_eq in Heq. now subst. }
  induction H as [|verb route verbs routes Hr _ IH]; [split; constructor|].
  apply parse_method_method in Hr. inversion Hv as [|? ? Hverb Hrest]; subst.
  destruct (IH Hrest) as [IH1 IH2]. split.
  - cbn [map]. now rewrite Hr, IH1.
  - constructor; [|exact IH2]. rewrite Hr. now apply in_map.
Qed.

(** X18: [parseMethods] compiles the keys of a path item that are one of the
    eight method names, in the order of the keys, each to a proto-route
    whose method is the key in upper case; the other keys are skipped, and
    a path item without a method gives no route and looks up no handler. *)
Theorem parseMethods_follows_keys (item : json) (handlers : registry) :
  item <> JNull ->
  (verbs_of item = [] -> parseMethods (Some item) handlers = Returned []) /\
  forall routes,
    parseMethods (Some item) handlers = Returned routes ->
    map method routes = map toUpperCase (verbs_of item) /\
    Forall (fun r => In (method r) (map toUpperCase methodsArray)) routes.
Proof.
  intros Hi. split.
  - rewrite (parseMethods_unfold item handlers Hi). intros ->. reflexivity.
  - intros routes. now apply parseMethods_methods.
Qed.

Lemma parseMethods_follows_keys_witness :
  parseMethods
    (Some (JObj [("summary", JStr "a pet"); ("parameters", JArr [])]))
    no_handlers = Returned [].
Proof.
  apply (parseMethods_follows_keys
           (JObj [("summary", JStr "a pet"); ("parameters", JArr [])]) no_handlers);
    [discriminate | reflexivity].
Defined.

Lemma Forall_concat_returned {A B : Type} (f : A -> outcome (list B))
  (P : B -> Prop) (xs : list A) (ys : list (list B)) :
  (forall x y, f x = Returned y -> Forall P y) ->
  mapM f xs = Returned ys -> Forall P (List.concat ys).
Proof.
  intros Hf H. apply mapM_returned in H.
  induction H as [|x y xs ys Hxy _ IH]; [constructor|].
  cbn [List.concat]. apply Forall_app. split; [now apply (Hf x)|exact IH].
Qed.

(** X19: the routes [routesFromOpenApiSpecs] returns are, for the keys of
    [paths] of the resolved document in their order, the proto-routes
    [parseMethods] makes of the path item under the key, each with the
    transformed key as URL; so every URL is without a brace and every
    method is one of the eight in upper case. *)
Theorem routes_have_router_urls (openAPiRawSpecs : obj) (handlers : registry)
  (routes : list route) :
  routesFromOpenApiSpecs openAPiRawSpecs handlers = Returned routes ->
  exists specs paths groups,
    resolveInternalReferences (JObj (default_components openAPiRawSpecs)) =
      Returned specs /\
    js_get specs "paths" = Some paths /\
    routes = List.concat groups /\
    Forall2 (fun path group =>
               exists item,
                 js_get paths path = Some item /\
                 parseMethods (Some item) handlers = Returned (map routeSpec group) /\
                 Forall (fun r => url r = transformPath path) group)
      (map fst (own_props (Some paths))) groups /\
    Forall (fun r => occurs "{" (url r) = false /\
                     occurs "}" (url r) = false /\
                     In (method (routeSpec r)) (map toUpperCase methodsArray))
      routes.
Proof.
  unfold routesFromOpenApiSpecs.
  destruct (resolveInternalReferences (JObj (default_components openAPiRawSpecs)))
    as [specs| | |]; try discriminate. cbn [bind].
  destruct (get_prop (Some specs) "paths") as [paths| | |] eqn:Ep; try discriminate.
  cbn [bind].
  destruct (Object_keys paths) as [pathKeys| | |] eqn:Ek; try discriminate.
  cbn [bind].
  destruct (mapM (routes_of_path specs handlers) pathKeys) as [found| | |] eqn:Em;
    try discriminate.
  cbn [bind]. intros [= <-].
  destruct paths as [paths|]; [|discriminate].
  assert (Hpaths : js_get specs "paths" = Some paths).
  { destruct specs; try discriminate; now injection Ep. }
  assert (Hkeys : pathKeys = map fst (own_props (Some paths))).
  { destruct paths; try discriminate; now injection Ek. }
  assert (Hnn : paths <> JNull) by (intros ->; discriminate).
  assert (Hpath : forall path group,
            routes_of_path specs handlers path = Returned group ->
            exists item,
              js_get paths path = Some item /\
              parseMethods (Some item) handlers = Returned (map routeSpec group) /\
              Forall (fun r => url r = transformPath path) group /\
              Forall (fun r => In (method (routeSpec r)) (map toUpperCase methodsArray))
                group).
  { intros path group. unfold routes_of_path. rewrite Ep. cbn [bind].
    assert (Eg : get_prop (Some paths) path = Returned (js_get paths path))
      by (destruct paths; congruence || reflexivity).
    rewrite Eg. cbn [bind].
    destruct (js_get paths path) as [item|]; [|discriminate].
    destruct (parseMethods (Some item) handlers) as [routeSpecs| | |] eqn:Er;
      try discriminate.
    cbn [bind]. intros [= <-]. exists item. split; [reflexivity|].
    rewrite map_map. cbn [routeSpec]. rewrite map_id. split; [exact Er|].
    assert (Hn : item <> JNull) by (intros ->; discriminate).
    destruct (parseMethods_methods item handlers routeSpecs Hn Er) as [_ Hm].
    split; apply Forall_forall; intros r Hin;
      apply in_map_iff in Hin as (rs & <- & Hrs); [reflexivity|].
    cbn [routeSpec]. rewrite Forall_forall in Hm. now apply Hm. }
  exists specs, paths, found. split; [reflexivity|]. split; [exact Hpaths|].
  split; [reflexivity|]. split.
  - rewrite <- Hkeys. apply mapM_returned in Em.
    eapply Forall2_impl; [|exact Em]. intros path group Hg.
    destruct (Hpath path group Hg) as (item & H1 & H2 & H3 & _). now exists item.
  - eapply Forall_concat_returned; [|exact Em]. intros path group Hg.
    destruct (Hpath path group Hg) as (item & _ & _ & Hu & Hm).
    rewrite Forall_forall in Hu, Hm |- *. intros r Hin.
    rewrite (Hu r Hin), transformPath_colons.
    destruct (colons_without_braces path) as [H1 H2]. repeat split; auto.
Qed.

Lemma routes_have_router_urls_witness :
  exists specs paths groups,
    resolveInternalReferences
      (JObj (default_components [("paths", JObj [("/documents/{id}", document_item)])])) =
      Returned specs /\
    js_get specs "paths" = Some paths /\
    map (fun routeSpec => {| routeSpec := routeSpec; url := "/documents/:id" |})
      document_routes = List.concat groups /\
    Forall2 (fun path group =>
               exists item,
                 js_get paths path = Some item /\
                 parseMethods (Some item) document_handlers =
                   Returned (map routeSpec group) /\
                 Forall (fun r => url r = transformPath path) group)
      (map fst (own_props (Some paths))) groups /\
    Forall (fun r => occurs "{" (url r) = false /\
                     occurs "}" (url r) = false /\
                     In (method (routeSpec r)) (map toUpperCase methodsArray))
      (map (fun routeSpec => {| routeSpec := routeSpec; url := "/documents/:id" |})
         document_routes).
Proof.
  apply (routes_have_router_urls
           [("paths", JObj [("/documents/{id}", document_item)])] document_handlers).
  vm_compute. reflexivity.
Defined.

(** ** The scan and the request body *)

Lemma substring_app (m after : string) :
  substring 0 (String.length m) (m ++ after) = m.
Proof.
  induction m as [|c m IH]; cbn [String.length append substring].
  - now destruct after.
  - now rewrite IH.
Qed.

Lemma substring_split (n : nat) (s : string) :
  n <= String.length s ->
  exists after, s = substring 0 n s ++ after /\ String.length (substring 0 n s) = n.
Proof.
  revert s; induction n as [|n IH]; intros s H.
  - exists s. now destruct s.
  - destruct s as [|c s]; cbn [String.length] in H; [lia|].
    destruct (IH s) as (after & E & L); [lia|].
    exists after. cbn [substring append String.length]. split; congruence.
Qed.

Lemma match_body_length (s : string) (n m : nat) :
  match_body n s = Some m -> 2 <= m /\ n < m /\ m <= n + String.length s.
Proof.
  revert n; induction s as [|c s IH]; intros n; cbn [match_body String.length];
    [discriminate|].
  destruct (is_char c 34).
  - destruct n; [discriminate|]. intros [= <-]. lia.
  - intros H. apply IH in H. lia.
Qed.

Lemma match_ci_length (p s r : string) :
  match_ci p s = Some r -> String.length s = String.length p + String.length r.
Proof.
  revert s; induction p as [|a p IH]; intros s; cbn [match_ci String.length].
  - now intros [= ->].
  - destruct s as [|b s]; [discriminate|].
    destruct (Ascii.eqb (upper_char a) (upper_char b)); [|discriminate].
    intros H. apply IH in H. cbn [String.length]. lia.
Qed.

Lemma match_value_length (s : string) (n : nat) :
  match_value s = Some n -> 3 <= n /\ n <= String.length s.
Proof.
  unfold match_value. destruct s as [|c s]; [discriminate|].
  destruct (is_char c 34); [|discriminate].
  destruct (match_body 0 s) as [m|] eqn:E; [|discriminate].
  cbn [option_map String.length]. intros [= <-].
  apply match_body_length in E. lia.
Qed.

Lemma match_ref_length (s : string) (n : nat) :
  match_ref s = Some n -> String.length ref_key + 3 <= n /\ n <= String.length s.
Proof.
  unfold match_ref. destruct (match_ci ref_key s) as [r|] eqn:E; [|discriminate].
  apply match_ci_length in E.
  assert (Lk : String.length ref_key = 7) by reflexivity. rewrite Lk in *.
  assert (Hplain : forall m, option_map (fun n => String.length ref_key + n) (match_value r)
                             = Some m ->
                             String.length ref_key + 3 <= m /\ m <= String.length s).
  { intros m. destruct (match_value r) as [k|] eqn:Ev; [|discriminate].
    cbn [option_map]. intros [= <-]. apply match_value_length in Ev.
    lia. }
  destruct r as [|c r']; [apply Hplain|].
  destruct (is_char c 32); [|apply Hplain].
  destruct (match_value r') as [k|] eqn:Ev; [|apply Hplain].
  cbn [option_map]. intros [= <-]. apply match_value_length in Ev.
  cbn [String.length] in E. lia.
Qed.

Lemma scan_refs_sound (s : string) :
  forall skip before m,
    In m (scan_refs skip s) ->
    exists before' after,
      (before ++ s = before' ++ m ++ after) /\
      match_ref (m ++ after) = Some (String.length m).
Proof.
  induction s as [|c s IH]; intros skip before m; cbn [scan_refs]; [intros []|].
  assert (Hnext : forall k, In m (scan_refs k s) ->
            exists before' after,
              (before ++ String c s = before' ++ m ++ after) /\
              match_ref (m ++ after) = Some (String.length m)).
  { intros k H. destruct (IH k (before ++ str1 c) m H) as (b & a & E & Hm).
    exists b, a. split; [|exact Hm]. rewrite <- E, append_assoc. reflexivity. }
  destruct skip as [|k]; [|apply Hnext].
  destruct (match_ref (String c s)) as [n|] eqn:E; [|apply Hnext].
  intros [<-|H]; [|now apply (Hnext (Nat.pred n))].
  destruct (match_ref_length _ _ E) as [_ Hle].
  destruct (substring_split n (String c s) Hle) as (after & Es & L).
  exists before, after. split; [now rewrite <- Es|].
  rewrite <- Es, L. exact E.
Qed.

Lemma scan_refs_none (s : string) :
  matches_somewhere s = false -> scan_refs 0 s = [].
Proof.
  induction s as [|c s IH]; cbn [matches_somewhere scan_refs]; [reflexivity|].
  destruct (match_ref (String c s)); [discriminate | exact IH].
Qed.

(** X20: [getRefsInsideSpec] reports nothing exactly when the expression
    matches nowhere in the text, and every text it reports is a piece of
    the given text at which the expression matches in full: the quoted key
    in any case, the colon, at most one space and a quoted text of at least
    one code unit. *)
Theorem getRefsInsideSpec_reports_matches (specsStr : string) :
  (getRefsInsideSpec specsStr = [] <-> matches_somewhere specsStr = false) /\
  forall m, In m (getRefsInsideSpec specsStr) ->
    String.length ref_key + 3 <= String.length m /\
    exists before after,
      specsStr = before ++ m ++ after /\
      match_ref (m ++ after) = Some (String.length m).
Proof.
  split.
  - split.
    + intros H. apply Bool.not_true_iff_false. intros Hm.
      now apply scan_finds_matches in Hm.
    + apply scan_refs_none.
  - intros m H.
    destruct (scan_refs_sound specsStr 0 EmptyString m H) as (b & a & E & Hm).
    split; [apply (match_ref_length _ _ Hm)|]. now exists b, a.
Qed.

Lemma getRefsInsideSpec_reports_matches_witness :
  String.length ref_key + 3 <= String.length (ref_text "#/components/schemas/Missing") /\
  exists before after,
    JSON_stringify missing_doc =
      before ++ ref_text "#/components/schemas/Missing" ++ after /\
    match_ref (ref_text "#/components/schemas/Missing" ++ after) =
      Some (String.length (ref_text "#/components/schemas/Missing")).
Proof.
  apply (getRefsInsideSpec_reports_matches (JSON_stringify missing_doc)).
  vm_compute. now left.
Defined.

(** X21: a request body that is missing, or has no [application/json]
    content, gives no [body]; one whose JSON content has no schema makes
    [parseRequestBody] throw, where [parseResponses] puts the empty object
    for the same content. *)
Theorem parseRequestBody_missing_parts (requestBody : option json) :
  (truthy (get_if_truthy (get_if_truthy requestBody "content") "application/json")
   = false ->
   parseRequestBody requestBody = Returned []) /\
  forall media code,
    get_if_truthy (get_if_truthy requestBody "content") "application/json"
    = Some media ->
    truthy (Some media) = true ->
    js_get media "schema" = None \/ js_get media "schema" = Some JNull ->
    code <> "__proto__" ->
    parseRequestBody requestBody = Thrown TypeError /\
    forall response,
      requestBody = Some response ->
      parseResponses (Some (JObj [(code, response)])) =
      Returned [("response", JObj [(code, JObj [])])].
Proof.
  split.
  - intros H. unfold parseRequestBody. now rewrite H.
  - intros media code Em Ht Hs _. split.
    + unfold parseRequestBody. rewrite Em, Ht.
      destruct media; try discriminate; cbn [get_prop bind];
        destruct Hs as [-> | ->]; reflexivity.
    + intros response ->. unfold parseResponses.
      cbn [Object_keys own_props map fst bind foldM].
      assert (Hr : response <> JNull).
      { intros ->. discriminate. }
      assert (Ha : add_response (Some (JObj [(code, response)])) [] code =
                   Returned [(code, JObj [])]).
      { rewrite (add_response_step [(code, response)] [] code response)
          by (cbn [obj_get]; now rewrite String.eqb_refl).
        unfold has_json_content, response_schema.
        assert (Eg : get_if_truthy (js_get response "content") "application/json"
                     = Some media).
        { change (get_if_truthy (Some response) "content")
            with (if truthy (Some response) then js_get response "content" else None)
            in Em.
          destruct (truthy (Some response)); [exact Em | discriminate Em]. }
        rewrite Eg, Ht.
        assert (Es : (if truthy (js_get media "schema") then js_get media "schema"
                      else Some (JObj [])) = Some (JObj []))
          by (destruct Hs as [-> | ->]; reflexivity).
        cbv zeta. rewrite Es.
        assert (Ef : filterWriteOnlyProperties (Some (JObj [])) = Returned (JObj []))
          by reflexivity.
        rewrite Ef. cbn [bind].
        rewrite (obj_set_last [] code (JObj [])) by (cbn; tauto).
        destruct response; try congruence; reflexivity. }
      rewrite Ha. reflexivity.
Qed.

Lemma parseRequestBody_missing_parts_witness :
  parseRequestBody (Some (JObj [("content", JObj [("text/plain", JObj [])])])) =
    Returned [] /\
  parseRequestBody (Some (JObj [("content", JObj [("application/json", JObj [])])])) =
    Thrown TypeError.
Proof.
  split.
  - apply (parseRequestBody_missing_parts
             (Some (JObj [("content", JObj [("text/plain", JObj [])])]))).
    reflexivity.
  - apply (proj2 (parseRequestBody_missing_parts
                    (Some (JObj [("content", JObj [("application/json", JObj [])])])))
             (JObj []) "200");
      [reflexivity | reflexivity | now left | discriminate].
Defined.

(** ** What ends the process *)

Lemma parse_method_exited (item : option json) (handlers : registry)
  (globalParameters : json) (verb : string) (d : diagnostic) :
  parse_method item handlers globalParameters verb = Exited d ->
  exists operationId,
    d = AbsentHandler (lower_first operationId) /\
    forall f, handlers (lower_first operationId) <> HFunction f.
Proof.
  unfold parse_method.
  destruct (get_prop item verb) as [operation| |d'|] eqn:Eo; try discriminate;
    [|now destruct (never_exits_get_prop item verb d')].
  cbn [bind].
  destruct (get_prop operation "operationId") as [id| |d'|] eqn:Ei; try discriminate;
    [|now destruct (never_exits_get_prop operation "operationId" d')].
  cbn [bind]. destruct id as [[| | |s| |]|]; try discriminate.
  cbn [createCamelCaseFromStr bind]. fold (lower_first s).
  destruct (handlers (lower_first s)) as [|f|] eqn:Eh.
  - intros [= <-]. exists s. split; [reflexivity|]. congruence.
  - intros H. exfalso. revert H.
    match goal with |- ?m = Exited d -> False => assert (Hq : never_exits m) end;
      [|apply Hq].
    quiet.
  - intros [= <-]. exists s. split; [reflexivity|]. congruence.
Qed.

Lemma mapM_exited {A B : Type} (f : A -> outcome B) (xs : list A) (d : diagnostic) :
  mapM f xs = Exited d -> exists x, In x xs /\ f x = Exited d.
Proof.
  induction xs as [|x xs IH]; cbn [mapM]; [discriminate|].
  destruct (f x) as [y| |d'|] eqn:E; cbn [bind]; try discriminate.
  - destruct (mapM f xs) as [ys| |d'|]; cbn [bind]; try discriminate.
    intros [= ->]. destruct (IH eq_refl) as (x' & Hin & Hx).
    exists x'. split; [now right | assumption].
  - intros [= ->]. exists x. split; [now left | assumption].
Qed.

Lemma never_exits_resolve_group (specs : json) (g : string) :
  never_exits (resolve_group specs g).
Proof. unfold resolve_group. quiet; unfold resolve_component; quiet. Qed.

(** X22: when [routesFromOpenApiSpecs] ends the process for an absent
    handler, the name it reports is an operation id with its first letter in
    lower case, under which the handlers hold no function; when it ends it
    for orphan references, the list it reports is not empty and is what the
    scan finds in the text of a document. *)
Theorem exits_name_their_cause (openAPiRawSpecs : obj) (handlers : registry)
  (d : diagnostic) :
  routesFromOpenApiSpecs openAPiRawSpecs handlers = Exited d ->
  match d with
  | AbsentHandler name =>
      (exists operationId, name = lower_first operationId) /\
      forall f, handlers name <> HFunction f
  | OrphanRefs refs =>
      refs <> [] /\ exists specs, refs = getRefsInsideSpec (JSON_stringify specs)
  end.
Proof.
  unfold routesFromOpenApiSpecs.
  destruct (resolveInternalReferences (JObj (default_components openAPiRawSpecs)))
    as [specs| |d'|] eqn:Er; cbn [bind]; try discriminate.
  - destruct (get_prop (Some specs) "paths") as [paths| |d'|] eqn:Ep; cbn [bind];
      try discriminate;
      [|now destruct (never_exits_get_prop (Some specs) "paths" d')].
    destruct (Object_keys paths) as [pathKeys| |d'|] eqn:Ek; cbn [bind];
      try discriminate; [|now destruct (never_exits_Object_keys paths d')].
    destruct (mapM (routes_of_path specs handlers) pathKeys) as [found| |d'|] eqn:Em;
      cbn [bind]; try discriminate.
    intros [= ->]. apply mapM_exited in Em as (path & _ & Hpath).
    unfold routes_of_path in Hpath. rewrite Ep in Hpath. cbn [bind] in Hpath.
    destruct (get_prop paths path) as [pathItem| |d'|] eqn:Ei; cbn [bind] in Hpath;
      try discriminate;
      [|now destruct (never_exits_get_prop paths path d')].
    destruct (parseMethods pathItem handlers) as [routeSpecs| |d'|] eqn:Emeth;
      cbn [bind] in Hpath; try discriminate.
    injection Hpath as ->. unfold parseMethods in Emeth.
    destruct (get_prop pathItem "parameters") as [parameters| |d'|] eqn:Eg;
      cbn [bind] in Emeth; try discriminate;
      [|now destruct (never_exits_get_prop pathItem "parameters" d')].
    destruct (Object_keys pathItem) as [keys| |d'|] eqn:Eo; cbn [bind] in Emeth;
      try discriminate; [|now destruct (never_exits_Object_keys pathItem d')].
    apply mapM_exited in Emeth as (verb & _ & Hverb).
    apply parse_method_exited in Hverb as (operationId & -> & Hh).
    split; [now exists operationId | exact Hh].
  - intros [= ->]. unfold resolveInternalReferences in Er.
    destruct (parse_opt _) as [copy| |d'|] eqn:Ec; cbn [bind] in Er; try discriminate;
      [|unfold parse_opt in Ec; now destruct (never_exits_JSON_parse _ d' Ec)].
    destruct (get_prop (Some copy) "components") as [components| |d'|] eqn:Eg;
      cbn [bind] in Er; try discriminate;
      [|now destruct (never_exits_get_prop (Some copy) "components" d')].
    destruct (Object_keys components) as [groups| |d'|] eqn:Ek; cbn [bind] in Er;
      try discriminate; [|now destruct (never_exits_Object_keys components d')].
    destruct (foldM resolve_group groups copy) as [specs| |d'|] eqn:Ef;
      cbn [bind] in Er; try discriminate.
    + destruct (getRefsInsideSpec (JSON_stringify specs)) as [|r refs] eqn:Es;
        [discriminate|].
      injection Er as <-. split; [discriminate|]. now exists specs.
    + exfalso. revert Ef. apply never_exits_foldM. intros acc g.
      apply never_exits_resolve_group.
Qed.

Lemma exits_name_their_cause_witness :
  (exists operationId, "getDocument" = lower_first operationId) /\
  forall f, no_handlers "getDocument" <> HFunction f.
Proof.
  apply (exits_name_their_cause
           [("paths", JObj [("/documents/{id}", document_item)])] no_handlers
           (AbsentHandler "getDocument")).
  vm_compute. reflexivity.
Defined.

(** ** The schema of a route *)

Lemma parseRequestBody_shape (requestBody : option json) (body : obj) :
  parseRequestBody requestBody = Returned body ->
  body = [] \/ exists schema, body = [("body", schema)].
Proof.
  unfold parseRequestBody. destruct (truthy _).
  - destruct (get_prop _ "schema"); try discriminate. cbn [bind].
    destruct (filterReadOnlyProperties _) as [schema| | |]; try discriminate.
    cbn [bind]. intros [= <-]. right. now exists schema.
  - intros [= <-]. now left.
Qed.

Lemma parseResponses_shape (responses : option json) (response : obj) :
  parseResponses responses = Returned response ->
  response = [] \/ exists schemas, response = [("response", schemas)].
Proof.
  unfold parseResponses.
  destruct (Object_keys responses); try discriminate. cbn [bind].
  destruct (foldM _ _ _) as [[|r l]| | |]; try discriminate; cbn [bind];
    intros [= <-]; [now left | right; eexists; reflexivity].
Qed.

Lemma obj_get_merge_one (a : obj) (k0 : string) (v : json) (k : string) :
  obj_get (obj_merge a [(k0, v)]) k = if k0 =? k then Some v else obj_get a k.
Proof. unfold obj_merge. cbn [fold_left fst snd]. apply obj_get_set. Qed.

(** X23: the schema of a proto-route is the parameter groups, then the
    request body, then the responses, the later ones winning: a lookup
    finds the responses under [response] and the request body under [body]
    when there are any, also when a parameter has [response] or [body] as
    its location, and the parameter group everywhere else. *)
Theorem route_schema_precedence (item operation : json) (handlers : registry)
  (globalParameters : json) (verb : string) (route : protoRoute) :
  js_get item verb = Some operation ->
  parse_method (Some item) handlers globalParameters verb = Returned route ->
  exists allParameters params body response,
    concat (or_empty_array (js_get operation "parameters")) globalParameters =
      Returned allParameters /\
    parseParameters allParameters = Returned params /\
    parseRequestBody (js_get operation "requestBody") = Returned body /\
    parseResponses (js_get operation "responses") = Returned response /\
    forall k,
      obj_get (schema route) k =
      match obj_get response k with
      | Some v => Some v
      | None =>
          match obj_get body k with
          | Some v => Some v
          | None => obj_get params k
          end
      end.
Proof.
  intros Hop Hr.
  destruct (parse_method_returned item operation handlers globalParameters verb route
              Hop Hr)
    as (id & key & f & allParameters & params & body & response &
        _ & _ & _ & Hc & Hp & Hb & Hs & ->).
  exists allParameters, params, body, response. repeat split; try assumption.
  intros k. cbn [schema].
  destruct (parseRequestBody_shape _ _ Hb) as [-> | [bs ->]];
    destruct (parseResponses_shape _ _ Hs) as [-> | [rs ->]];
    repeat (change (obj_merge ?a []) with a);
    rewrite ?obj_get_merge_one; cbn [obj_get];
    repeat match goal with
           | |- context [?a =? k] => destruct (a =? k)
           end; reflexivity.
Qed.

Lemma route_schema_precedence_witness :
  exists allParameters params body response,
    concat (or_empty_array (js_get
              (JObj [("operationId", JStr "GetDocument");
                     ("parameters", JArr [id_parameter "path" "string"]);
                     ("responses", JObj [])]) "parameters"))
           (JArr [id_parameter "path" "integer"]) = Returned allParameters /\
    parseParameters allParameters = Returned params /\
    parseRequestBody None = Returned body /\
    parseResponses (Some (JObj [])) = Returned response /\
    forall k,
      obj_get
        [("params",
          JObj [("type", JStr "object");
                ("properties", JObj [("id", JObj [("type", JStr "integer")])])])] k =
      match obj_get response k with
      | Some v => Some v
      | None =>
          match obj_get body k with
          | Some v => Some v
          | None => obj_get params k
          end
      end.
Proof.
  apply (route_schema_precedence document_item
           (JObj [("operationId", JStr "GetDocument");
                  ("parameters", JArr [id_parameter "path" "string"]);
                  ("responses", JObj [])])
           document_handlers (JArr [id_parameter "path" "integer"]) "get"
           {| method := "GET";
              schema :=
                [("params",
                  JObj [("type", JStr "object");
                        ("properties", JObj [("id", JObj [("type", JStr "integer")])])])];
              handler := 7 |});
    vm_compute; reflexivity.
Defined.
